(** * The self-correcting verification loop of [src/main.py]

    A shallow embedding of [parse_code_proof] and [main_workflow] together
    with the properties of the parser, the template binder, the feedback
    policy and the retry loop.

    Python [str] values are sequences of Unicode code points; they are
    modelled as lists of code points ([N]).  The regular expressions are
    embedded as the matchers the backtracking engine of [re] computes.  The
    language model and the Lean runner are external collaborators: they
    appear as section variables, are taken to return, and are taken to
    leave the conversation they are handed as it is.  The [print] calls of
    the source have no part in what is returned and are left out. *)

From Stdlib Require Import String Ascii List NArith Bool Arith Lia.
Import ListNotations.

(* ===================================================================== *)
(** * Python strings *)
(* ===================================================================== *)

Module Str.

Definition char := N.
Definition str := list char.

(** An ASCII literal as a Python string. *)
Definition lit (s : string) : str := map N_of_ascii (list_ascii_of_string s).
Arguments lit s%_string.

(** [s.startswith(p)]. *)
Fixpoint starts_with (p s : str) : bool :=
  match p, s with
  | [], _ => true
  | _ :: _, [] => false
  | a :: p', b :: s' => N.eqb a b && starts_with p' s'
  end.

(** [sub in s] for strings. *)
Fixpoint contains (sub s : str) : bool :=
  starts_with sub s ||
  match s with
  | [] => false
  | _ :: t => contains sub t
  end.

(** [sep.join(parts)] for a non-empty list of parts. *)
Fixpoint join (sep : str) (parts : list str) : str :=
  match parts with
  | [] => []
  | [u] => u
  | u :: rest => u ++ sep ++ join sep rest
  end.

(** [old] occurs in [s] as a contiguous block. *)
Definition occurs (old s : str) : Prop := exists pre post, s = pre ++ old ++ post.

(** [s.replace(old, new)]: the non-overlapping occurrences of [old], found
    from left to right, are all replaced.  [skip] counts the characters of
    the current occurrence that are still to be dropped. *)
Fixpoint replace_from (old new : str) (skip : nat) (s : str) : str :=
  match s with
  | [] => []
  | c :: t =>
      match skip with
      | S k => replace_from old new k t
      | O =>
          if starts_with old s
          then new ++ replace_from old new (length old - 1) t
          else c :: replace_from old new 0 t
      end
  end.

Definition replace (old new s : str) : str :=
  match old with
  | [] => new ++ flat_map (fun c => c :: new) s
  | _ :: _ => replace_from old new 0 s
  end.

(** [s.replace(old, new, 1)]: only the first occurrence is replaced. *)
Fixpoint replace_first (old new s : str) : str :=
  if starts_with old s then new ++ skipn (length old) s
  else match s with
       | [] => []
       | c :: t => c :: replace_first old new t
       end.

(** A marker no proper suffix of which is a prefix of it: two occurrences
    of such a marker never overlap. *)
Definition no_overlap (m : str) : Prop :=
  forall u, u <> [] -> length u < length m -> starts_with m (u ++ m) = false.

(** ** Character classes of the [re] module on [str] patterns *)

(** [\s], and the characters removed by [str.strip()]: the Unicode
    whitespace characters. *)
Definition is_space (c : char) : bool :=
  (((9 <=? c) && (c <=? 13)) || ((28 <=? c) && (c <=? 32))
   || (c =? 133) || (c =? 160) || (c =? 5760)
   || ((8192 <=? c) && (c <=? 8202))
   || (c =? 8232) || (c =? 8233) || (c =? 8239) || (c =? 8287)
   || (c =? 12288))%N.

Definition newline : char := 10%N.

(** [.] without [re.DOTALL]: anything but a line feed. *)
Definition is_dot (c : char) : bool := negb (c =? newline)%N.

(** [re.IGNORECASE] on a literal letter.  The letters of the two section
    markers (C, O, D, E, P, R, F) have no case variants outside ASCII, so
    ASCII case folding decides the match. *)
Definition ascii_lower (c : char) : char :=
  (if (65 <=? c) && (c <=? 90) then c + 32 else c)%N.

Definition eq_ci (a b : char) : bool := (ascii_lower a =? ascii_lower b)%N.

Fixpoint starts_with_ci (p s : str) : bool :=
  match p, s with
  | [], _ => true
  | _ :: _, [] => false
  | a :: p', b :: s' => eq_ci a b && starts_with_ci p' s'
  end.

Fixpoint drop_while (f : char -> bool) (s : str) : str :=
  match s with
  | [] => []
  | c :: t => if f c then drop_while f t else s
  end.

Fixpoint take_while (f : char -> bool) (s : str) : str :=
  match s with
  | [] => []
  | c :: t => if f c then c :: take_while f t else []
  end.

Definition lstrip (s : str) : str := drop_while is_space s.
Definition rstrip (s : str) : str := rev (drop_while is_space (rev s)).

(** [s.strip()]. *)
Definition strip (s : str) : str := rstrip (lstrip s).

(** Case-insensitive equality of two texts, and case-insensitive
    containment. *)
Fixpoint eq_ci_str (a b : str) : bool :=
  match a, b with
  | [], [] => true
  | x :: a', y :: b' => eq_ci x y && eq_ci_str a' b'
  | _, _ => false
  end.

Fixpoint contains_ci (sub s : str) : bool :=
  starts_with_ci sub s ||
  match s with
  | [] => false
  | _ :: t => contains_ci sub t
  end.

Definition occurs_ci (sub s : str) : Prop :=
  exists pre mid post, s = pre ++ mid ++ post /\ eq_ci_str sub mid = true.

(** A marker that cannot overlap a second occurrence of itself, whatever
    the case of the letters. *)
Definition no_straddle (marker : str) : Prop :=
  forall u m t,
    u <> [] -> length u < length marker -> eq_ci_str marker m = true ->
    starts_with_ci marker (u ++ m ++ t) = false.

(** No letter of the marker matches a whitespace character. *)
Definition spaceless (marker : str) : Prop :=
  forall a w, In a marker -> is_space w = true -> eq_ci a w = false.

(** [s.split("\n")]: the lines of a text. *)
Fixpoint lines (s : str) : list str :=
  match s with
  | [] => [[]]
  | c :: t =>
      if (c =? newline)%N then [] :: lines t
      else match lines t with
           | l :: ls => (c :: l) :: ls
           | [] => [[c]]
           end
  end.

End Str.

(* ===================================================================== *)
(** * The regular expressions of the parser *)
(* ===================================================================== *)

(** The backtracking engine is embedded in continuation-passing style: a
    matcher receives the text at the current position and answers with the
    length of the first match the engine finds there, alternatives being
    tried in the engine's order (greedy: longest first; lazy: shortest
    first). *)

Module Re.
Import Str.

Definition matcher := str -> option nat.

Definition shift (n : nat) (r : option nat) : option nat := option_map (Nat.add n) r.

(** End of the pattern. *)
Definition done : matcher := fun _ => Some 0.

(** A literal string. *)
Definition literal (p : str) (k : matcher) : matcher :=
  fun s =>
    if starts_with p s then shift (length p) (k (skipn (length p) s)) else None.

(** One character of a class. *)
Definition one (cls : char -> bool) (k : matcher) : matcher :=
  fun s =>
    match s with
    | c :: t => if cls c then shift 1 (k t) else None
    | [] => None
    end.

(** [cls*], greedy. *)
Fixpoint star (cls : char -> bool) (k : matcher) (s : str) : option nat :=
  match s with
  | c :: t =>
      if cls c then
        match star cls k t with
        | Some n => Some (S n)
        | None => k s
        end
      else k s
  | [] => k []
  end.

(** [cls+], greedy. *)
Definition plus (cls : char -> bool) (k : matcher) : matcher := one cls (star cls k).

(** [(?:p)?], greedy. *)
Definition optional (p : str) (k : matcher) : matcher :=
  fun s =>
    match literal p k s with
    | Some n => Some n
    | None => k s
    end.

(** [^] under [re.MULTILINE], from the character before the position. *)
Definition at_line_start (prev : option char) : bool :=
  match prev with
  | None => true
  | Some c => (c =? newline)%N
  end.

(** [$] without [re.MULTILINE]: the end of the text, or just before a line
    feed that ends the text. *)
Definition at_end (s : str) : bool :=
  match s with
  | [] => true
  | [c] => (c =? newline)%N
  | _ => false
  end.

(** [re.sub(pattern, repl, s)] for a constant replacement: the text is
    scanned from the left, a match is exchanged for [repl] and the scan
    resumes behind it.  [skip] counts the characters of the current match
    still to be dropped, [prev] is the character before the position.  An
    empty match is exchanged as well and the scan moves on by one
    character; the patterns of the parser have no empty match. *)
Fixpoint sub_from (m : option char -> matcher) (repl : str)
    (skip : nat) (prev : option char) (s : str) : str :=
  match s with
  | [] =>
      match skip, m prev [] with
      | O, Some _ => repl
      | _, _ => []
      end
  | c :: t =>
      match skip with
      | S k => sub_from m repl k (Some c) t
      | O =>
          match m prev s with
          | Some (S n) => repl ++ sub_from m repl n (Some c) t
          | Some O => repl ++ c :: sub_from m repl 0 (Some c) t
          | None => c :: sub_from m repl 0 (Some c) t
          end
      end
  end.

Definition re_sub (m : option char -> matcher) (repl s : str) : str :=
  sub_from m repl 0 None s.

(** The character in front of the position after [x] has been passed. *)
Definition prev_after (prev : option char) (x : str) : option char :=
  match rev x with
  | [] => prev
  | c :: _ => Some c
  end.

(** [re.search]: the first position, from the left, at which [m] matches. *)
Fixpoint search {A : Type} (m : str -> option A) (s : str) : option A :=
  match m s with
  | Some r => Some r
  | None =>
      match s with
      | [] => None
      | _ :: t => search m t
      end
  end.

(** [(.*?)] under [re.DOTALL] in front of [k]: the shortest capture first.
    The answer is the length of the capture. *)
Fixpoint lazy_any (k : str -> bool) (s : str) : option nat :=
  if k s then Some 0
  else match s with
       | [] => None
       | _ :: t => option_map S (lazy_any k t)
       end.

Definition CODE : str := lit "CODE:".
Definition PROOF : str := lit "PROOF:".
Definition fence : str := lit "```".

(** [(?:PROOF:|$)] under [IGNORECASE]. *)
Definition section_end (r : str) : bool := starts_with_ci PROOF r || at_end r.

(** Group 1 of [CODE:(.*?)(?:PROOF:|$)] under [DOTALL | IGNORECASE] at the
    current position. *)
Definition code_pattern (s : str) : option str :=
  if starts_with_ci CODE s then
    let rest := skipn (length CODE) s in
    option_map (fun n => firstn n rest) (lazy_any section_end rest)
  else None.

(** Group 1 of the pattern of line 14 under [DOTALL | IGNORECASE]: the
    marker PROOF: and then, greedily, every character up to the end. *)
Definition proof_pattern (s : str) : option str :=
  if starts_with_ci PROOF s then Some (skipn (length PROOF) s) else None.

(** The backtick, of which a fence has three. *)
Definition is_tick (c : char) : bool := (96 =? c)%N.

(** [```(?:lean)?\s*] *)
Definition fence_open (_ : option char) : matcher :=
  literal fence (optional (lit "lean") (star is_space done)).

(** [\s*```] *)
Definition fence_close (_ : option char) : matcher :=
  star is_space (literal fence done).

(** U+00B7 MIDDLE DOT and U+2022 BULLET. *)
Definition middle_dot : char := 183%N.
Definition round_bullet : char := 8226%N.
Definition period : char := 46%N.

Definition is_bullet (c : char) : bool :=
  ((c =? middle_dot) || (c =? round_bullet))%N.
Definition is_period (c : char) : bool := (c =? period)%N.

(** The two bullet patterns of lines 30-31 under [re.MULTILINE]: line
    start, [\s*], one glyph of the class given (middle dot or round bullet
    for the first pattern, the period for the second), [\s*]. *)
Definition bullet_line (glyph : char -> bool) (prev : option char) : matcher :=
  if at_line_start prev
  then star is_space (one glyph (star is_space done))
  else fun _ => None.

(** Where the scan, coming from [prev] over the whitespace [ws], first
    stands at a line start: the whitespace passed before, and the rest. *)
Definition approach (prev : option char) (ws : str) : option (str * str) :=
  if at_line_start prev then Some ([], ws)
  else match drop_while is_dot ws with
       | [] => None
       | c :: b => Some (take_while is_dot ws ++ [c], b)
       end.

(** The replacement text ["· "]. *)
Definition canonical_bullet : str := [middle_dot; 32%N].

Section Word.

(** [str.isalnum] beyond ASCII is a table of the Unicode database that
    ships with the interpreter; it is left open. *)
Variable unicode_alnum : char -> bool.

(** [\w] *)
Definition is_word (c : char) : bool :=
  (((48 <=? c) && (c <=? 57)) || ((65 <=? c) && (c <=? 90))
   || ((97 <=? c) && (c <=? 122)) || (c =? 95)
   || ((128 <=? c) && unicode_alnum c))%N.

(** [^def\s+\w+\s*\(.*\)\s*:.*:=\s*] under [re.MULTILINE]. *)
Definition def_header (prev : option char) : matcher :=
  if at_line_start prev then
    literal (lit "def")
      (plus is_space
        (plus is_word
          (star is_space
            (literal (lit "(")
              (star is_dot
                (literal (lit ")")
                  (star is_space
                    (literal (lit ":")
                      (star is_dot
                        (literal (lit ":=")
                          (star is_space done)))))))))))
  else fun _ => None.

End Word.

End Re.

(* ===================================================================== *)
(** * [parse_code_proof] (lines 10-39) *)
(* ===================================================================== *)

Module Parser.
Import Str Re.

Definition sorry : str := lit "sorry".

(** Lines 13-17: the two optional sections, stripped. *)
Definition code_section (response : str) : str :=
  match search code_pattern response with
  | Some g => strip g
  | None => []
  end.

Definition proof_section (response : str) : str :=
  match search proof_pattern response with
  | Some g => strip g
  | None => []
  end.

(** Lines 20-23: the fences. *)
Definition strip_fences (s : str) : str :=
  re_sub fence_close [] (re_sub fence_open [] s).

(** Lines 30-31: the bullets. *)
Definition normalize_bullets (proof : str) : str :=
  re_sub (bullet_line is_period) canonical_bullet
    (re_sub (bullet_line is_bullet) canonical_bullet proof).

(** Lines 34-37: [if not s: s = "sorry"]. *)
Definition or_sorry (s : str) : str :=
  match s with
  | [] => sorry
  | _ :: _ => s
  end.

Section Parse.

Variable unicode_alnum : char -> bool.

(** Line 26: the repeated signature. *)
Definition strip_def_header (code : str) : str :=
  re_sub (def_header unicode_alnum) [] code.

Definition parse_code_proof (response : str) : str * str :=
  let code := code_section response in
  let proof := proof_section response in
  let code := strip_fences code in
  let proof := strip_fences proof in
  let code := strip_def_header code in
  let proof := normalize_bullets proof in
  (or_sorry code, or_sorry proof).

End Parse.

(** The text put together again from a candidate pair: the CODE: marker,
    the code, the PROOF: marker, the proof, with padding between them. *)
Definition reassemble_with (pad1 pad2 pad3 pad4 : str) (pair : str * str)
    : str :=
  CODE ++ (pad1 ++ fst pair ++ pad2) ++ PROOF ++ (pad3 ++ snd pair ++ pad4).

(** The same without padding. *)
Definition reassemble (pair : str * str) : str :=
  CODE ++ fst pair ++ PROOF ++ snd pair.

(** ** Lines and bullets *)

Definition is_glyph (c : char) : bool := is_bullet c || is_period c.

Definition begins_with_glyph (l : str) : bool :=
  match l with
  | [] => false
  | c :: _ => is_glyph c
  end.

(** The second half of the bullet property as the specification words it:
    a line that does not begin with a glyph is left untouched. *)
Definition other_lines_untouched (proof : str) : Prop :=
  forall i l,
    nth_error (lines proof) i = Some l ->
    begins_with_glyph l = false ->
    nth_error (lines (normalize_bullets proof)) i = Some l.

(** What the bullet patterns do to one line: when the first character
    behind the indentation is a glyph of the class, indentation, glyph and
    the whitespace behind it give way to the canonical bullet. *)
Definition rewrite_line (glyph : char -> bool) (l : str) : str :=
  match drop_while is_space l with
  | g :: t => if glyph g then canonical_bullet ++ drop_while is_space t else l
  | [] => l
  end.

(** A line without a line feed that is not blank and that, when its first
    character behind the indentation is a glyph, has text behind the
    glyph. *)
Definition plain_line (glyph : char -> bool) (l : str) : bool :=
  forallb is_dot l &&
  match drop_while is_space l with
  | [] => false
  | g :: t =>
      if glyph g
      then match drop_while is_space t with [] => false | _ :: _ => true end
      else true
  end.

End Parser.

(* ===================================================================== *)
(** * The template binder (lines 171-172) *)
(* ===================================================================== *)

Module Binder.
Import Str.

Definition code_marker : str := lit "{{code}}".
Definition proof_marker : str := lit "{{proof}}".

(** [temp_lean_code = task_lean_code.replace("{{code}}", code)] followed by
    [temp_lean_code = temp_lean_code.replace("{{proof}}", proof)]. *)
Definition bind (task_lean_code code proof : str) : str :=
  let temp_lean_code := replace code_marker code task_lean_code in
  replace proof_marker proof temp_lean_code.

(** The binder as the specification words it: only the first occurrence of
    each marker is exchanged. *)
Definition bind_first_occurrence (template code proof : str) : str :=
  replace_first proof_marker proof (replace_first code_marker code template).

End Binder.

(* ===================================================================== *)
(** * [main_workflow] (lines 41-207) *)
(* ===================================================================== *)

Module Workflow.
Import Str Parser Binder.

Inductive role := system | user | assistant.

(** A message of the conversation, [{"role": ..., "content": ...}]. *)
Record message := { msg_role : role; content : str }.

(** The result, [{"code": ..., "proof": ...}]. *)
Record LeanCode := { code : str; proof : str }.

(** The calls to the outside world, in the order they are made. *)
Inductive event :=
| ModelCall (sent : list message)
| VerifierCall (program : str).

Definition is_model_call (e : event) : bool :=
  match e with ModelCall _ => true | VerifierCall _ => false end.

Definition is_verifier_call (e : event) : bool :=
  match e with ModelCall _ => false | VerifierCall _ => true end.

Definition model_calls (tr : list event) : nat := length (filter is_model_call tr).
Definition verifier_calls (tr : list event) : nat := length (filter is_verifier_call tr).

Definition max_retries : nat := 3.

Definition success_marker : str := lit "Lean code executed successfully.".

(** Line 184. *)
Definition stub_feedback : str :=
  lit "Your solution contains 'sorry'. Please provide a complete "
  ++ lit "implementation and proof without using 'sorry'. Just provide the "
  ++ lit "exact code and proof body that should replace {{code}} and "
  ++ lit "{{proof}} respectively.".

(** Lines 189-197, an f-string: the doubled braces stand for single ones. *)
Definition failure_feedback (verification_result : str) : str :=
  lit "Your solution had errors:
" ++ verification_result ++ lit "

Please fix the code and proof. Remember:
1. ONLY provide the exact body for {code} and {proof}
2. Do not include function definitions or extra formatting
3. Avoid using dots (.) at the beginning of lines in the proof
4. Do not use nested syntax like 'by_cases h' inside a case
5. Use simple proof tactics like 'simp', 'rfl', 'exact', etc.".

(** The local variables of the loop, and the calls made so far. *)
Record state := {
  generated_function_implementation : str;
  generated_proof : str;
  retries : nat;
  messages : list message;
  trace : list event
}.

(** The three branches of lines 178-197. *)
Inductive branch := Success | StubDetected | HardFailure.

Definition classify (verification_result code proof : str) : branch :=
  if contains success_marker verification_result then Success
  else if contains sorry code || contains sorry proof then StubDetected
  else HardFailure.

Section Loop.

Variable unicode_alnum : char -> bool.

(** The collaborators: the answer of the language model and the output of
    the Lean runner at the attempt of the given number.  Nothing is assumed
    about them. *)
Variable get_response : nat -> list message -> str.
Variable execute_lean_code : nat -> str -> str.

(** The prompts of lines 72-151; their text does not steer the loop. *)
Variable system_prompt : str.
Variable user_prompt : str -> str -> str.

Variable problem_description : str.
Variable task_lean_code : str.

Definition initial_state : state :=
  {| generated_function_implementation := sorry;
     generated_proof := sorry;
     retries := 0;
     messages :=
       [ {| msg_role := system; content := system_prompt |};
         {| msg_role := user;
            content := user_prompt problem_description task_lean_code |} ];
     trace := [] |}.

(** One pass through the body of the [while] loop (lines 159-199).  The
    flag tells whether the pass left through [break]. *)
Definition attempt (st : state) : state * bool :=
  let response := get_response (retries st) (messages st) in
  let '(code, proof) := parse_code_proof unicode_alnum response in
  let temp_lean_code := bind task_lean_code code proof in
  let verification_result := execute_lean_code (retries st) temp_lean_code in
  let calls := trace st ++ [ModelCall (messages st); VerifierCall temp_lean_code] in
  match classify verification_result code proof with
  | Success =>
      ({| generated_function_implementation := code;
          generated_proof := proof;
          retries := retries st;
          messages := messages st;
          trace := calls |}, true)
  | StubDetected =>
      ({| generated_function_implementation := code;
          generated_proof := proof;
          retries := S (retries st);
          messages := messages st ++
            [ {| msg_role := assistant; content := response |};
              {| msg_role := user; content := stub_feedback |} ];
          trace := calls |}, false)
  | HardFailure =>
      ({| generated_function_implementation := code;
          generated_proof := proof;
          retries := S (retries st);
          messages := messages st ++
            [ {| msg_role := assistant; content := response |};
              {| msg_role := user; content := failure_feedback verification_result |} ];
          trace := calls |}, false)
  end.

(** Names for the values a pass computes from the state it starts in. *)
Definition response_of (st : state) : str :=
  get_response (retries st) (messages st).

Definition candidates_of (st : state) : str * str :=
  parse_code_proof unicode_alnum (response_of st).

Definition program_of (st : state) : str :=
  bind task_lean_code (fst (candidates_of st)) (snd (candidates_of st)).

Definition verification_result_of (st : state) : str :=
  execute_lean_code (retries st) (program_of st).

Definition branch_of (st : state) : branch :=
  classify (verification_result_of st)
    (fst (candidates_of st)) (snd (candidates_of st)).

Definition feedback_of (st : state) : str :=
  match branch_of st with
  | HardFailure => failure_feedback (verification_result_of st)
  | _ => stub_feedback
  end.

(** The state in which a pass ends, by the branch it takes. *)
Definition after_attempt (st : state) : state :=
  {| generated_function_implementation := fst (candidates_of st);
     generated_proof := snd (candidates_of st);
     retries :=
       match branch_of st with
       | Success => retries st
       | _ => S (retries st)
       end;
     messages :=
       match branch_of st with
       | Success => messages st
       | _ => messages st ++
                [ {| msg_role := assistant; content := response_of st |};
                  {| msg_role := user; content := feedback_of st |} ]
       end;
     trace := trace st ++
                [ModelCall (messages st); VerifierCall (program_of st)] |}.

(** [while retries < max_retries: ...] *)
Fixpoint while_loop (fuel : nat) (st : state) : option state :=
  if retries st <? max_retries then
    match fuel with
    | O => None
    | S fuel' =>
        let '(st', stop) := attempt st in
        if stop then Some st' else while_loop fuel' st'
    end
  else Some st.

Definition result_of (st : state) : LeanCode :=
  {| code := generated_function_implementation st;
     proof := generated_proof st |}.

Definition run (fuel : nat) : option state := while_loop fuel initial_state.

Definition main_workflow : option LeanCode :=
  option_map result_of (run max_retries).

End Loop.

End Workflow.

(* ===================================================================== *)
(** * Sample collaborators and inputs *)
(* ===================================================================== *)

Module Samples.
Import Str Workflow.

(** An interpreter whose alphanumeric table holds nothing beyond ASCII. *)
Definition ascii_only : char -> bool := fun _ => false.

(** A model that always gives the same answer, a runner that always prints
    the same text. *)
Definition constant_model (answer : str) : nat -> list message -> str :=
  fun _ _ => answer.

Definition constant_runner (output : str) : nat -> str -> str :=
  fun _ _ => output.

Definition no_prompt : str -> str -> str := fun _ _ => [].

Definition template : str := lit "{{code}} {{proof}}".

(** An answer in the format the prompt asks for, with an indented period
    as a bullet. *)
Definition answer : str := lit "CODE:
x+1
PROOF:
intro h
  . simp".

(** A proof of three lines: one without a bullet, one with an indented
    period, one with a round bullet. *)
Definition three_lines : list str :=
  [lit "intro h"; lit "  . simp"; [Re.round_bullet] ++ lit "rfl"].

(** The state in which the loop starts on [template]. *)
Definition start : state := initial_state [] no_prompt [] template.

(** Well-formed answers on which a second parse gives another pair. *)
Definition two_headers : str := lit "CODE:
def f (x) : Nat :=
  def g (y) : Nat := y
PROOF:
rfl".

Definition fenced : str := lit "CODE:
```lean
x
```
PROOF:
rfl".

Definition full_model := constant_model (lit "CODE: x PROOF: rfl").
Definition partial_model := constant_model (lit "CODE: x").
Definition accepting_runner := constant_runner success_marker.
Definition rejecting_runner := constant_runner (lit "error: unsolved goals").

End Samples.

(* ===================================================================== *)
(** * The shape of a conversation *)
(* ===================================================================== *)

Module Conversation.
Import Workflow.

(** The roles of a conversation as the chat interface expects them: the
    system prompt, the first user message, then answers of the assistant
    each followed by a user message. *)
Fixpoint alternating (l : list role) : bool :=
  match l with
  | [] => true
  | assistant :: user :: t => alternating t
  | _ => false
  end.

Definition conversation_shape (msgs : list message) : bool :=
  match map msg_role msgs with
  | system :: user :: t => alternating t
  | _ => false
  end.

End Conversation.

(* ===================================================================== *)
(** * Shapes of texts and patterns *)
(* ===================================================================== *)

Module Shapes.
Import Str Re.

(** A matcher settles when whatever it matches is not followed by
    whitespace. *)
Definition settles (k : matcher) : Prop :=
  forall s n, k s = Some n -> drop_while is_space (skipn n s) = skipn n s.

(** Some line of the text begins with [p]. *)
Fixpoint some_line_starts (p : str) (prev : option char) (s : str) : bool :=
  (at_line_start prev && starts_with p s) ||
  match s with
  | [] => false
  | c :: t => some_line_starts p (Some c) t
  end.

(** Some line of the text has a period, a middle dot or a round bullet as
    its first character behind the indentation. *)
Fixpoint some_line_bulleted (prev : option char) (s : str) : bool :=
  (at_line_start prev &&
   match drop_while is_space s with
   | g :: _ => Parser.is_glyph g
   | [] => false
   end) ||
  match s with
  | [] => false
  | c :: t => some_line_bulleted (Some c) t
  end.

(** Some closing bracket of the text has a colon as the next character
    behind it that is no whitespace. *)
Fixpoint colon_behind_bracket (s : str) : bool :=
  match s with
  | [] => false
  | c :: t =>
      ((c =? 41)%N && starts_with (lit ":") (drop_while is_space t))
      || colon_behind_bracket t
  end.

End Shapes.

(* ===================================================================== *)
(** * The context taken from the template (lines 62-69) *)
(* ===================================================================== *)

(** The two patterns of lines 62 and 68 have groups.  Their matchers hand
    the text of a group on to the rest of the pattern, and answer with the
    groups of the first match the engine finds. *)

Module Prompt.
Import Str Re.

(** A literal string, followed by [k]. *)
Definition literal_then {A : Type} (p : str) (k : str -> option A)
    : str -> option A :=
  fun s => if starts_with p s then k (skipn (length p) s) else None.

(** [cls*], greedy, followed by [k]. *)
Fixpoint star_then {A : Type} (cls : char -> bool) (k : str -> option A)
    (s : str) : option A :=
  match s with
  | c :: t =>
      if cls c then
        match star_then cls k t with
        | Some r => Some r
        | None => k s
        end
      else k s
  | [] => k []
  end.

(** [cls+], greedy, followed by [k]. *)
Definition plus_then {A : Type} (cls : char -> bool) (k : str -> option A)
    : str -> option A :=
  fun s =>
    match s with
    | c :: t => if cls c then star_then cls k t else None
    | [] => None
    end.

(** The rest of a group [(cls+)] of which [acc] has been read: the longest
    run first.  [k] receives the text of the group. *)
Fixpoint capture_star {A : Type} (cls : char -> bool)
    (k : str -> str -> option A) (acc s : str) : option A :=
  match s with
  | c :: t =>
      if cls c then
        match capture_star cls k (acc ++ [c]) t with
        | Some r => Some r
        | None => k acc s
        end
      else k acc s
  | [] => k acc []
  end.

(** A group [(cls+)], greedy. *)
Definition capture_plus {A : Type} (cls : char -> bool)
    (k : str -> str -> option A) : str -> option A :=
  fun s =>
    match s with
    | c :: t => if cls c then capture_star cls k [c] t else None
    | [] => None
    end.

(** The rest of a lazy group of any characters under [re.DOTALL], of which
    [acc] has been read: the shortest text first. *)
Fixpoint capture_lazy {A : Type} (k : str -> str -> option A) (acc s : str)
    : option A :=
  match k acc s with
  | Some r => Some r
  | None =>
      match s with
      | [] => None
      | c :: t => capture_lazy k (acc ++ [c]) t
      end
  end.

Section Signature.

Variable unicode_alnum : char -> bool.

(** Line 62: the letters def, whitespace, a group of word characters,
    optional whitespace, a lazy group in round brackets, optional
    whitespace, a colon, a lazy group, and the sign [:=], under
    [re.DOTALL].  The answer holds the three groups. *)
Definition function_pattern : str -> option (str * str * str) :=
  literal_then (lit "def")
    (plus_then is_space
      (capture_plus (is_word unicode_alnum) (fun name =>
        star_then is_space
          (literal_then (lit "(")
            (capture_lazy (fun args =>
              literal_then (lit ")")
                (star_then is_space
                  (literal_then (lit ":")
                    (capture_lazy (fun ret =>
                      literal_then (lit ":=")
                        (fun _ => Some (name, args, ret))) [])))) []))))).

Definition function_match (task_lean_code : str) : option (str * str * str) :=
  search function_pattern task_lean_code.

(** Lines 63-65. *)
Definition function_name (task_lean_code : str) : str :=
  match function_match task_lean_code with
  | Some (name, _, _) => name
  | None => lit "function"
  end.

Definition function_args (task_lean_code : str) : str :=
  match function_match task_lean_code with
  | Some (_, args, _) => args
  | None => lit "args"
  end.

Definition function_return (task_lean_code : str) : str :=
  match function_match task_lean_code with
  | Some (_, _, ret) => ret
  | None => lit "return_type"
  end.

End Signature.

Definition SPEC_START : str := lit "-- << SPEC START >>".
Definition SPEC_END : str := lit "-- << SPEC END >>".

(** Line 68: the text between the two markers, as short as it can be. *)
Definition spec_pattern : str -> option str :=
  literal_then SPEC_START
    (capture_lazy (fun body => literal_then SPEC_END (fun _ => Some body)) []).

Definition spec_match (task_lean_code : str) : option str :=
  search spec_pattern task_lean_code.

(** Line 69. *)
Definition specification (task_lean_code : str) : str :=
  match spec_match task_lean_code with
  | Some g => strip g
  | None => []
  end.

End Prompt.

(* ===================================================================== *)
(** * Properties of Python strings *)
(* ===================================================================== *)

Module StrFacts.
Import Str.

(** ** Facts about [starts_with] *)

Lemma starts_with_app p t : starts_with p (p ++ t) = true.
Proof.
  induction p as [|a p IH]; simpl; [reflexivity|].
  now rewrite N.eqb_refl, IH.
Qed.

Lemma starts_with_true p s : starts_with p s = true <-> exists t, s = p ++ t.
Proof.
  split.
  - revert s; induction p as [|a p IH]; intros s H.
    + now exists s.
    + destruct s as [|b s]; simpl in H; [discriminate|].
      apply andb_true_iff in H as [Hab Hps].
      apply N.eqb_eq in Hab; subst b.
      destruct (IH _ Hps) as [t ->]. now exists t.
  - intros [t ->]. apply starts_with_app.
Qed.

Lemma starts_with_false_app p s t :
  starts_with p (s ++ t) = false -> starts_with p s = false.
Proof.
  intros H. destruct (starts_with p s) eqn:E; [|reflexivity].
  apply starts_with_true in E as [r ->].
  rewrite <- app_assoc, starts_with_app in H. discriminate.
Qed.

Lemma starts_with_long p s t :
  length p <= length s -> starts_with p (s ++ t) = starts_with p s.
Proof.
  revert s; induction p as [|a p IH]; intros s Hl; [reflexivity|].
  destruct s as [|b s]; simpl in *; [lia|].
  rewrite IH by lia. reflexivity.
Qed.

Lemma starts_with_skipn p s :
  starts_with p s = true -> s = p ++ skipn (length p) s.
Proof.
  intros H. apply starts_with_true in H as [t ->].
  now rewrite skipn_app, skipn_all, Nat.sub_diag.
Qed.

Lemma contains_occurs sub s : contains sub s = true <-> occurs sub s.
Proof.
  split.
  - induction s as [|c s IH]; simpl; intros H.
    + rewrite orb_false_r in H. apply starts_with_true in H as [t Ht].
      exists [], t. exact Ht.
    + apply orb_true_iff in H as [H|H].
      * apply starts_with_true in H as [t Ht]. exists [], t. exact Ht.
      * destruct (IH H) as (pre & post & ->). now exists (c :: pre), post.
  - intros (pre & post & ->).
    induction pre as [|c pre IH]; simpl.
    + assert (H : forall x, contains sub x = starts_with sub x ||
                 match x with [] => false | _ :: t => contains sub t end)
        by (intros [|? ?]; reflexivity).
      now rewrite H, starts_with_app.
    + rewrite IH. apply orb_true_r.
Qed.

Lemma join_cons sep u v rest :
  join sep (u :: v :: rest) = u ++ sep ++ join sep (v :: rest).
Proof. reflexivity. Qed.

(** ** Facts about [replace] *)

Lemma replace_from_skip old new k s :
  replace_from old new k s = replace_from old new 0 (skipn k s).
Proof.
  revert s; induction k as [|k IH]; intros s; [reflexivity|].
  destruct s as [|c t]; [reflexivity|]. simpl. apply IH.
Qed.

Lemma replace_nil old new : old <> [] -> replace old new [] = [].
Proof. destruct old; [congruence|reflexivity]. Qed.

Lemma replace_hit old new t :
  old <> [] -> replace old new (old ++ t) = new ++ replace old new t.
Proof.
  intros Hne. destruct old as [|a old]; [congruence|].
  unfold replace. cbn [app replace_from].
  change (a :: old ++ t) with ((a :: old) ++ t).
  rewrite starts_with_app, replace_from_skip.
  cbn [length]. rewrite Nat.sub_succ, Nat.sub_0_r.
  now rewrite skipn_app, skipn_all, Nat.sub_diag.
Qed.

Lemma replace_miss old new c t :
  starts_with old (c :: t) = false ->
  replace old new (c :: t) = c :: replace old new t.
Proof.
  intros H. destruct old as [|a old]; [discriminate|].
  unfold replace. cbn [replace_from]. now rewrite H.
Qed.

(** The text is cut at the occurrences that [replace] finds: the pieces
    between them are copied, each occurrence is exchanged for [new]. *)
Lemma replace_pieces old new :
  old <> [] ->
  forall s, exists us,
    s = join old us /\
    replace old new s = join new us /\
    us <> [] /\
    Forall (fun u => ~ occurs old u) us.
Proof.
  intros Hne s.
  induction s as [s IH] using (induction_ltof1 _ (@length char)).
  unfold ltof in IH.
  destruct (starts_with old s) eqn:E.
  - apply starts_with_true in E as [t ->].
    destruct (IH t) as (us & Ht & Hr & Hus & Hall).
    { rewrite length_app. destruct old; [congruence|simpl; lia]. }
    exists ([] :: us). repeat split.
    + destruct us as [|u us]; [congruence|]. rewrite join_cons, <- Ht. reflexivity.
    + rewrite replace_hit by exact Hne.
      destruct us as [|u us]; [congruence|]. rewrite join_cons, <- Hr. reflexivity.
    + discriminate.
    + constructor; [|exact Hall].
      intros (pre & post & Hnil).
      destruct pre; [destruct old; [congruence|discriminate]|discriminate].
  - destruct s as [|c t].
    + exists [[]]. repeat split.
      * now rewrite replace_nil.
      * discriminate.
      * constructor; [|constructor].
        intros (pre & post & Hnil).
        destruct pre; [destruct old; [congruence|discriminate]|discriminate].
    + destruct (IH t) as (us & Ht & Hr & Hus & Hall); [simpl; lia|].
      destruct us as [|u us]; [congruence|].
      exists ((c :: u) :: us). repeat split.
      * destruct us; [simpl in *; now rewrite Ht|].
        rewrite join_cons in *. now rewrite Ht.
      * rewrite replace_miss by exact E.
        destruct us; [simpl in *; now rewrite Hr|].
        rewrite join_cons in *. now rewrite Hr.
      * discriminate.
      * apply Forall_cons_iff in Hall as [Hu Hrest].
        constructor; [|exact Hrest].
        intros (pre & post & Hcu).
        destruct pre as [|d pre].
        -- cbn [app] in Hcu.
           assert (Hs : starts_with old (c :: u) = true)
             by (apply starts_with_true; now exists post).
           assert (Hf : starts_with old (c :: u) = false).
           { destruct us as [|u' us].
             - simpl in Ht. now rewrite Ht in E.
             - rewrite join_cons in Ht. rewrite Ht in E.
               change (c :: u ++ old ++ join old (u' :: us))
                 with ((c :: u) ++ old ++ join old (u' :: us)) in E.
               now apply starts_with_false_app in E. }
           congruence.
        -- injection Hcu as _ Hu'. apply Hu. now exists pre, post.
Qed.

(** For a marker whose occurrences cannot overlap, replacing distributes
    over every occurrence. *)
Lemma replace_split m new :
  m <> [] -> no_overlap m ->
  forall u v, replace m new (u ++ m ++ v) = replace m new u ++ new ++ replace m new v.
Proof.
  intros Hne Hno u v.
  induction u as [u IH] using (induction_ltof1 _ (@length char)).
  unfold ltof in IH.
  destruct u as [|c u].
  - cbn [app]. rewrite replace_hit, replace_nil by exact Hne. reflexivity.
  - destruct (starts_with m ((c :: u) ++ m ++ v)) eqn:E.
    + destruct (Nat.lt_ge_cases (length (c :: u)) (length m)) as [Hlt|Hge].
      * exfalso.
        rewrite app_assoc, starts_with_long in E
          by (rewrite length_app; lia).
        rewrite Hno in E; [discriminate|discriminate|exact Hlt].
      * rewrite starts_with_long in E by exact Hge.
        apply starts_with_true in E as [w Hw]. rewrite Hw.
        rewrite <- app_assoc, !replace_hit by exact Hne.
        rewrite IH, app_assoc; [reflexivity|].
        rewrite Hw, length_app. destruct m; [congruence|simpl; lia].
    + cbn [app] in *. rewrite replace_miss by exact E.
      rewrite IH by (simpl; lia).
      rewrite replace_miss; [reflexivity|].
      change (c :: u ++ m ++ v) with ((c :: u) ++ m ++ v) in E.
      now apply starts_with_false_app in E.
Qed.

End StrFacts.

(* ===================================================================== *)
(** * Properties of the template binder *)
(* ===================================================================== *)

Module BinderFacts.
Import Str StrFacts Binder.

Ltac overlap_case u :=
  destruct u as [|? u];
  [ try congruence;
    let E := fresh "E" in
    match goal with
    | |- ?lhs = false => destruct lhs eqn:E; [|reflexivity]
    end;
    apply starts_with_true in E as [? E]; cbn in E; congruence
  | ].

Lemma code_marker_no_overlap : no_overlap code_marker.
Proof.
  intros u Hne Hl. cbn in Hl.
  do 8 (overlap_case u). simpl in Hl. lia.
Qed.

Lemma proof_marker_no_overlap : no_overlap proof_marker.
Proof.
  intros u Hne Hl. cbn in Hl.
  do 9 (overlap_case u). simpl in Hl. lia.
Qed.

Lemma code_marker_nonempty : code_marker <> [].
Proof. discriminate. Qed.

Lemma proof_marker_nonempty : proof_marker <> [].
Proof. discriminate. Qed.

(** The example of the specification: one occurrence of each marker. *)
Example bind_spec_example :
  bind (lit "theorem t := {{code}} ... {{proof}}") (lit "x+1") (lit "rfl")
  = lit "theorem t := x+1 ... rfl".
Proof. reflexivity. Qed.

(** C1, as stated, fails: a template with two occurrences of the code
    marker has both of them replaced, whereas replacing at most the first
    occurrence would leave the second one in place. *)
Lemma bind_replaces_later_occurrences :
  bind (lit "{{code}} {{code}}") (lit "x") (lit "p") = lit "x x" /\
  bind_first_occurrence (lit "{{code}} {{code}}") (lit "x") (lit "p")
    = lit "x {{code}}" /\
  bind (lit "{{code}} {{code}}") (lit "x") (lit "p")
    <> bind_first_occurrence (lit "{{code}} {{code}}") (lit "x") (lit "p").
Proof. repeat split. vm_compute. discriminate. Qed.

(** C1, amended: bind replaces every occurrence of the code marker in the
    template by the code candidate and then every occurrence of the proof
    marker in the result by the proof candidate; the pieces between the
    replaced occurrences are carried over unchanged.  The template is the
    pieces [us] joined by the code marker, the intermediate text is the same
    pieces joined by the code candidate; it is in turn the pieces [vs]
    joined by the proof marker, and the bound text is [vs] joined by the
    proof candidate.  No piece contains the marker it is cut at. *)
Theorem bind_replaces_every_occurrence :
  forall template code proof,
  exists us vs,
    template = join code_marker us /\
    Forall (fun u => ~ occurs code_marker u) us /\
    join code us = join proof_marker vs /\
    Forall (fun v => ~ occurs proof_marker v) vs /\
    bind template code proof = join proof vs.
Proof.
  intros template code proof. unfold bind.
  destruct (replace_pieces code_marker code code_marker_nonempty template)
    as (us & Hus & Hmid & _ & Hnous).
  destruct (replace_pieces proof_marker proof proof_marker_nonempty
              (replace code_marker code template))
    as (vs & Hvs & Hout & _ & Hnovs).
  exists us, vs. repeat split; try assumption.
  now rewrite <- Hmid.
Qed.

(** C10: the code candidate is substituted first and the proof candidate is
    substituted into the result, so an occurrence of the proof marker inside
    the code candidate is itself replaced by the proof candidate: the bound
    text has the proof candidate at the place of that occurrence, between
    the bound text of what precedes it and of what follows it. *)
Theorem bind_code_before_proof :
  (forall template code proof,
     bind template code proof
     = replace proof_marker proof (replace code_marker code template)) /\
  (forall a b c1 c2 proof,
     let code := c1 ++ proof_marker ++ c2 in
     bind (a ++ code_marker ++ b) code proof
     = replace proof_marker proof (replace code_marker code a ++ c1)
       ++ proof
       ++ replace proof_marker proof (c2 ++ replace code_marker code b)).
Proof.
  split; [reflexivity|].
  intros a b c1 c2 proof code. unfold bind.
  rewrite (replace_split code_marker code code_marker_nonempty
             code_marker_no_overlap).
  unfold code at 2.
  replace (replace code_marker code a ++ (c1 ++ proof_marker ++ c2)
             ++ replace code_marker code b)
    with ((replace code_marker code a ++ c1) ++ proof_marker
            ++ (c2 ++ replace code_marker code b))
    by (now rewrite <- !app_assoc).
  apply (replace_split proof_marker proof proof_marker_nonempty
           proof_marker_no_overlap).
Qed.

End BinderFacts.

(* ===================================================================== *)
(** * Properties of the matchers *)
(* ===================================================================== *)

Module ReFacts.
Import Str StrFacts Re.

(** ** Prefixes by a character class *)

Lemma take_drop_while f s : take_while f s ++ drop_while f s = s.
Proof.
  induction s as [|c t IH]; simpl; [reflexivity|].
  destruct (f c); simpl; [now rewrite IH | reflexivity].
Qed.

Lemma take_while_all f s : forallb f (take_while f s) = true.
Proof.
  induction s as [|c t IH]; simpl; [reflexivity|].
  destruct (f c) eqn:E; simpl; [now rewrite E | reflexivity].
Qed.

Lemma drop_while_head f s c t : drop_while f s = c :: t -> f c = false.
Proof.
  induction s as [|d s IH]; simpl; [discriminate|].
  destruct (f d) eqn:E; [exact IH|]. intros H. now injection H as <- _.
Qed.

Lemma drop_while_app f ws t :
  forallb f ws = true -> drop_while f (ws ++ t) = drop_while f t.
Proof.
  induction ws as [|c ws IH]; simpl; [reflexivity|].
  intros H. apply andb_true_iff in H as [-> H]. now apply IH.
Qed.

Lemma take_while_app f ws t :
  forallb f ws = true -> take_while f (ws ++ t) = ws ++ take_while f t.
Proof.
  induction ws as [|c ws IH]; simpl; [reflexivity|].
  intros H. apply andb_true_iff in H as [-> H]. now rewrite IH.
Qed.

Lemma drop_while_stop f c t : f c = false -> drop_while f (c :: t) = c :: t.
Proof. intros H. simpl. now rewrite H. Qed.

Lemma take_while_stop f c t : f c = false -> take_while f (c :: t) = [].
Proof. intros H. simpl. now rewrite H. Qed.

Lemma drop_while_length f s : length (drop_while f s) <= length s.
Proof.
  induction s as [|c t IH]; simpl; [lia|]. destruct (f c); simpl; lia.
Qed.

Lemma drop_while_idem f s : drop_while f (drop_while f s) = drop_while f s.
Proof.
  induction s as [|c t IH]; simpl; [reflexivity|].
  destruct (f c) eqn:E; [exact IH|]. simpl. now rewrite E.
Qed.

(** ** The greedy star *)

(** With nothing behind it the star takes the longest run. *)
Lemma star_done cls s : star cls done s = Some (length (take_while cls s)).
Proof.
  induction s as [|c t IH]; simpl; [reflexivity|].
  destruct (cls c); [now rewrite IH | reflexivity].
Qed.

(** When what follows cannot start inside the run, giving characters back
    never helps: the star takes the longest run or the match fails. *)
Lemma star_longest cls k s :
  (forall c t, cls c = true -> k (c :: t) = None) ->
  star cls k s = shift (length (take_while cls s)) (k (drop_while cls s)).
Proof.
  intros Hk. induction s as [|c t IH]; simpl.
  - now destruct (k []).
  - destruct (cls c) eqn:E.
    + rewrite IH. destruct (k (drop_while cls t)) eqn:Ek; simpl.
      * reflexivity.
      * now apply Hk.
    + now destruct (k (c :: t)).
Qed.

Lemma literal_miss p k s : starts_with p s = false -> literal p k s = None.
Proof. intros H. unfold literal. now rewrite H. Qed.

Lemma literal_hit p k t :
  literal p k (p ++ t) = shift (length p) (k t).
Proof.
  unfold literal. rewrite starts_with_app.
  now rewrite skipn_app, skipn_all, Nat.sub_diag.
Qed.

(** ** Scanning with [re.sub] *)

Lemma sub_from_copy m repl prev c t :
  m prev (c :: t) = None ->
  sub_from m repl 0 prev (c :: t) = c :: sub_from m repl 0 (Some c) t.
Proof. intros H. cbn [sub_from]. now rewrite H. Qed.

Lemma prev_after_cons prev c x :
  prev_after prev (c :: x) = prev_after (Some c) x.
Proof.
  unfold prev_after. simpl.
  destruct (rev x) as [|d r] eqn:E; simpl; reflexivity.
Qed.

Lemma prev_after_app prev x c : prev_after prev (x ++ [c]) = Some c.
Proof. unfold prev_after. now rewrite rev_app_distr. Qed.

Lemma sub_from_skip m repl prev x t :
  x <> [] \/ m prev [] = None \/ t <> [] ->
  sub_from m repl (length x) prev (x ++ t)
  = sub_from m repl 0 (prev_after prev x) t.
Proof.
  revert prev. induction x as [|c x IH]; intros prev H; [reflexivity|].
  cbn [length app sub_from]. rewrite prev_after_cons.
  destruct x as [|d x].
  - reflexivity.
  - apply IH. left. discriminate.
Qed.

Lemma sub_from_hit m repl prev x t n :
  x <> [] -> length x = S n -> m prev (x ++ t) = Some (S n) ->
  sub_from m repl 0 prev (x ++ t)
  = repl ++ sub_from m repl 0 (prev_after prev x) t.
Proof.
  intros Hne Hlen Hm. destruct x as [|c x]; [congruence|].
  cbn [app sub_from]. change (c :: x ++ t) with ((c :: x) ++ t).
  rewrite Hm. f_equal.
  injection Hlen as <-. rewrite prev_after_cons.
  destruct x as [|d x]; [reflexivity|].
  apply sub_from_skip. left. discriminate.
Qed.

(** Characters in front of which the pattern does not match are copied. *)
Lemma sub_from_copy_run m repl x :
  forall prev t,
    (forall x1 x2, x = x1 ++ x2 -> x2 <> [] ->
       m (prev_after prev x1) (x2 ++ t) = None) ->
    sub_from m repl 0 prev (x ++ t)
    = x ++ sub_from m repl 0 (prev_after prev x) t.
Proof.
  induction x as [|c x IH]; intros prev t H; [reflexivity|].
  cbn [app]. rewrite sub_from_copy.
  - rewrite prev_after_cons. f_equal. apply IH.
    intros x1 x2 -> Hne.
    rewrite <- (prev_after_cons prev). apply (H (c :: x1) x2); [reflexivity|exact Hne].
  - apply (H [] (c :: x)); [reflexivity|discriminate].
Qed.

End ReFacts.

(* ===================================================================== *)
(** * Properties of the parser *)
(* ===================================================================== *)

Module ParserFacts.
Import Str StrFacts Re ReFacts Parser.

(** ** Case-insensitive markers *)

Lemma eq_ci_str_length a b : eq_ci_str a b = true -> length a = length b.
Proof.
  revert b; induction a as [|x a IH]; intros [|y b] H; simpl in *;
    try discriminate; [reflexivity|].
  apply andb_true_iff in H as [_ H]. now rewrite (IH _ H).
Qed.

Lemma starts_with_ci_app p m t :
  eq_ci_str p m = true -> starts_with_ci p (m ++ t) = true.
Proof.
  revert m; induction p as [|x p IH]; intros [|y m] H; simpl in *;
    try discriminate; [reflexivity|].
  apply andb_true_iff in H as [-> H]. now apply IH.
Qed.

Lemma starts_with_ci_true p s :
  starts_with_ci p s = true ->
  exists m t, s = m ++ t /\ eq_ci_str p m = true.
Proof.
  revert s; induction p as [|x p IH]; intros s H.
  - now exists [], s.
  - destruct s as [|y s]; simpl in H; [discriminate|].
    apply andb_true_iff in H as [Hxy H].
    destruct (IH _ H) as (m & t & -> & Hm).
    exists (y :: m), t. split; [reflexivity|]. simpl. now rewrite Hxy.
Qed.

Lemma starts_with_ci_long p s t :
  length p <= length s -> starts_with_ci p (s ++ t) = starts_with_ci p s.
Proof.
  revert s; induction p as [|a p IH]; intros s Hl; [reflexivity|].
  destruct s as [|b s]; simpl in *; [lia|].
  rewrite IH by lia. reflexivity.
Qed.

Lemma starts_with_ci_skipn p s :
  starts_with_ci p s = true ->
  s = firstn (length p) s ++ skipn (length p) s /\
  eq_ci_str p (firstn (length p) s) = true.
Proof.
  intros H. split; [now rewrite firstn_skipn|].
  destruct (starts_with_ci_true _ _ H) as (m & t & -> & Hm).
  rewrite (eq_ci_str_length _ _ Hm), firstn_app, firstn_all, Nat.sub_diag.
  simpl. now rewrite app_nil_r.
Qed.

Lemma contains_ci_unfold p s :
  contains_ci p s =
  starts_with_ci p s || match s with [] => false | _ :: t => contains_ci p t end.
Proof. destruct s; reflexivity. Qed.

(** Without an occurrence, no position starts one. *)
Lemma contains_ci_false p s :
  contains_ci p s = false ->
  forall x y, s = x ++ y -> starts_with_ci p y = false.
Proof.
  intros H x; revert s H. induction x as [|c x IH]; intros s H y ->.
  - rewrite contains_ci_unfold in H. now apply orb_false_iff in H as [H _].
  - cbn [app] in H. rewrite contains_ci_unfold in H.
    apply orb_false_iff in H as [_ H]. now apply (IH _ H).
Qed.

Lemma contains_ci_occurs p s : contains_ci p s = true <-> occurs_ci p s.
Proof.
  split.
  - induction s as [|c s IH]; rewrite contains_ci_unfold; intros H.
    + rewrite orb_false_r in H.
      destruct (starts_with_ci_true _ _ H) as (m & t & Hs & Hm).
      now exists [], m, t.
    + apply orb_true_iff in H as [H|H].
      * destruct (starts_with_ci_true _ _ H) as (m & t & Hs & Hm).
        now exists [], m, t.
      * destruct (IH H) as (pre & m & post & -> & Hm).
        now exists (c :: pre), m, post.
  - intros (pre & m & post & -> & Hm).
    induction pre as [|c pre IH].
    + rewrite contains_ci_unfold. cbn [app].
      now rewrite (starts_with_ci_app _ _ _ Hm).
    + cbn [app]. rewrite contains_ci_unfold, IH. apply orb_true_r.
Qed.

Local Arguments eq_ci : simpl never.

Ltac ci_hyps H :=
  cbn in H;
  repeat (let H1 := fresh "Hc" in
          apply andb_true_iff in H; destruct H as [H1 H];
          unfold eq_ci in H1; apply N.eqb_eq in H1;
          match type of H1 with
          | ?a = _ => let v := eval vm_compute in a in change a with v in H1
          end).

Ltac ci_goal :=
  cbn; unfold eq_ci;
  repeat match goal with
         | H : _ = ascii_lower ?c |- _ => rewrite <- H; clear H
         end;
  repeat match goal with
         | |- context [N.eqb (ascii_lower (N.pos ?p)) (N.pos ?q)] =>
             let v := eval vm_compute in
                        (N.eqb (ascii_lower (N.pos p)) (N.pos q)) in
             change (N.eqb (ascii_lower (N.pos p)) (N.pos q)) with v
         end;
  cbn [andb]; rewrite ?andb_false_r; reflexivity.

Lemma CODE_no_straddle : no_straddle CODE.
Proof.
  intros u m t Hne Hl Hm.
  pose proof (eq_ci_str_length _ _ Hm) as Hlen. cbn in Hl, Hlen.
  do 5 (destruct m as [|? m]; [discriminate|]).
  destruct m; [|discriminate]. clear Hlen.
  ci_hyps Hm.
  do 5 (destruct u as [|? u]; [try congruence; try ci_goal|]).
  simpl in Hl; lia.
Qed.

Lemma PROOF_no_straddle : no_straddle PROOF.
Proof.
  intros u m t Hne Hl Hm.
  pose proof (eq_ci_str_length _ _ Hm) as Hlen. cbn in Hl, Hlen.
  do 6 (destruct m as [|? m]; [discriminate|]).
  destruct m; [|discriminate]. clear Hlen.
  ci_hyps Hm.
  do 6 (destruct u as [|? u]; [try congruence; try ci_goal|]).
  simpl in Hl; lia.
Qed.

(** In front of the first occurrence of a marker no position matches it. *)
Lemma no_early_marker marker pre m t :
  no_straddle marker ->
  contains_ci marker pre = false ->
  eq_ci_str marker m = true ->
  forall x1 x2, pre = x1 ++ x2 -> x2 <> [] ->
    starts_with_ci marker (x2 ++ m ++ t) = false.
Proof.
  intros Hns Hpre Hm x1 x2 Hx Hne.
  destruct (Nat.lt_ge_cases (length x2) (length marker)) as [Hlt|Hge].
  - now apply Hns.
  - rewrite starts_with_ci_long by exact Hge.
    now apply (contains_ci_false _ _ Hpre x1 x2).
Qed.

(** ** [re.search] *)

Lemma search_unfold {A} (pat : str -> option A) s :
  search pat s =
  match pat s with
  | Some r => Some r
  | None => match s with [] => None | _ :: t => search pat t end
  end.
Proof. destruct s; reflexivity. Qed.

Lemma search_skip {A} (pat : str -> option A) pre t :
  (forall x1 x2, pre = x1 ++ x2 -> x2 <> [] -> pat (x2 ++ t) = None) ->
  search pat (pre ++ t) = search pat t.
Proof.
  induction pre as [|c pre IH]; intros H; [reflexivity|].
  rewrite search_unfold.
  rewrite (H [] (c :: pre)) by (reflexivity || discriminate).
  cbn [app]. apply IH. intros x1 x2 -> Hne.
  now apply (H (c :: x1) x2).
Qed.

Lemma search_none {A} (pat : str -> option A) s :
  (forall x y, s = x ++ y -> pat y = None) -> search pat s = None.
Proof.
  induction s as [|c s IH]; intros H; rewrite search_unfold.
  - now rewrite (H [] []).
  - rewrite (H [] (c :: s)) by reflexivity.
    apply IH. intros x y ->. now apply (H (c :: x) y).
Qed.

Lemma code_pattern_guard s :
  starts_with_ci CODE s = false -> code_pattern s = None.
Proof. intros H. unfold code_pattern. now rewrite H. Qed.

Lemma proof_pattern_guard s :
  starts_with_ci PROOF s = false -> proof_pattern s = None.
Proof. intros H. unfold proof_pattern. now rewrite H. Qed.

Lemma code_section_absent r :
  contains_ci CODE r = false -> code_section r = [].
Proof.
  intros H. unfold code_section. rewrite search_none; [reflexivity|].
  intros x y Hr. apply code_pattern_guard.
  now apply (contains_ci_false _ _ H x y).
Qed.

Lemma proof_section_absent r :
  contains_ci PROOF r = false -> proof_section r = [].
Proof.
  intros H. unfold proof_section. rewrite search_none; [reflexivity|].
  intros x y Hr. apply proof_pattern_guard.
  now apply (contains_ci_false _ _ H x y).
Qed.

(** ** The lazy capture *)

Lemma lazy_any_unfold k s :
  lazy_any k s =
  if k s then Some 0
  else match s with [] => None | _ :: t => option_map S (lazy_any k t) end.
Proof. destruct s; reflexivity. Qed.

Lemma lazy_any_stop k g t :
  (forall g1 g2, g = g1 ++ g2 -> g2 <> [] -> k (g2 ++ t) = false) ->
  k t = true ->
  lazy_any k (g ++ t) = Some (length g).
Proof.
  intros Hg Ht. induction g as [|c g IH].
  - cbn [app length]. rewrite lazy_any_unfold. now rewrite Ht.
  - rewrite lazy_any_unfold.
    rewrite (Hg [] (c :: g)) by (reflexivity || discriminate).
    cbn [app length]. rewrite IH; [reflexivity|].
    intros g1 g2 -> Hne. now apply (Hg (c :: g1) g2).
Qed.

Lemma at_end_long s : 2 <= length s -> at_end s = false.
Proof. destruct s as [|a [|b s]]; simpl; intros H; try lia; reflexivity. Qed.

(** The pattern of line 13 matches wherever its marker does: the end of the
    text ends the capture at the latest. *)
Lemma lazy_any_total s : exists n, lazy_any section_end s = Some n.
Proof.
  induction s as [|c t [n IH]].
  - now exists 0.
  - rewrite lazy_any_unfold. destruct (section_end (c :: t)).
    + now exists 0.
    + rewrite IH. now exists (S n).
Qed.

(** Without a PROOF: marker the capture runs to the end of the text, a
    final line feed excepted. *)
Lemma lazy_any_to_end g :
  contains_ci PROOF g = false ->
  exists n,
    lazy_any section_end g = Some n /\
    (firstn n g = g \/ g = firstn n g ++ [newline]).
Proof.
  induction g as [|c t IH]; intros H.
  - exists 0. split; [reflexivity | now left].
  - rewrite contains_ci_unfold in H. apply orb_false_iff in H as [Hs Ht].
    rewrite lazy_any_unfold. unfold section_end at 1. rewrite Hs.
    cbn [orb]. destruct t as [|d t].
    + cbn [at_end]. destruct (N.eqb_spec c newline) as [->|Hc].
      * exists 0. split; [reflexivity | now right].
      * exists 1. split; [reflexivity | now left].
    + cbn [at_end]. destruct (IH Ht) as (n & -> & Hn).
      exists (S n). split; [reflexivity|]. cbn [firstn].
      destruct Hn as [Hn|Hn]; [left | right]; cbn [app]; congruence.
Qed.

(** ** [strip] *)

Lemma drop_while_all f s : forallb f s = true -> drop_while f s = [].
Proof.
  induction s as [|c s IH]; simpl; [reflexivity|].
  intros H. apply andb_true_iff in H as [-> H]. now apply IH.
Qed.

Lemma drop_while_snoc f x c :
  f c = true ->
  drop_while f (x ++ [c]) =
  if forallb f x then [] else drop_while f x ++ [c].
Proof.
  intros Hc. induction x as [|d x IH]; simpl.
  - now rewrite Hc.
  - destruct (f d); simpl; [exact IH | reflexivity].
Qed.

Lemma rstrip_snoc y c : is_space c = true -> rstrip (y ++ [c]) = rstrip y.
Proof.
  intros Hc. unfold rstrip. rewrite rev_app_distr. simpl. now rewrite Hc.
Qed.

Lemma strip_snoc x c : is_space c = true -> strip (x ++ [c]) = strip x.
Proof.
  intros Hc. unfold strip, lstrip. rewrite drop_while_snoc by exact Hc.
  destruct (forallb is_space x) eqn:E.
  - now rewrite drop_while_all.
  - now apply rstrip_snoc.
Qed.

(** ** The two sections *)

Lemma code_capture pre m g t :
  contains_ci CODE pre = false ->
  eq_ci_str CODE m = true ->
  search code_pattern (pre ++ m ++ g ++ t)
  = option_map (fun n => firstn n (g ++ t)) (lazy_any section_end (g ++ t)).
Proof.
  intros Hpre Hm.
  rewrite search_skip.
  2:{ intros x1 x2 Hx Hne. apply code_pattern_guard.
      now apply (no_early_marker CODE pre m (g ++ t) CODE_no_straddle
                   Hpre Hm x1 x2). }
  rewrite search_unfold. unfold code_pattern at 1.
  rewrite (starts_with_ci_app _ _ _ Hm).
  rewrite (eq_ci_str_length _ _ Hm), skipn_app, skipn_all, Nat.sub_diag.
  cbn [skipn app].
  destruct (lazy_any_total (g ++ t)) as [n ->]. reflexivity.
Qed.

Lemma code_section_until_proof pre m g m2 post :
  contains_ci CODE pre = false ->
  eq_ci_str CODE m = true ->
  contains_ci PROOF g = false ->
  eq_ci_str PROOF m2 = true ->
  search code_pattern (pre ++ m ++ g ++ m2 ++ post) = Some g.
Proof.
  intros Hpre Hm Hg Hm2.
  rewrite code_capture by assumption.
  rewrite lazy_any_stop.
  - cbn [option_map]. now rewrite firstn_app, firstn_all, Nat.sub_diag,
      firstn_0, app_nil_r.
  - intros g1 g2 Hgg Hne. unfold section_end.
    rewrite (no_early_marker PROOF g m2 post PROOF_no_straddle Hg Hm2 g1 g2)
      by assumption.
    apply at_end_long. rewrite !length_app.
    pose proof (eq_ci_str_length _ _ Hm2) as Hl. cbn in Hl.
    destruct g2; [congruence|simpl; lia].
  - unfold section_end. now rewrite (starts_with_ci_app _ _ _ Hm2).
Qed.

Lemma code_section_to_end pre m g :
  contains_ci CODE pre = false ->
  eq_ci_str CODE m = true ->
  contains_ci PROOF g = false ->
  exists n,
    search code_pattern (pre ++ m ++ g) = Some (firstn n g) /\
    (firstn n g = g \/ g = firstn n g ++ [newline]).
Proof.
  intros Hpre Hm Hg.
  pose proof (code_capture pre m g [] Hpre Hm) as Hc.
  rewrite app_nil_r in Hc. rewrite Hc.
  destruct (lazy_any_to_end g Hg) as (n & -> & Hn).
  now exists n.
Qed.

Lemma proof_capture pre m2 rest :
  contains_ci PROOF pre = false ->
  eq_ci_str PROOF m2 = true ->
  search proof_pattern (pre ++ m2 ++ rest) = Some rest.
Proof.
  intros Hpre Hm.
  rewrite search_skip.
  2:{ intros x1 x2 Hx Hne. apply proof_pattern_guard.
      now apply (no_early_marker PROOF pre m2 rest PROOF_no_straddle
                   Hpre Hm x1 x2). }
  rewrite search_unfold. unfold proof_pattern.
  rewrite (starts_with_ci_app _ _ _ Hm).
  now rewrite (eq_ci_str_length _ _ Hm), skipn_app, skipn_all, Nat.sub_diag.
Qed.

(** The pattern of line 13 ends at [$], which also matches in front of a
    line feed that ends the text: that line feed stays out of the capture.
    [strip] removes it anyway. *)
Example code_capture_before_final_newline :
  search code_pattern (lit "CODE:x
") = Some (lit "x").
Proof. reflexivity. Qed.

(** C7: the extraction of the two sections (lines 13-17).  Both markers are
    matched without regard to case, each at its first occurrence, and each
    section is empty when its marker is absent.  The code section is the
    stripped text between the first CODE: marker and the next PROOF: marker
    or, without one, the end of the text; the proof section is the stripped
    text from the first PROOF: marker to the end of the text. *)
Theorem section_extraction :
  (forall r, contains_ci CODE r = false -> code_section r = []) /\
  (forall r, contains_ci PROOF r = false -> proof_section r = []) /\
  (forall pre m g m2 post,
     contains_ci CODE pre = false -> eq_ci_str CODE m = true ->
     contains_ci PROOF g = false -> eq_ci_str PROOF m2 = true ->
     code_section (pre ++ m ++ g ++ m2 ++ post) = strip g) /\
  (forall pre m g,
     contains_ci CODE pre = false -> eq_ci_str CODE m = true ->
     contains_ci PROOF g = false ->
     code_section (pre ++ m ++ g) = strip g) /\
  (forall pre m2 rest,
     contains_ci PROOF pre = false -> eq_ci_str PROOF m2 = true ->
     proof_section (pre ++ m2 ++ rest) = strip rest).
Proof.
  split; [exact code_section_absent|].
  split; [exact proof_section_absent|].
  split; [|split].
  - intros pre m g m2 post Hpre Hm Hg Hm2. unfold code_section.
    now rewrite code_section_until_proof.
  - intros pre m g Hpre Hm Hg. unfold code_section.
    destruct (code_section_to_end pre m g Hpre Hm Hg) as (n & -> & [Hn|Hn]).
    + now rewrite Hn.
    + rewrite Hn at 2. now rewrite strip_snoc.
  - intros pre m2 rest Hpre Hm. unfold proof_section.
    now rewrite proof_capture.
Qed.

(** Responses without a marker, with text in front of a lower-case code
    marker and two proof markers, with a code section that runs to the end,
    and with a lower-case proof marker. *)
Lemma section_extraction_witness :
  (contains_ci CODE (lit "no markers") = false /\
   code_section (lit "no markers") = []) /\
  (contains_ci PROOF (lit "CODE: x") = false /\
   proof_section (lit "CODE: x") = []) /\
  (contains_ci CODE (lit "Here: ") = false /\
   eq_ci_str CODE (lit "code:") = true /\
   contains_ci PROOF (lit " x+1 ") = false /\
   eq_ci_str PROOF (lit "Proof:") = true /\
   code_section (lit "Here: " ++ lit "code:" ++ lit " x+1 " ++ lit "Proof:"
                   ++ lit " rfl PROOF: y")
   = strip (lit " x+1 ")) /\
  (contains_ci CODE [] = false /\
   eq_ci_str CODE (lit "Code:") = true /\
   contains_ci PROOF (lit " x
") = false /\
   code_section ([] ++ lit "Code:" ++ lit " x
") = strip (lit " x
")) /\
  (contains_ci PROOF (lit "CODE: x ") = false /\
   eq_ci_str PROOF (lit "proof:") = true /\
   proof_section (lit "CODE: x " ++ lit "proof:" ++ lit " rfl")
   = strip (lit " rfl")).
Proof.
  destruct section_extraction as (H1 & H2 & H3 & H4 & H5).
  split; [|split; [|split; [|split]]].
  - split; [reflexivity|]. exact (H1 (lit "no markers") eq_refl).
  - split; [reflexivity|]. exact (H2 (lit "CODE: x") eq_refl).
  - do 4 (split; [reflexivity|]).
    exact (H3 (lit "Here: ") (lit "code:") (lit " x+1 ") (lit "Proof:")
             (lit " rfl PROOF: y") eq_refl eq_refl eq_refl eq_refl).
  - do 3 (split; [reflexivity|]).
    exact (H4 [] (lit "Code:") (lit " x
") eq_refl eq_refl eq_refl).
  - do 2 (split; [reflexivity|]).
    exact (H5 (lit "CODE: x ") (lit "proof:") (lit " rfl") eq_refl eq_refl).
Defined.

Section Parse.

Variable unicode_alnum : char -> bool.

Local Abbreviation parse_code_proof := (parse_code_proof unicode_alnum).
Local Abbreviation strip_def_header := (strip_def_header unicode_alnum).

Lemma or_sorry_nonempty s : or_sorry s <> [].
Proof. destruct s; discriminate. Qed.

Lemma parsed_pair_nonempty response :
  fst (parse_code_proof response) <> [] /\
  snd (parse_code_proof response) <> [].
Proof.
  unfold Parser.parse_code_proof. cbn [fst snd].
  split; apply or_sorry_nonempty.
Qed.

(** C6: a response without a CODE: marker and without a PROOF: marker, in
    any case of the letters, is parsed to the pair of sentinels; and for
    every response both fields of the result are non-empty texts. *)
Theorem parse_defaults_to_sorry :
  (forall response,
     contains_ci CODE response = false ->
     contains_ci PROOF response = false ->
     parse_code_proof response = (sorry, sorry)) /\
  (forall response,
     fst (parse_code_proof response) <> [] /\
     snd (parse_code_proof response) <> []).
Proof.
  split.
  - intros response Hc Hp. unfold Parser.parse_code_proof.
    rewrite code_section_absent, proof_section_absent by assumption.
    reflexivity.
  - exact parsed_pair_nonempty.
Qed.

End Parse.

(** A response without markers. *)
Lemma parse_defaults_to_sorry_witness :
  contains_ci CODE (lit "I cannot solve this.") = false /\
  contains_ci PROOF (lit "I cannot solve this.") = false /\
  parse_code_proof Samples.ascii_only (lit "I cannot solve this.")
  = (sorry, sorry).
Proof.
  repeat (split; [reflexivity|]).
  exact (proj1 (parse_defaults_to_sorry Samples.ascii_only)
           (lit "I cannot solve this.") eq_refl eq_refl).
Defined.

End ParserFacts.

(* ===================================================================== *)
(** * Properties of the bullet normalization (lines 30-31) *)
(* ===================================================================== *)

Module BulletFacts.
Import Str StrFacts Re ReFacts Parser ParserFacts.

(** One pass of [re.sub] with a bullet pattern. *)
Local Abbreviation pass glyph prev s :=
  (sub_from (bullet_line glyph) canonical_bullet 0 prev s).

Section Pass.

Variable glyph : char -> bool.
Hypothesis glyph_not_space : forall c, glyph c = true -> is_space c = false.

(** The engine's answer at a position, without backtracking left. *)
Lemma bullet_line_spec prev s :
  bullet_line glyph prev s =
  if at_line_start prev then
    match drop_while is_space s with
    | g :: t =>
        if glyph g
        then Some (length (take_while is_space s)
                   + (1 + length (take_while is_space t)))
        else None
    | [] => None
    end
  else None.
Proof.
  unfold bullet_line. destruct (at_line_start prev); [|reflexivity].
  rewrite star_longest.
  - destruct (drop_while is_space s) as [|g t]; [reflexivity|].
    cbn [one]. destruct (glyph g); [|reflexivity].
    rewrite star_done. reflexivity.
  - intros c t Hc. cbn [one].
    destruct (glyph c) eqn:E; [|reflexivity].
    apply glyph_not_space in E. congruence.
Qed.

Lemma bullet_line_inside prev s :
  at_line_start prev = false -> bullet_line glyph prev s = None.
Proof. intros H. unfold bullet_line. now rewrite H. Qed.

Lemma prev_after_app2 prev x y :
  prev_after (prev_after prev x) y = prev_after prev (x ++ y).
Proof.
  revert prev. induction x as [|c x IH]; intros prev; [reflexivity|].
  cbn [app]. now rewrite !prev_after_cons.
Qed.

Lemma prev_after_in prev x :
  x <> [] -> exists c, prev_after prev x = Some c /\ In c x.
Proof.
  intros Hne. destruct (exists_last Hne) as (y & c & ->).
  exists c. rewrite prev_after_app. split; [reflexivity|].
  apply in_or_app. right. now left.
Qed.

(** Inside a line no position is a line start. *)
Lemma inside_line prev l x1 x2 :
  forallb is_dot l = true -> l = x1 ++ x2 -> x1 <> [] ->
  at_line_start (prev_after prev x1) = false.
Proof.
  intros Hl -> Hne.
  destruct (prev_after_in prev x1 Hne) as (c & -> & Hin).
  rewrite forallb_forall in Hl.
  assert (Hc : is_dot c = true) by (apply Hl, in_or_app; now left).
  unfold is_dot in Hc. cbn [at_line_start].
  now apply negb_true_iff in Hc.
Qed.

Lemma pass_copy_inside prev l x y t :
  forallb is_dot l = true -> l = x ++ y -> x <> [] ->
  pass glyph (prev_after prev x) (y ++ t)
  = y ++ pass glyph (prev_after prev l) t.
Proof.
  intros Hl Hxy Hne.
  rewrite sub_from_copy_run.
  - now rewrite prev_after_app2, <- Hxy.
  - intros y1 y2 Hy Hy2. apply bullet_line_inside.
    rewrite prev_after_app2.
    apply (inside_line prev l (x ++ y1) y2 Hl).
    + now rewrite Hxy, Hy, app_assoc.
    + destruct x; [congruence|discriminate].
Qed.

(** One line, followed by the end of the text or by a line feed. *)
Lemma pass_line prev l t :
  at_line_start prev = true ->
  plain_line glyph l = true ->
  (t = [] \/ exists t', t = newline :: t') ->
  pass glyph prev (l ++ t)
  = rewrite_line glyph l ++ pass glyph (prev_after prev l) t.
Proof.
  intros Hprev Hplain Ht.
  unfold plain_line in Hplain. apply andb_true_iff in Hplain as [Hdot Hl].
  unfold rewrite_line.
  pose proof (take_drop_while is_space l) as Hsplit.
  pose proof (take_while_all is_space l) as Hws.
  destruct (drop_while is_space l) as [|d r] eqn:Hd; [discriminate|].
  pose proof (drop_while_head _ _ _ _ Hd) as Hdns.
  set (ws := take_while is_space l) in *.
  destruct (glyph d) eqn:Hg.
  - (* a bullet line *)
    pose proof (take_drop_while is_space r) as Hsplit2.
    pose proof (take_while_all is_space r) as Hws2.
    destruct (drop_while is_space r) as [|e r'] eqn:He; [discriminate|].
    pose proof (drop_while_head _ _ _ _ He) as Hens.
    set (ws2 := take_while is_space r) in *.
    assert (Hl2 : l = (ws ++ d :: ws2) ++ e :: r').
    { rewrite <- Hsplit, <- Hsplit2, <- app_assoc. reflexivity. }
    rewrite Hl2 at 1. rewrite <- app_assoc.
    rewrite (sub_from_hit _ _ prev (ws ++ d :: ws2) ((e :: r') ++ t)
               (length ws + length ws2)).
    + rewrite <- (app_assoc canonical_bullet). f_equal.
      apply (pass_copy_inside prev l (ws ++ d :: ws2) (e :: r') t Hdot Hl2).
      destruct ws; discriminate.
    + destruct ws; discriminate.
    + rewrite length_app. cbn [length]. lia.
    + rewrite bullet_line_spec, Hprev.
      rewrite <- app_assoc. cbn [app].
      rewrite drop_while_app, drop_while_stop by assumption.
      rewrite Hg.
      rewrite take_while_app by exact Hws.
      rewrite take_while_stop by exact Hdns.
      rewrite app_nil_r. cbn [app].
      rewrite take_while_app by exact Hws2.
      rewrite take_while_stop by exact Hens.
      rewrite app_nil_r. f_equal. lia.
  - (* any other line *)
    rewrite sub_from_copy_run; [reflexivity|].
    intros x1 x2 Hx Hne.
    destruct x1 as [|c x1].
    + cbn [app] in Hx. subst x2. cbn [prev_after rev].
      rewrite bullet_line_spec, Hprev.
      rewrite <- Hsplit, <- app_assoc.
      rewrite drop_while_app by exact Hws. cbn [app].
      rewrite drop_while_stop by exact Hdns. now rewrite Hg.
    + apply bullet_line_inside.
      apply (inside_line prev l (c :: x1) x2 Hdot Hx). discriminate.
Qed.

Lemma plain_line_nonempty l : plain_line glyph l = true -> l <> [].
Proof. intros H ->. discriminate. Qed.

Lemma plain_line_end prev l :
  plain_line glyph l = true -> at_line_start (prev_after prev l) = false.
Proof.
  intros H.
  apply (inside_line prev l l []).
  - unfold plain_line in H. now apply andb_true_iff in H as [H _].
  - now rewrite app_nil_r.
  - now apply plain_line_nonempty.
Qed.

(** The pass works line by line on a text made of plain lines. *)
Lemma pass_lines ls :
  forall prev,
    at_line_start prev = true ->
    forallb (plain_line glyph) ls = true ->
    pass glyph prev (join [newline] ls)
    = join [newline] (map (rewrite_line glyph) ls).
Proof.
  induction ls as [|l ls IH]; intros prev Hprev Hall.
  - cbn. rewrite bullet_line_spec, Hprev. reflexivity.
  - cbn [forallb] in Hall. apply andb_true_iff in Hall as [Hl Hall].
    destruct ls as [|l' ls].
    + cbn [join map].
      rewrite <- (app_nil_r l) at 1.
      rewrite pass_line by (assumption || now left).
      cbn [sub_from]. rewrite bullet_line_inside by now apply plain_line_end.
      now rewrite app_nil_r.
    + rewrite join_cons. cbn [map]. rewrite join_cons.
      rewrite pass_line; [|assumption|assumption|right; now eexists].
      f_equal. cbn [app].
      rewrite sub_from_copy by
        (apply bullet_line_inside; now apply plain_line_end).
      f_equal. apply (IH (Some newline)); [reflexivity|exact Hall].
Qed.

End Pass.

Lemma is_bullet_not_space c : is_bullet c = true -> is_space c = false.
Proof.
  unfold is_bullet. intros H.
  apply orb_true_iff in H as [H|H]; apply N.eqb_eq in H; now subst.
Qed.

Lemma is_period_not_space c : is_period c = true -> is_space c = false.
Proof. unfold is_period. intros H. apply N.eqb_eq in H. now subst. Qed.

Lemma forallb_drop_while f g l :
  forallb f l = true -> forallb f (drop_while g l) = true.
Proof.
  induction l as [|c l IH]; simpl; [reflexivity|].
  intros H. destruct (g c); [|exact H].
  apply andb_true_iff in H as [_ H]. now apply IH.
Qed.

Lemma plain_for_bullets l :
  plain_line is_glyph l = true -> plain_line is_bullet l = true.
Proof.
  unfold plain_line, is_glyph. intros H.
  apply andb_true_iff in H as [-> H]. cbn [andb].
  destruct (drop_while is_space l) as [|g t]; [discriminate|].
  destruct (is_bullet g); [exact H | reflexivity].
Qed.

Lemma plain_after_bullets l :
  plain_line is_glyph l = true ->
  plain_line is_period (rewrite_line is_bullet l) = true.
Proof.
  unfold plain_line, is_glyph, rewrite_line. intros H.
  apply andb_true_iff in H as [Hdot H].
  destruct (drop_while is_space l) as [|g t] eqn:Hd; [discriminate|].
  destruct (is_bullet g) eqn:Hb.
  - cbn [orb] in H.
    destruct (drop_while is_space t) as [|e t'] eqn:He; [discriminate|].
    assert (Hsub : forallb is_dot (e :: t') = true).
    { rewrite <- He. apply forallb_drop_while.
      assert (Hgt : forallb is_dot (g :: t) = true)
        by (rewrite <- Hd; now apply forallb_drop_while).
      cbn [forallb] in Hgt. now apply andb_true_iff in Hgt as [_ Hgt]. }
    rewrite forallb_app, Hsub.
    change (drop_while is_space (canonical_bullet ++ e :: t'))
      with (canonical_bullet ++ e :: t').
    reflexivity.
  - cbn [orb] in H. rewrite Hdot, Hd. exact H.
Qed.

Lemma rewrite_line_twice l :
  rewrite_line is_period (rewrite_line is_bullet l) = rewrite_line is_glyph l.
Proof.
  unfold rewrite_line, is_glyph.
  destruct (drop_while is_space l) as [|g t] eqn:Hd.
  - now rewrite Hd.
  - destruct (is_bullet g) eqn:Hb; cbn [orb].
    + reflexivity.
    + now rewrite Hd.
Qed.

(** C3, as stated, fails: the second line of this text begins with spaces,
    not with a glyph, and is rewritten all the same. *)
Lemma bullets_rewrite_indented_line :
  ~ other_lines_untouched (lit "a
  . b").
Proof.
  intros H. specialize (H 1 (lit "  . b") eq_refl eq_refl).
  vm_compute in H. discriminate.
Qed.

(** The match of a bullet pattern runs across line ends: a glyph alone on
    its line takes the next line along. *)
Example bullet_alone_joins_lines :
  normalize_bullets ([middle_dot] ++ lit "
  simp") = canonical_bullet ++ lit "simp".
Proof. reflexivity. Qed.

(** C3, amended: on a proof text whose lines are plain (no line is blank,
    and no line is a glyph with nothing but whitespace behind it) the
    bullets are normalized line by line.  A line whose first character
    behind its indentation is '.', the middle dot or the round bullet comes
    to begin with the canonical bullet and exactly one space, in place of
    the indentation, the glyph and the whitespace behind the glyph; every
    other line is left untouched. *)
Theorem bullets_line_by_line :
  forall ls,
    forallb (plain_line is_glyph) ls = true ->
    normalize_bullets (join [newline] ls)
    = join [newline] (map (rewrite_line is_glyph) ls) /\
    (forall l ws g t,
       In l ls -> l = ws ++ g :: t ->
       forallb is_space ws = true -> is_glyph g = true ->
       exists e t',
         drop_while is_space t = e :: t' /\ is_space e = false /\
         rewrite_line is_glyph l = canonical_bullet ++ e :: t') /\
    (forall l ws c t,
       In l ls -> l = ws ++ c :: t ->
       forallb is_space ws = true -> is_space c = false ->
       is_glyph c = false ->
       rewrite_line is_glyph l = l).
Proof.
  intros ls Hall. split; [|split].
  - unfold normalize_bullets, re_sub.
    rewrite (pass_lines is_bullet is_bullet_not_space ls None eq_refl).
    + rewrite (pass_lines is_period is_period_not_space _ None eq_refl).
      * rewrite map_map. f_equal. apply map_ext.
        intros l. apply rewrite_line_twice.
      * rewrite forallb_forall in *. intros l' Hin.
        apply in_map_iff in Hin as (l & <- & Hin).
        apply plain_after_bullets. now apply Hall.
    + rewrite forallb_forall in *. intros l Hin.
      apply plain_for_bullets. now apply Hall.
  - intros l ws g t Hin -> Hws Hg.
    rewrite forallb_forall in Hall. specialize (Hall _ Hin).
    unfold plain_line in Hall. apply andb_true_iff in Hall as [_ Hall].
    assert (Hgs : is_space g = false).
    { unfold is_glyph in Hg. apply orb_true_iff in Hg as [Hg|Hg];
        [now apply is_bullet_not_space | now apply is_period_not_space]. }
    unfold rewrite_line.
    rewrite drop_while_app, drop_while_stop in * by assumption.
    rewrite Hg in *.
    destruct (drop_while is_space t) as [|e t'] eqn:He; [discriminate|].
    exists e, t'. repeat split.
    now apply (drop_while_head _ _ _ _ He).
  - intros l ws c t Hin -> Hws Hc Hg. unfold rewrite_line.
    rewrite drop_while_app, drop_while_stop by assumption.
    now rewrite Hg.
Qed.

(** A proof of three lines: one without a bullet, one with an indented
    period, one with a round bullet. *)
Lemma bullets_line_by_line_witness :
  forallb (plain_line is_glyph) Samples.three_lines = true /\
  normalize_bullets (join [newline] Samples.three_lines)
  = join [newline]
      [lit "intro h"; canonical_bullet ++ lit "simp";
       canonical_bullet ++ lit "rfl"] /\
  (In (lit "  . simp") Samples.three_lines /\
   forallb is_space (lit "  ") = true /\ is_glyph period = true /\
   exists e t',
     drop_while is_space (lit " simp") = e :: t' /\ is_space e = false /\
     rewrite_line is_glyph (lit "  . simp") = canonical_bullet ++ e :: t') /\
  (In (lit "intro h") Samples.three_lines /\
   rewrite_line is_glyph (lit "intro h") = lit "intro h").
Proof.
  destruct (bullets_line_by_line Samples.three_lines eq_refl)
    as (H1 & H2 & H3).
  assert (Hin1 : In (lit "  . simp") Samples.three_lines)
    by (right; left; reflexivity).
  assert (Hin2 : In (lit "intro h") Samples.three_lines)
    by (left; reflexivity).
  split; [reflexivity|]. split; [exact H1|]. split.
  - split; [exact Hin1|]. split; [reflexivity|]. split; [reflexivity|].
    exact (H2 (lit "  . simp") (lit "  ") period (lit " simp")
             Hin1 eq_refl eq_refl eq_refl).
  - split; [exact Hin2|].
    exact (H3 (lit "intro h") [] 105%N (lit "ntro h")
             Hin2 eq_refl eq_refl eq_refl eq_refl).
Defined.

(** ** A second normalization *)

Section Chunk.

Variable glyph : char -> bool.
Hypothesis glyph_not_space : forall c, glyph c = true -> is_space c = false.

Lemma pass_nil prev : pass glyph prev [] = [].
Proof.
  cbn [sub_from]. rewrite (bullet_line_spec glyph glyph_not_space).
  now destruct (at_line_start prev).
Qed.

Lemma prev_after_snoc prev x c : prev_after prev (x ++ [c]) = Some c.
Proof. apply prev_after_app. Qed.

(** A run without a line feed is copied when the scan does not enter it at
    a line start. *)
Lemma pass_copy_no_start prev x t :
  at_line_start prev = false ->
  forallb is_dot x = true ->
  pass glyph prev (x ++ t) = x ++ pass glyph (prev_after prev x) t /\
  at_line_start (prev_after prev x) = false.
Proof.
  intros Hprev Hx.
  assert (Hin : forall x1 x2, x = x1 ++ x2 ->
                  at_line_start (prev_after prev x1) = false).
  { intros x1 x2 ->. destruct x1 as [|c x1]; [exact Hprev|].
    apply (inside_line prev ((c :: x1) ++ x2) (c :: x1) x2 Hx eq_refl).
    discriminate. }
  split.
  - apply sub_from_copy_run. intros x1 x2 Hxx _.
    apply bullet_line_inside. now apply (Hin x1 x2).
  - apply (Hin x []). now rewrite app_nil_r.
Qed.

(** Nothing matches in front of a character that is no glyph. *)
Lemma pass_no_glyph prev ws d r :
  forallb is_space ws = true -> is_space d = false -> glyph d = false ->
  pass glyph prev (ws ++ d :: r) = ws ++ d :: pass glyph (Some d) r.
Proof.
  intros Hws Hd Hg.
  replace (ws ++ d :: r) with ((ws ++ [d]) ++ r) by now rewrite <- app_assoc.
  rewrite sub_from_copy_run.
  - rewrite prev_after_snoc, <- app_assoc. reflexivity.
  - intros x1 x2 Hx Hne.
    rewrite (bullet_line_spec glyph glyph_not_space).
    destruct (at_line_start _); [|reflexivity].
    assert (Hx2 : exists w, x2 = w ++ [d] /\ forallb is_space w = true).
    { destruct (exists_last Hne) as (w & e & ->).
      rewrite app_assoc in Hx. apply app_inj_tail in Hx as [Hw ->].
      exists w. split; [reflexivity|].
      rewrite Hw, forallb_app in Hws. now apply andb_true_iff in Hws as [_ ?]. }
    destruct Hx2 as (w & -> & Hw).
    rewrite <- app_assoc. cbn [app].
    rewrite drop_while_app, drop_while_stop by assumption.
    now rewrite Hg.
Qed.

Lemma pass_all_space prev ws :
  forallb is_space ws = true -> pass glyph prev ws = ws.
Proof.
  intros Hws. rewrite <- (app_nil_r ws) at 1.
  rewrite sub_from_copy_run.
  - now rewrite pass_nil, app_nil_r.
  - intros x1 x2 Hx Hne. rewrite app_nil_r.
    rewrite (bullet_line_spec glyph glyph_not_space).
    destruct (at_line_start _); [|reflexivity].
    rewrite drop_while_all; [reflexivity|].
    rewrite Hx, forallb_app in Hws. now apply andb_true_iff in Hws as [_ ?].
Qed.

(** At a line start, whitespace, a glyph and the whitespace behind it are
    exchanged for the canonical bullet. *)
Lemma pass_hit prev ws g r :
  at_line_start prev = true ->
  forallb is_space ws = true -> glyph g = true ->
  pass glyph prev (ws ++ g :: r)
  = canonical_bullet
      ++ pass glyph (prev_after (Some g) (take_while is_space r))
           (drop_while is_space r).
Proof.
  intros Hprev Hws Hg.
  pose proof (glyph_not_space g Hg) as Hgs.
  pose proof (take_drop_while is_space r) as Hr.
  set (ws2 := take_while is_space r) in *.
  set (r2 := drop_while is_space r) in *.
  replace (ws ++ g :: r) with ((ws ++ g :: ws2) ++ r2)
    by (rewrite <- app_assoc; cbn [app]; now rewrite Hr).
  rewrite (sub_from_hit _ _ prev (ws ++ g :: ws2) r2
             (length ws + length ws2)).
  - f_equal. f_equal. rewrite <- prev_after_app2.
    change (g :: ws2) with ([g] ++ ws2). rewrite <- prev_after_app2.
    f_equal.
  - destruct ws; discriminate.
  - rewrite length_app. cbn [length]. lia.
  - rewrite (bullet_line_spec glyph glyph_not_space), Hprev.
    rewrite <- app_assoc. cbn [app]. rewrite Hr.
    rewrite drop_while_app, drop_while_stop by assumption. rewrite Hg.
    rewrite take_while_app, take_while_stop by assumption.
    rewrite app_nil_r. f_equal. fold ws2. lia.
Qed.

Lemma space_is_dot_or_newline c : is_dot c = false -> c = newline.
Proof. unfold is_dot. intros H. apply negb_false_iff in H. now apply N.eqb_eq. Qed.

(** The pass on a text that begins with whitespace and a character. *)
Lemma pass_chunk prev ws d r :
  forallb is_space ws = true -> is_space d = false ->
  pass glyph prev (ws ++ d :: r) =
  match (if glyph d then approach prev ws else None) with
  | Some (a, _) =>
      a ++ canonical_bullet
        ++ pass glyph (prev_after (Some d) (take_while is_space r))
             (drop_while is_space r)
  | None => ws ++ d :: pass glyph (Some d) r
  end.
Proof.
  intros Hws Hd.
  destruct (glyph d) eqn:Hg; [|now apply pass_no_glyph].
  unfold approach. destruct (at_line_start prev) eqn:Hprev.
  - cbn [app]. now apply pass_hit.
  - pose proof (take_drop_while is_dot ws) as Hsplit.
    pose proof (take_while_all is_dot ws) as Hdots.
    destruct (drop_while is_dot ws) as [|c b] eqn:Hdrop.
    + rewrite app_nil_r in Hsplit. rewrite Hsplit in Hdots.
      replace (ws ++ d :: r) with ((ws ++ [d]) ++ r)
        by now rewrite <- app_assoc.
      destruct (pass_copy_no_start prev (ws ++ [d]) r Hprev) as [-> _].
      * rewrite forallb_app, Hdots. cbn. unfold is_dot.
        destruct (N.eqb_spec d newline) as [->|]; [discriminate|reflexivity].
      * now rewrite prev_after_snoc, <- app_assoc.
    + pose proof (drop_while_head _ _ _ _ Hdrop) as Hc.
      apply space_is_dot_or_newline in Hc. subst c.
      rewrite <- Hsplit at 1. rewrite <- app_assoc. cbn [app].
      replace (take_while is_dot ws ++ newline :: b ++ d :: r)
        with (take_while is_dot ws ++ [newline] ++ (b ++ d :: r))
        by reflexivity.
      destruct (pass_copy_no_start prev (take_while is_dot ws)
                  ([newline] ++ b ++ d :: r) Hprev Hdots) as [-> Hns].
      cbn [app]. rewrite sub_from_copy by now apply bullet_line_inside.
      rewrite pass_hit; [|reflexivity| |exact Hg].
      * now rewrite <- app_assoc.
      * rewrite <- Hsplit, forallb_app in Hws.
        apply andb_true_iff in Hws as [_ Hws]. cbn [forallb] in Hws.
        now apply andb_true_iff in Hws as [_ ?].
Qed.


Lemma approach_parts prev ws a b : approach prev ws = Some (a, b) -> ws = a ++ b.
Proof.
  unfold approach. destruct (at_line_start prev).
  - intros H. now injection H as <- <-.
  - pose proof (take_drop_while is_dot ws) as Hs.
    destruct (drop_while is_dot ws) as [|c r]; [discriminate|].
    intros H. injection H as <- <-. now rewrite <- app_assoc.
Qed.

Lemma approach_none_transfer prev_in prev_out ws :
  approach prev_in ws = None ->
  (at_line_start prev_out = true -> at_line_start prev_in = true) ->
  approach prev_out ws = None.
Proof.
  unfold approach. intros H Hrel.
  destruct (at_line_start prev_in) eqn:Hin; [discriminate|].
  destruct (at_line_start prev_out); [now discriminate Hrel|exact H].
Qed.

Lemma approach_transfer prev_in prev_out ws a b :
  approach prev_in ws = Some (a, b) ->
  (at_line_start prev_out = true -> at_line_start prev_in = true) ->
  approach prev_out a = None \/ approach prev_out a = Some (a, []).
Proof.
  unfold approach. intros H Hrel.
  destruct (at_line_start prev_in) eqn:Hin.
  - injection H as <- <-. destruct (at_line_start prev_out); [now right|now left].
  - destruct (at_line_start prev_out); [now discriminate Hrel|].
    pose proof (take_while_all is_dot ws) as Hdots.
    destruct (drop_while is_dot ws) as [|c r] eqn:Hd; [discriminate|].
    pose proof (drop_while_head _ _ _ _ Hd) as Hc.
    injection H as <- <-. right.
    rewrite drop_while_app, take_while_app by exact Hdots.
    rewrite drop_while_stop, take_while_stop by exact Hc.
    now rewrite app_nil_r.
Qed.

Lemma take_while_unindented f (s : str) :
  drop_while f s = s -> take_while f s = [].
Proof.
  destruct s as [|c t]; [reflexivity|]. simpl.
  destruct (f c); [|reflexivity]. intros H.
  pose proof (drop_while_length f t) as Hl. rewrite H in Hl. simpl in Hl. lia.
Qed.

Lemma unindented_head f (c : char) t : drop_while f (c :: t) = c :: t -> f c = false.
Proof.
  simpl. destruct (f c); [|reflexivity]. intros H.
  pose proof (drop_while_length f t) as Hl. rewrite H in Hl. simpl in Hl. lia.
Qed.

(** The result of a pass on a text without indentation has none. *)
Lemma pass_head prev s :
  drop_while is_space s = s ->
  drop_while is_space (pass glyph prev s) = pass glyph prev s.
Proof.
  intros Hs. destruct s as [|d r]; [now rewrite pass_nil|].
  pose proof (unindented_head _ _ _ Hs) as Hd.
  pose proof (pass_chunk prev [] d r eq_refl Hd) as Hc.
  cbn [app] in Hc. rewrite Hc.
  destruct (glyph d); [|now apply drop_while_stop].
  unfold approach. destruct (at_line_start prev).
  - reflexivity.
  - cbn [drop_while]. now apply drop_while_stop.
Qed.

(** A canonical bullet that a pass meets stays as it is. *)
Lemma pass_canonical prev a Y :
  forallb is_space a = true ->
  approach prev a = None \/ approach prev a = Some (a, []) ->
  drop_while is_space Y = Y ->
  pass glyph prev (a ++ canonical_bullet ++ Y)
  = a ++ canonical_bullet ++ pass glyph (Some 32%N) Y.
Proof.
  intros Ha Happ HY.
  change (canonical_bullet ++ Y) with (middle_dot :: 32%N :: Y).
  rewrite (pass_chunk prev a middle_dot (32%N :: Y) Ha eq_refl).
  assert (Hcopy : a ++ middle_dot :: pass glyph (Some middle_dot) (32%N :: Y)
                  = a ++ canonical_bullet ++ pass glyph (Some 32%N) Y).
  { rewrite sub_from_copy by now apply bullet_line_inside. reflexivity. }
  destruct (glyph middle_dot); [|exact Hcopy].
  destruct Happ as [-> | ->]; [exact Hcopy|].
  cbn [take_while drop_while]. change (is_space 32%N) with true. cbv iota.
  rewrite HY, (take_while_unindented _ _ HY). reflexivity.
Qed.

Lemma split_indentation (z : str) :
  exists ws,
    forallb is_space ws = true /\
    (z = ws \/ exists d r, z = ws ++ d :: r /\ is_space d = false).
Proof.
  exists (take_while is_space z). split; [apply take_while_all|].
  pose proof (take_drop_while is_space z) as Hz.
  destruct (drop_while is_space z) as [|d r] eqn:HT.
  - left. now rewrite app_nil_r in Hz.
  - right. exists d, r. split; [now symmetry|].
    now apply (drop_while_head _ _ _ _ HT).
Qed.

(** A second pass with the same pattern changes nothing. *)
Lemma pass_twice n :
  forall z, length z <= n ->
  forall prev_in prev_out,
    (at_line_start prev_out = true -> at_line_start prev_in = true) ->
    pass glyph prev_out (pass glyph prev_in z) = pass glyph prev_in z.
Proof.
  induction n as [|n IH]; intros z Hn prev_in prev_out Hrel.
  - destruct z; [|simpl in Hn; lia]. now rewrite !pass_nil.
  - destruct (split_indentation z) as (ws & Hws & [-> | (d & r & -> & Hd)]).
    + rewrite (pass_all_space prev_in ws Hws).
      now apply pass_all_space.
    + assert (Hlen : length r <= n).
      { rewrite length_app in Hn. simpl in Hn. lia. }
      rewrite (pass_chunk prev_in ws d r Hws Hd).
      destruct (glyph d) eqn:Hg.
      * destruct (approach prev_in ws) as [[a b]|] eqn:Happ.
        -- pose proof (approach_parts _ _ _ _ Happ) as Hab.
           assert (Ha : forallb is_space a = true).
           { rewrite Hab, forallb_app in Hws.
             now apply andb_true_iff in Hws as [? _]. }
           rewrite pass_canonical.
           ++ rewrite IH; [reflexivity| |discriminate].
              etransitivity; [apply drop_while_length|exact Hlen].
           ++ exact Ha.
           ++ exact (approach_transfer _ _ _ _ _ Happ Hrel).
           ++ apply pass_head, drop_while_idem.
        -- rewrite (pass_chunk prev_out ws d _ Hws Hd), Hg.
           rewrite (approach_none_transfer _ _ _ Happ Hrel).
           now rewrite IH.
      * rewrite (pass_chunk prev_out ws d _ Hws Hd), Hg.
        now rewrite IH.
Qed.

(** A text that a pass leaves as it is, read off at its first character:
    either the pass goes by the character, or the character opens a
    canonical bullet. *)
Lemma fixed_inv prev ws d r :
  forallb is_space ws = true -> is_space d = false ->
  pass glyph prev (ws ++ d :: r) = ws ++ d :: r ->
  (pass glyph (Some d) r = r /\
   (glyph d = false \/ approach prev ws = None)) \/
  (d = middle_dot /\
   approach prev ws = Some (ws, []) /\
   exists X, r = 32%N :: X /\ drop_while is_space X = X /\
             pass glyph (Some 32%N) X = X).
Proof.
  intros Hws Hd Hfix. rewrite (pass_chunk prev ws d r Hws Hd) in Hfix.
  destruct (glyph d) eqn:Hg.
  2:{ left. apply app_inv_head in Hfix. injection Hfix as Hfix. now split; [|left]. }
  destruct (approach prev ws) as [[a b]|] eqn:Happ.
  2:{ left. apply app_inv_head in Hfix. injection Hfix as Hfix. now split; [|right]. }
  right.
  pose proof (approach_parts _ _ _ _ Happ) as Hab.
  remember (pass glyph (prev_after (Some d) (take_while is_space r))
              (drop_while is_space r)) as X eqn:HX.
  assert (HXu : drop_while is_space X = X).
  { rewrite HX. apply pass_head, drop_while_idem. }
  rewrite Hab, <- app_assoc in Hfix. apply app_inv_head in Hfix.
  destruct b as [|w b].
  - cbn [app] in Hfix. injection Hfix as Hd' Hr.
    rewrite app_nil_r in Hab. subst a.
    split; [now symmetry|]. split; [reflexivity|].
    exists X. split; [now symmetry|]. split; [exact HXu|].
    rewrite <- Hr in HX. cbn [take_while drop_while] in HX.
    change (is_space 32%N) with true in HX. cbv iota in HX.
    rewrite HXu, (take_while_unindented _ _ HXu) in HX.
    now symmetry.
  - exfalso. cbn [app] in Hfix. injection Hfix as Hw _.
    rewrite Hab, forallb_app in Hws. apply andb_true_iff in Hws as [_ Hws].
    cbn [forallb] in Hws. apply andb_true_iff in Hws as [Hws _].
    now rewrite <- Hw in Hws.
Qed.

(** What a pass leaves as it is, it also leaves as it is behind the
    indentation, away from a line start. *)
Lemma fixed_suffix prev ws T :
  forallb is_space ws = true -> drop_while is_space T = T ->
  pass glyph prev (ws ++ T) = ws ++ T ->
  pass glyph (Some 32%N) T = T.
Proof.
  intros Hws HT Hfix. destruct T as [|e r]; [now rewrite pass_nil|].
  pose proof (unindented_head _ _ _ HT) as He.
  destruct (fixed_inv prev ws e r Hws He Hfix)
    as [[Hr _] | (-> & _ & X & -> & HXu & HX)].
  - pose proof (pass_chunk (Some 32%N) [] e r eq_refl He) as Hc.
    cbn [app] in Hc. rewrite Hc.
    unfold approach. cbn. rewrite Hr. now destruct (glyph e).
  - change (middle_dot :: 32%N :: X) with ([] ++ canonical_bullet ++ X).
    rewrite pass_canonical; [now rewrite HX|reflexivity|now left|exact HXu].
Qed.

End Chunk.

(** A text that the first bullet pattern leaves as it is and that then
    goes through the second pattern is again left as it is by the first. *)
Lemma bullets_after_periods n :
  forall w, length w <= n ->
  forall prev_b prev_p prev_y,
    pass is_bullet prev_b w = w ->
    (at_line_start prev_y = true -> at_line_start prev_b = true) ->
    (at_line_start prev_y = true -> at_line_start prev_p = true) ->
    pass is_bullet prev_y (pass is_period prev_p w) = pass is_period prev_p w.
Proof.
  induction n as [|n IH]; intros w Hn prev_b prev_p prev_y Hfix Hrb Hrp.
  - destruct w; [|simpl in Hn; lia].
    now rewrite !(pass_nil is_period is_period_not_space),
                 (pass_nil is_bullet is_bullet_not_space).
  - destruct (split_indentation w) as (ws & Hws & [-> | (d & r & -> & Hd)]).
    + rewrite (pass_all_space is_period is_period_not_space prev_p ws Hws).
      now apply pass_all_space; [apply is_bullet_not_space|].
    + assert (Hlen : length r <= n).
      { rewrite length_app in Hn. simpl in Hn. lia. }
      destruct (fixed_inv is_bullet is_bullet_not_space prev_b ws d r Hws Hd Hfix)
        as [[Hr Hnone] | (-> & Happ & X & -> & HXu & HX)].
      * rewrite (pass_chunk is_period is_period_not_space prev_p ws d r Hws Hd).
        destruct (if is_period d then approach prev_p ws else None)
          as [[a b]|] eqn:Hp.
        -- destruct (is_period d) eqn:Hpd; [|discriminate].
           pose proof (approach_parts _ _ _ _ Hp) as Hab.
           assert (Ha : forallb is_space a = true).
           { rewrite Hab, forallb_app in Hws.
             now apply andb_true_iff in Hws as [? _]. }
           assert (Hl2 : length (drop_while is_space r) <= n)
             by (etransitivity; [apply drop_while_length|exact Hlen]).
           assert (Hfix2 : pass is_bullet (Some 32%N) (drop_while is_space r)
                           = drop_while is_space r).
           { apply (fixed_suffix is_bullet is_bullet_not_space (Some d)
                      (take_while is_space r)).
             - apply take_while_all.
             - apply drop_while_idem.
             - now rewrite take_drop_while. }
           rewrite (pass_canonical is_bullet is_bullet_not_space).
           ++ rewrite (IH _ Hl2 (Some 32%N) _ (Some 32%N) Hfix2);
                [reflexivity|discriminate|discriminate].
           ++ exact Ha.
           ++ exact (approach_transfer _ _ _ _ _ Hp Hrp).
           ++ apply (pass_head is_period is_period_not_space), drop_while_idem.
        -- rewrite (pass_chunk is_bullet is_bullet_not_space prev_y ws d _ Hws Hd).
           assert (Hb : (if is_bullet d then approach prev_y ws else None) = None).
           { destruct (is_bullet d); [|reflexivity].
             destruct Hnone as [Hnone|Hnone]; [discriminate|].
             exact (approach_none_transfer _ _ _ Hnone Hrb). }
           rewrite Hb. f_equal. f_equal.
           now apply (IH _ Hlen (Some d)).
      * assert (HlenX : length X <= n) by exact (Nat.lt_le_incl _ _ Hlen).
        rewrite (pass_chunk is_period is_period_not_space prev_p ws middle_dot
                   _ Hws Hd).
        change (is_period middle_dot) with false. cbv iota.
        rewrite sub_from_copy by now apply bullet_line_inside.
        change (ws ++ middle_dot :: 32%N :: pass is_period (Some 32%N) X)
          with (ws ++ canonical_bullet ++ pass is_period (Some 32%N) X).
        rewrite (pass_canonical is_bullet is_bullet_not_space).
        -- now rewrite (IH _ HlenX (Some 32%N)).
        -- exact Hws.
        -- exact (approach_transfer _ _ _ _ _ Happ Hrb).
        -- now apply (pass_head is_period is_period_not_space).
Qed.

(** The bullet normalization of lines 30-31 is idempotent. *)
Lemma normalize_bullets_idempotent x :
  normalize_bullets (normalize_bullets x) = normalize_bullets x.
Proof.
  unfold normalize_bullets, re_sub.
  set (w := pass is_bullet None x).
  assert (Hw : pass is_bullet None w = w).
  { apply (pass_twice is_bullet is_bullet_not_space (length x)); auto. }
  rewrite (bullets_after_periods (length w) w (le_n _) None None None Hw);
    auto.
  apply (pass_twice is_period is_period_not_space (length w)); auto.
Qed.

End BulletFacts.

(* ===================================================================== *)
(** * Properties of the feedback policy and of the retry loop *)
(* ===================================================================== *)

Module WorkflowFacts.
Import Str StrFacts Parser Binder Workflow.

Lemma classify_success vr c p :
  contains success_marker vr = true -> classify vr c p = Success.
Proof. intros H. unfold classify. now rewrite H. Qed.

Lemma contains_self s : contains s s = true.
Proof.
  apply contains_occurs. exists [], []. now rewrite app_nil_r.
Qed.

Lemma classify_stub vr c p :
  contains success_marker vr = false ->
  c = sorry \/ p = sorry ->
  classify vr c p = StubDetected.
Proof.
  intros Hvr Hs. unfold classify. rewrite Hvr.
  destruct Hs as [-> | ->]; rewrite contains_self;
    [reflexivity | now rewrite orb_true_r].
Qed.

Lemma model_calls_app tr1 tr2 :
  model_calls (tr1 ++ tr2) = model_calls tr1 + model_calls tr2.
Proof. unfold model_calls. now rewrite filter_app, length_app. Qed.

Lemma verifier_calls_app tr1 tr2 :
  verifier_calls (tr1 ++ tr2) = verifier_calls tr1 + verifier_calls tr2.
Proof. unfold verifier_calls. now rewrite filter_app, length_app. Qed.

Section Loop.

Variable unicode_alnum : char -> bool.
Variable get_response : nat -> list message -> str.
Variable execute_lean_code : nat -> str -> str.
Variable system_prompt : str.
Variable user_prompt : str -> str -> str.
Variable problem_description : str.
Variable task_lean_code : str.

Local Abbreviation attempt :=
  (attempt unicode_alnum get_response execute_lean_code task_lean_code).
Local Abbreviation while_loop :=
  (while_loop unicode_alnum get_response execute_lean_code task_lean_code).
Local Abbreviation response_of := (response_of get_response).
Local Abbreviation candidates_of := (candidates_of unicode_alnum get_response).
Local Abbreviation program_of :=
  (program_of unicode_alnum get_response task_lean_code).
Local Abbreviation verification_result_of :=
  (verification_result_of unicode_alnum get_response execute_lean_code
     task_lean_code).
Local Abbreviation branch_of :=
  (branch_of unicode_alnum get_response execute_lean_code task_lean_code).
Local Abbreviation feedback_of :=
  (feedback_of unicode_alnum get_response execute_lean_code task_lean_code).
Local Abbreviation after_attempt :=
  (after_attempt unicode_alnum get_response execute_lean_code task_lean_code).
Local Abbreviation initial_state :=
  (initial_state system_prompt user_prompt problem_description task_lean_code).
Local Abbreviation run :=
  (run unicode_alnum get_response execute_lean_code system_prompt user_prompt
     problem_description task_lean_code).
Local Abbreviation main_workflow :=
  (main_workflow unicode_alnum get_response execute_lean_code system_prompt
     user_prompt problem_description task_lean_code).

Lemma attempt_eq st :
  attempt st =
  (after_attempt st,
   match branch_of st with Success => true | _ => false end).
Proof.
  unfold Workflow.attempt, after_attempt, feedback_of, branch_of,
    verification_result_of, program_of, candidates_of, response_of.
  destruct (parse_code_proof unicode_alnum
              (get_response (retries st) (messages st))) as [c p].
  cbn [fst snd].
  destruct (classify _ c p); reflexivity.
Qed.

Lemma while_loop_step fuel st :
  retries st < max_retries ->
  while_loop (S fuel) st =
  match branch_of st with
  | Success => Some (after_attempt st)
  | _ => while_loop fuel (after_attempt st)
  end.
Proof.
  intros Hlt. cbn [Workflow.while_loop].
  apply Nat.ltb_lt in Hlt. rewrite Hlt, attempt_eq.
  destruct (branch_of st); reflexivity.
Qed.

Lemma while_loop_exit fuel st :
  max_retries <= retries st -> while_loop fuel st = Some st.
Proof.
  intros Hge. apply Nat.ltb_ge in Hge.
  destruct fuel; cbn [Workflow.while_loop]; now rewrite Hge.
Qed.

Lemma after_attempt_calls st :
  model_calls (trace (after_attempt st)) = S (model_calls (trace st)) /\
  verifier_calls (trace (after_attempt st)) = S (verifier_calls (trace st)).
Proof.
  cbn [Workflow.after_attempt trace].
  rewrite model_calls_app, verifier_calls_app. cbn. lia.
Qed.

Lemma after_attempt_retries st :
  retries (after_attempt st) =
  match branch_of st with Success => retries st | _ => S (retries st) end.
Proof. reflexivity. Qed.

Lemma after_attempt_messages st :
  messages (after_attempt st) =
  match branch_of st with
  | Success => messages st
  | _ => messages st ++
           [ {| msg_role := assistant; content := response_of st |};
             {| msg_role := user; content := feedback_of st |} ]
  end.
Proof. reflexivity. Qed.

(** What the loop keeps true from any state on: it ends, with at most one
    call to each collaborator per remaining attempt, and the conversation
    it started with extended by two messages per counted attempt. *)
Lemma while_loop_invariant fuel :
  forall st,
    retries st <= max_retries ->
    max_retries - retries st <= fuel ->
    exists st' ext,
      while_loop fuel st = Some st' /\
      retries st <= retries st' <= max_retries /\
      model_calls (trace st') + retries st
        <= model_calls (trace st) + max_retries /\
      verifier_calls (trace st') + model_calls (trace st)
        = model_calls (trace st') + verifier_calls (trace st) /\
      messages st' = messages st ++ ext /\
      length ext = 2 * (retries st' - retries st).
Proof.
  induction fuel as [|fuel IH]; intros st Hle Hfuel.
  - exists st, []. rewrite while_loop_exit by lia.
    rewrite app_nil_r. repeat split; try reflexivity; cbn [length]; lia.
  - destruct (Nat.lt_ge_cases (retries st) max_retries) as [Hlt|Hge].
    2:{ exists st, []. rewrite while_loop_exit by lia.
        rewrite app_nil_r. repeat split; try reflexivity; cbn [length]; lia. }
    rewrite while_loop_step by exact Hlt.
    pose proof (after_attempt_calls st) as [Hmc Hvc].
    pose proof (after_attempt_retries st) as Hret.
    pose proof (after_attempt_messages st) as Hmsgs.
    destruct (branch_of st) eqn:Hb.
    + exists (after_attempt st), [].
      rewrite Hmsgs, app_nil_r.
      repeat split; try reflexivity; cbn [length]; lia.
    + destruct (IH (after_attempt st))
        as (st' & ext & Hrun & Hr & Hm & Hv & Hmsg & Hlen); try lia.
      eexists st', (_ :: _ :: ext). repeat split.
      * exact Hrun.
      * lia.
      * lia.
      * lia.
      * lia.
      * rewrite Hmsg, Hmsgs, <- app_assoc. reflexivity.
      * cbn [length]. lia.
    + destruct (IH (after_attempt st))
        as (st' & ext & Hrun & Hr & Hm & Hv & Hmsg & Hlen); try lia.
      eexists st', (_ :: _ :: ext). repeat split.
      * exact Hrun.
      * lia.
      * lia.
      * lia.
      * lia.
      * rewrite Hmsg, Hmsgs, <- app_assoc. reflexivity.
      * cbn [length]. lia.
Qed.

Lemma run_invariant :
  exists st ext,
    run max_retries = Some st /\
    retries st <= max_retries /\
    model_calls (trace st) <= max_retries /\
    verifier_calls (trace st) = model_calls (trace st) /\
    messages st = messages initial_state ++ ext /\
    length ext = 2 * retries st.
Proof.
  destruct (while_loop_invariant max_retries initial_state)
    as (st & ext & Hrun & Hr & Hm & Hv & Hmsg & Hlen);
    cbn [Workflow.initial_state retries]; try lia.
  cbn [Workflow.initial_state retries trace] in Hr, Hm, Hv, Hlen.
  change (model_calls []) with 0 in *. change (verifier_calls []) with 0 in *.
  exists st, ext. repeat split; try assumption; lia.
Qed.

Lemma success_step st fuel :
  retries st < max_retries ->
  contains success_marker (verification_result_of st) = true ->
  branch_of st = Success /\
  while_loop (S fuel) st = Some (after_attempt st).
Proof.
  intros Hlt Hok.
  assert (Hb : branch_of st = Success) by (now apply classify_success).
  split; [exact Hb|]. now rewrite while_loop_step, Hb.
Qed.

(** C5: whatever the model answers and the runner prints, the loop ends and
    returns a candidate pair, after at most [max_retries] = 3 calls to the
    model and at most [max_retries] calls to the runner. *)
Theorem retry_loop_bounded :
  max_retries = 3 /\
  exists st,
    run max_retries = Some st /\
    main_workflow = Some (result_of st) /\
    model_calls (trace st) <= max_retries /\
    verifier_calls (trace st) <= max_retries.
Proof.
  split; [reflexivity|].
  destruct run_invariant as (st & ext & Hrun & _ & Hm & Hv & _).
  exists st. unfold Workflow.main_workflow. rewrite Hrun.
  repeat split; try reflexivity; lia.
Qed.

(** C4: in a pass whose verification result contains the success marker
    the success branch is taken whatever the candidates are, and the loop
    ends at once with the candidate pair of that pass; no message is added
    and the attempt is not counted. *)
Theorem success_ends_loop :
  forall st fuel,
    retries st < max_retries ->
    contains success_marker (verification_result_of st) = true ->
    (forall code proof,
       classify (verification_result_of st) code proof = Success) /\
    while_loop (S fuel) st = Some (after_attempt st) /\
    result_of (after_attempt st) =
      {| code := fst (candidates_of st); proof := snd (candidates_of st) |} /\
    messages (after_attempt st) = messages st /\
    retries (after_attempt st) = retries st.
Proof.
  intros st fuel Hlt Hok.
  destruct (success_step st fuel Hlt Hok) as [Hb Hrun].
  split; [intros c p; now apply classify_success|].
  split; [exact Hrun|].
  split; [reflexivity|].
  rewrite after_attempt_messages, after_attempt_retries, Hb. now split.
Qed.

(** The first attempt: a success there ends the run with the pair parsed
    from the first answer, after one call to each collaborator. *)
Lemma success_on_first_attempt :
  contains success_marker (verification_result_of initial_state) = true ->
  main_workflow =
    Some {| code := fst (candidates_of initial_state);
            proof := snd (candidates_of initial_state) |} /\
  run max_retries = Some (after_attempt initial_state) /\
  model_calls (trace (after_attempt initial_state)) = 1 /\
  verifier_calls (trace (after_attempt initial_state)) = 1.
Proof.
  intros Hok.
  destruct (success_step initial_state 2) as [Hb Hrun];
    [unfold max_retries; cbn [Workflow.initial_state retries]; lia
    | exact Hok |].
  unfold Workflow.main_workflow, Workflow.run.
  change max_retries with 3. rewrite Hrun. repeat split.
Qed.

(** C2: when the verification result lacks the success marker and at least
    one candidate is the sentinel, the pass takes the stub branch, not the
    hard-failure branch: it does not leave the loop, and it appends the raw
    answer of the model and the user message that demands a complete
    solution without the sentinel. *)
Theorem stub_branch_chosen :
  forall st,
    contains success_marker (verification_result_of st) = false ->
    fst (candidates_of st) = sorry \/ snd (candidates_of st) = sorry ->
    branch_of st = StubDetected /\
    branch_of st <> HardFailure /\
    attempt st = (after_attempt st, false) /\
    messages (after_attempt st) =
      messages st ++
        [ {| msg_role := assistant; content := response_of st |};
          {| msg_role := user; content := stub_feedback |} ].
Proof.
  intros st Hvr Hs.
  assert (Hb : branch_of st = StubDetected) by (now apply classify_stub).
  split; [exact Hb|]. split; [congruence|].
  rewrite attempt_eq, after_attempt_messages.
  unfold Workflow.feedback_of. rewrite Hb. now split.
Qed.

(** C9: the conversation only grows at its end.  A pass leaves through the
    success branch exactly when the output of the runner holds the success
    marker, and then keeps the conversation as it is; on every other
    output the pass appends exactly the raw answer of the model and one
    user feedback message, the fixed message when a candidate holds the
    sentinel and the message with the output of the runner otherwise.  The
    conversation at the end of the run is the initial one followed by two
    messages per counted attempt. *)
Theorem conversation_append_only :
  (forall st,
     snd (attempt st) = contains success_marker (verification_result_of st) /\
     messages (fst (attempt st)) =
     if contains success_marker (verification_result_of st)
     then messages st
     else messages st ++
            [ {| msg_role := assistant; content := response_of st |};
              {| msg_role := user;
                 content :=
                   if contains sorry (fst (candidates_of st))
                      || contains sorry (snd (candidates_of st))
                   then stub_feedback
                   else failure_feedback (verification_result_of st) |} ]) /\
  (exists st ext,
     run max_retries = Some st /\
     messages st = messages initial_state ++ ext /\
     length ext = 2 * retries st).
Proof.
  split.
  - intros st. rewrite attempt_eq. cbn [fst snd].
    rewrite after_attempt_messages.
    unfold Workflow.feedback_of, Workflow.branch_of, classify.
    destruct (contains success_marker (verification_result_of st));
      [now split|].
    destruct (contains sorry (fst (candidates_of st))
              || contains sorry (snd (candidates_of st))); now split.
  - destruct run_invariant as (st & ext & Hrun & _ & _ & _ & Hmsg & Hlen).
    now exists st, ext.
Qed.

End Loop.

(** A run in which the runner reports success at once. *)
Lemma success_ends_loop_witness :
  retries Samples.start < max_retries /\
  contains success_marker
    (verification_result_of Samples.ascii_only Samples.full_model
       Samples.accepting_runner Samples.template Samples.start) = true /\
  while_loop Samples.ascii_only Samples.full_model Samples.accepting_runner
    Samples.template 1 Samples.start
  = Some (after_attempt Samples.ascii_only Samples.full_model
            Samples.accepting_runner Samples.template Samples.start).
Proof.
  assert (H1 : retries Samples.start < max_retries)
    by (unfold max_retries; cbn; lia).
  assert (H2 : contains success_marker
                 (verification_result_of Samples.ascii_only
                    Samples.full_model Samples.accepting_runner
                    Samples.template Samples.start) = true)
    by (vm_compute; reflexivity).
  split; [exact H1|]. split; [exact H2|].
  exact (proj1 (proj2 (success_ends_loop Samples.ascii_only
                         Samples.full_model Samples.accepting_runner
                         Samples.template Samples.start 0 H1 H2))).
Defined.

(** A pass in which the model leaves out the proof section: exactly one
    candidate is the sentinel. *)
Lemma stub_branch_chosen_witness :
  contains success_marker
    (verification_result_of Samples.ascii_only Samples.partial_model
       Samples.rejecting_runner Samples.template Samples.start) = false /\
  snd (candidates_of Samples.ascii_only Samples.partial_model Samples.start)
    = sorry /\
  fst (candidates_of Samples.ascii_only Samples.partial_model Samples.start)
    <> sorry /\
  branch_of Samples.ascii_only Samples.partial_model Samples.rejecting_runner
    Samples.template Samples.start = StubDetected.
Proof.
  assert (H1 : contains success_marker
                 (verification_result_of Samples.ascii_only
                    Samples.partial_model Samples.rejecting_runner
                    Samples.template Samples.start) = false)
    by (vm_compute; reflexivity).
  assert (H2 : snd (candidates_of Samples.ascii_only Samples.partial_model
                      Samples.start) = sorry)
    by (vm_compute; reflexivity).
  split; [exact H1|]. split; [exact H2|].
  split; [vm_compute; discriminate|].
  exact (proj1 (stub_branch_chosen Samples.ascii_only Samples.partial_model
                  Samples.rejecting_runner Samples.template Samples.start
                  H1 (or_intror H2))).
Defined.

End WorkflowFacts.

(* ===================================================================== *)
(** * Parsing what has been parsed *)
(* ===================================================================== *)

Module ReparseFacts.
Import Str StrFacts Re ReFacts Parser ParserFacts BulletFacts.

(** ** Texts without a fence *)

Lemma contains_unfold sub s :
  contains sub s =
  starts_with sub s || match s with [] => false | _ :: t => contains sub t end.
Proof. destruct s; reflexivity. Qed.

Lemma contains_false sub s :
  contains sub s = false ->
  forall x y, s = x ++ y -> starts_with sub y = false.
Proof.
  intros H x; revert s H. induction x as [|c x IH]; intros s H y ->.
  - rewrite contains_unfold in H. now apply orb_false_iff in H as [H _].
  - cbn [app] in H. rewrite contains_unfold in H.
    apply orb_false_iff in H as [_ H]. now apply (IH _ H).
Qed.

Lemma fence_open_miss prev s :
  starts_with fence s = false -> fence_open prev s = None.
Proof. intros H. unfold fence_open. now apply literal_miss. Qed.

Lemma fence_close_miss prev s :
  starts_with fence (drop_while is_space s) = false ->
  fence_close prev s = None.
Proof.
  intros H. unfold fence_close. rewrite star_longest.
  - now rewrite literal_miss.
  - intros c t Hc. apply literal_miss.
    destruct (starts_with fence (c :: t)) eqn:E; [|reflexivity].
    apply starts_with_true in E as [r E]. cbn in E. injection E as -> _.
    discriminate.
Qed.

Lemma drop_while_suffix f s : exists x, s = x ++ drop_while f s.
Proof. exists (take_while f s). symmetry. apply take_drop_while. Qed.

(** Neither fence pattern matches in a text without a fence. *)
Lemma fence_open_fixed s :
  contains fence s = false -> re_sub fence_open [] s = s.
Proof.
  intros H. unfold re_sub.
  rewrite <- (app_nil_r s) at 1. rewrite sub_from_copy_run.
  - cbn. now rewrite app_nil_r.
  - intros x1 x2 Hs _. rewrite app_nil_r. apply fence_open_miss.
    now apply (contains_false _ _ H x1 x2).
Qed.

Lemma fence_close_fixed s :
  contains fence s = false -> re_sub fence_close [] s = s.
Proof.
  intros H. unfold re_sub.
  rewrite <- (app_nil_r s) at 1. rewrite sub_from_copy_run.
  - cbn. now rewrite app_nil_r.
  - intros x1 x2 Hs _. rewrite app_nil_r. apply fence_close_miss.
    destruct (drop_while_suffix is_space x2) as [w Hw].
    apply (contains_false _ _ H (x1 ++ w)).
    now rewrite <- app_assoc, <- Hw.
Qed.

Lemma strip_fences_fixed s : contains fence s = false -> strip_fences s = s.
Proof.
  intros H. unfold strip_fences.
  now rewrite fence_open_fixed, fence_close_fixed.
Qed.

(** ** The passes leave no fence behind *)

Lemma starts_with_fence_ticks x :
  starts_with fence x = starts_with fence (take_while is_tick x).
Proof.
  unfold is_tick. change fence with [96; 96; 96]%N.
  destruct x as [|a [|b [|c x]]]; cbn [starts_with take_while];
    repeat match goal with
           | |- context [N.eqb 96 ?v] =>
               let E := fresh "E" in
               destruct (N.eqb 96 v) eqn:E;
               cbn [starts_with take_while andb]; rewrite ?E
           end; reflexivity.
Qed.

(** After [k] characters have been dropped the scan goes on as from the
    start, unless the text has run out. *)
Lemma sub_from_drop m repl k :
  forall prev s,
    sub_from m repl k prev s = [] \/
    exists prev', sub_from m repl k prev s = sub_from m repl 0 prev' (skipn k s).
Proof.
  induction k as [|k IH]; intros prev s.
  - right. now exists prev.
  - destruct s as [|c t]; [now left|]. cbn [sub_from skipn]. apply IH.
Qed.

Lemma contains_suffix sub x y :
  contains sub (x ++ y) = false -> contains sub y = false.
Proof.
  induction x as [|c x IH]; [trivial|]. cbn [app]. rewrite contains_unfold.
  intros H. apply orb_false_iff in H as [_ H]. now apply IH.
Qed.

Lemma fence_open_hit prev s :
  starts_with fence s = true -> exists j, fence_open prev s = Some (S j).
Proof.
  intros H. unfold fence_open, literal. rewrite H.
  unfold optional, literal.
  destruct (starts_with (lit "lean") _).
  - rewrite !star_done. cbn. eexists. reflexivity.
  - rewrite star_done. cbn. eexists. reflexivity.
Qed.

Lemma fence_open_head s :
  forall prev,
  starts_with fence s = false ->
  take_while is_tick (sub_from fence_open [] 0 prev s) = take_while is_tick s.
Proof.
  induction s as [|c t IH]; intros prev H.
  - reflexivity.
  - rewrite sub_from_copy by now apply fence_open_miss.
    cbn [take_while]. destruct (is_tick c) eqn:Hc; [|reflexivity].
    f_equal. apply IH.
    unfold is_tick in Hc. apply N.eqb_eq in Hc. subst c.
    change fence with [96; 96; 96]%N in *.
    destruct t as [|b [|d t]]; try reflexivity;
      cbn [starts_with] in *; rewrite ?N.eqb_refl in H; cbn [andb] in H.
    + now rewrite andb_false_r.
    + destruct (N.eqb 96 b); [|reflexivity]. cbn [andb] in *.
      destruct (N.eqb 96 d); [discriminate|]. reflexivity.
Qed.

Lemma fence_open_leaves_no_fence n :
  forall s prev, length s <= n ->
    contains fence (sub_from fence_open [] 0 prev s) = false.
Proof.
  induction n as [|n IH]; intros s prev Hn.
  - destruct s; [reflexivity|simpl in Hn; lia].
  - destruct s as [|c t]; [reflexivity|].
    destruct (starts_with fence (c :: t)) eqn:E.
    + destruct (fence_open_hit prev _ E) as [j Hj].
      cbn [sub_from]. rewrite Hj. cbn [app].
      destruct (sub_from_drop fence_open [] j (Some c) t) as [->|[prev' ->]];
        [reflexivity|].
      apply IH. rewrite length_skipn. simpl in Hn. lia.
    + rewrite contains_unfold.
      rewrite starts_with_fence_ticks, fence_open_head by exact E.
      rewrite <- starts_with_fence_ticks, E. cbn [orb].
      rewrite sub_from_copy by now apply fence_open_miss.
      apply IH. simpl in Hn. lia.
Qed.

Section Anchored.

Variable m : option char -> matcher.
Variable repl : str.
Hypothesis anchored : forall prev s, at_line_start prev = false -> m prev s = None.
Hypothesis repl_no_tick : forallb (fun c => negb (is_tick c)) repl = true.

Lemma contains_fence_behind_repl x :
  contains fence x = false -> contains fence (repl ++ x) = false.
Proof.
  intros Hx. induction repl as [|c r IH]; [exact Hx|].
  cbn [forallb] in repl_no_tick.
  apply andb_true_iff in repl_no_tick as [Hc Hr].
  cbn [app]. rewrite contains_unfold, IH by exact Hr.
  rewrite orb_false_r. change fence with [96; 96; 96]%N.
  cbn [starts_with]. unfold is_tick in Hc. apply negb_true_iff in Hc.
  now rewrite Hc.
Qed.

Lemma tick_not_line_start c : is_tick c = true -> at_line_start (Some c) = false.
Proof. unfold is_tick. intros H. apply N.eqb_eq in H. now subst. Qed.

Lemma anchored_head s :
  forall prev,
    at_line_start prev = false ->
    take_while is_tick (sub_from m repl 0 prev s) = take_while is_tick s.
Proof.
  induction s as [|c t IH]; intros prev Hprev.
  - cbn. now rewrite anchored.
  - rewrite sub_from_copy by now apply anchored.
    cbn [take_while]. destruct (is_tick c) eqn:Hc; [|reflexivity].
    f_equal. apply IH. now apply tick_not_line_start.
Qed.

Lemma anchored_copy_no_fence c t Y :
  contains fence (c :: t) = false ->
  contains fence Y = false ->
  take_while is_tick Y = take_while is_tick t \/ is_tick c = false ->
  contains fence (c :: Y) = false.
Proof.
  intros Hs HY Hhead. rewrite contains_unfold, HY, orb_false_r.
  rewrite contains_unfold in Hs. apply orb_false_iff in Hs as [Hs _].
  rewrite starts_with_fence_ticks in *. cbn [take_while] in *.
  destruct (is_tick c) eqn:Hc; [|reflexivity].
  destruct Hhead as [->|]; [exact Hs|discriminate].
Qed.

Lemma anchored_keeps_no_fence n :
  forall s prev, length s <= n ->
    contains fence s = false ->
    contains fence (sub_from m repl 0 prev s) = false.
Proof.
  induction n as [|n IH]; intros s prev Hn Hs.
  - destruct s; [|simpl in Hn; lia]. cbn.
    destruct (m prev []); [|reflexivity].
    rewrite <- (app_nil_r repl). now apply contains_fence_behind_repl.
  - destruct s as [|c t].
    { cbn. destruct (m prev []); [|reflexivity].
      rewrite <- (app_nil_r repl). now apply contains_fence_behind_repl. }
    assert (Ht : contains fence t = false)
      by (apply (contains_suffix fence [c] t); exact Hs).
    assert (Hcopy : contains fence (c :: sub_from m repl 0 (Some c) t) = false).
    { apply (anchored_copy_no_fence c t); [exact Hs| |].
      - apply IH; [simpl in Hn; lia | exact Ht].
      - destruct (is_tick c) eqn:Hc; [left|now right].
        apply anchored_head. now apply tick_not_line_start. }
    cbn [sub_from]. destruct (m prev (c :: t)) as [[|k]|].
    + now apply contains_fence_behind_repl.
    + apply contains_fence_behind_repl.
      destruct (sub_from_drop m repl k (Some c) t) as [->|[prev' ->]];
        [reflexivity|].
      apply IH; [rewrite length_skipn; simpl in Hn; lia|].
      apply (contains_suffix fence (firstn k t)). now rewrite firstn_skipn.
    + exact Hcopy.
Qed.

End Anchored.

(** The first fence pattern takes every fence away, so the second one,
    written for the closing fence, finds nothing left to match. *)
Lemma strip_fences_no_fence s : contains fence (strip_fences s) = false.
Proof.
  unfold strip_fences.
  assert (H : contains fence (re_sub fence_open [] s) = false)
    by (apply (fence_open_leaves_no_fence (length s)); lia).
  now rewrite fence_close_fixed.
Qed.

Lemma fence_close_is_idle s :
  re_sub fence_close [] (re_sub fence_open [] s) = re_sub fence_open [] s.
Proof.
  apply fence_close_fixed.
  apply (fence_open_leaves_no_fence (length s)). lia.
Qed.

(** ** The sections of a reassembled text *)

Lemma code_marker_has_no_proof_marker c :
  contains_ci PROOF c = false -> contains_ci PROOF (CODE ++ c) = false.
Proof.
  intros H. cbn [CODE lit list_ascii_of_string map app].
  repeat (rewrite contains_ci_unfold; cbn [starts_with_ci PROOF lit
            list_ascii_of_string map];
          match goal with
          | |- context [eq_ci ?a ?b] =>
              let v := eval vm_compute in (eq_ci a b) in
              change (eq_ci a b) with v
          end; cbn [andb orb]).
  exact H.
Qed.

Lemma eq_ci_str_refl s : eq_ci_str s s = true.
Proof.
  induction s as [|c s IH]; [reflexivity|]. simpl. rewrite IH.
  unfold eq_ci. now rewrite N.eqb_refl.
Qed.

(** ** Padding *)

Lemma strip_padded pad1 x pad2 :
  forallb is_space pad1 = true -> forallb is_space pad2 = true ->
  strip (pad1 ++ x ++ pad2) = strip x.
Proof.
  intros H1 H2.
  assert (Hl : strip (pad1 ++ x ++ pad2) = strip (x ++ pad2)).
  { unfold strip, lstrip. now rewrite drop_while_app. }
  rewrite Hl. clear Hl H1.
  induction pad2 as [|c pad2 IH] using rev_ind.
  - now rewrite app_nil_r.
  - rewrite forallb_app in H2. apply andb_true_iff in H2 as [H2 Hc].
    cbn [forallb] in Hc. apply andb_true_iff in Hc as [Hc _].
    rewrite app_assoc, strip_snoc by exact Hc. now apply IH.
Qed.

Lemma starts_with_ci_padded marker s pad :
  spaceless marker -> forallb is_space pad = true ->
  starts_with_ci marker s = false ->
  starts_with_ci marker (s ++ pad) = false.
Proof.
  revert s. induction marker as [|a m IH]; intros s Hm Hpad Hs;
    [discriminate|].
  destruct s as [|y s].
  - cbn [app]. destruct pad as [|w pad]; [reflexivity|].
    cbn [starts_with_ci forallb] in *.
    apply andb_true_iff in Hpad as [Hw _].
    now rewrite (Hm a w (or_introl eq_refl) Hw).
  - cbn [app starts_with_ci] in *.
    apply andb_false_iff in Hs as [Hs|Hs]; [now rewrite Hs|].
    rewrite IH; [apply andb_false_r| |exact Hpad|exact Hs].
    intros b w Hb. apply Hm. now right.
Qed.

Lemma contains_ci_padded marker pad1 c pad2 :
  spaceless marker -> marker <> [] ->
  forallb is_space pad1 = true -> forallb is_space pad2 = true ->
  contains_ci marker c = false ->
  contains_ci marker (pad1 ++ c ++ pad2) = false.
Proof.
  intros Hm Hne H1 H2 Hc.
  assert (Hnil : starts_with_ci marker [] = false)
    by (destruct marker; [congruence|reflexivity]).
  assert (Hpad : forall pad, forallb is_space pad = true ->
                   contains_ci marker pad = false).
  { intros pad Hp. induction pad as [|w pad IH].
    - cbn. now rewrite Hnil.
    - cbn [forallb] in Hp. apply andb_true_iff in Hp as [Hw Hp].
      rewrite contains_ci_unfold, (IH Hp), orb_false_r.
      change (w :: pad) with ([] ++ w :: pad).
      change ([] ++ w :: pad) with (([] : str) ++ (w :: pad)).
      apply starts_with_ci_padded; [exact Hm| |exact Hnil].
      cbn [forallb]. now rewrite Hw. }
  assert (Hright : contains_ci marker (c ++ pad2) = false).
  { induction c as [|x c IH].
    - now apply Hpad.
    - rewrite contains_ci_unfold in Hc.
      apply orb_false_iff in Hc as [Hs Hc].
      cbn [app]. rewrite contains_ci_unfold, (IH Hc), orb_false_r.
      change (x :: c ++ pad2) with ((x :: c) ++ pad2).
      now apply starts_with_ci_padded. }
  clear Hc. induction pad1 as [|w pad1 IH]; [exact Hright|].
  cbn [forallb] in H1. apply andb_true_iff in H1 as [Hw H1].
  cbn [app]. rewrite contains_ci_unfold, (IH H1), orb_false_r.
  change (w :: pad1 ++ c ++ pad2) with (([] : str) ++ (w :: pad1 ++ c ++ pad2)).
  destruct marker as [|a m]; [congruence|].
  cbn [app starts_with_ci]. now rewrite (Hm a w (or_introl eq_refl) Hw).
Qed.

Lemma space_lower w :
  is_space w = true ->
  ascii_lower w = w /\ is_space (ascii_lower w) = true.
Proof.
  intros H. assert (Hl : ascii_lower w = w).
  { unfold ascii_lower.
    destruct ((65 <=? w) && (w <=? 90))%N eqn:E; [|reflexivity].
    exfalso. apply andb_true_iff in E as [E1 E2].
    apply N.leb_le in E1, E2. unfold is_space in H.
    repeat (apply orb_true_iff in H; destruct H as [H|H]);
      repeat match goal with
             | H : (_ && _) = true |- _ => apply andb_true_iff in H; destruct H
             | H : (_ <=? _)%N = true |- _ => apply N.leb_le in H
             | H : (_ =? _)%N = true |- _ => apply N.eqb_eq in H
             end; lia. }
  now rewrite Hl.
Qed.

Lemma PROOF_spaceless : spaceless PROOF.
Proof.
  intros a w Ha Hw. destruct (space_lower w Hw) as [Hl _].
  unfold eq_ci. rewrite Hl. apply N.eqb_neq. intros <-.
  cbn in Ha.
  repeat (destruct Ha as [<-|Ha]; [discriminate Hw|]). exact Ha.
Qed.

Lemma sections_of_padded pad1 pad2 pad3 pad4 (c p : str) :
  forallb is_space pad1 = true -> forallb is_space pad2 = true ->
  forallb is_space pad3 = true -> forallb is_space pad4 = true ->
  contains_ci PROOF c = false ->
  code_section (reassemble_with pad1 pad2 pad3 pad4 (c, p)) = strip c /\
  proof_section (reassemble_with pad1 pad2 pad3 pad4 (c, p)) = strip p.
Proof.
  intros H1 H2 H3 H4 Hc. unfold reassemble_with. cbn [fst snd].
  assert (Hg : contains_ci PROOF (pad1 ++ c ++ pad2) = false).
  { apply contains_ci_padded; try assumption;
      [apply PROOF_spaceless | discriminate]. }
  split.
  - unfold code_section.
    change (CODE ++ (pad1 ++ c ++ pad2) ++ PROOF ++ pad3 ++ p ++ pad4)
      with ([] ++ CODE ++ (pad1 ++ c ++ pad2) ++ PROOF ++ pad3 ++ p ++ pad4).
    rewrite (code_section_until_proof [] CODE (pad1 ++ c ++ pad2) PROOF
               (pad3 ++ p ++ pad4));
      try reflexivity; try apply eq_ci_str_refl; try exact Hg.
    now apply strip_padded.
  - unfold proof_section. rewrite app_assoc.
    rewrite (proof_capture (CODE ++ pad1 ++ c ++ pad2) PROOF
               (pad3 ++ p ++ pad4));
      [now apply strip_padded
      | now apply code_marker_has_no_proof_marker
      | apply eq_ci_str_refl].
Qed.

Lemma reassemble_plain pair :
  reassemble pair = reassemble_with [] [] [] [] pair.
Proof. unfold reassemble, reassemble_with. cbn [app]. now rewrite !app_nil_r. Qed.

Lemma def_header_anchored ua prev s :
  at_line_start prev = false -> def_header ua prev s = None.
Proof. intros H. unfold def_header. now rewrite H. Qed.

Lemma or_sorry_no_fence s :
  contains fence s = false -> contains fence (or_sorry s) = false.
Proof. destruct s; [reflexivity|trivial]. Qed.

Lemma normalize_bullets_no_fence s :
  contains fence s = false -> contains fence (normalize_bullets s) = false.
Proof.
  intros H. unfold normalize_bullets, re_sub.
  set (w := sub_from (bullet_line is_bullet) canonical_bullet 0 None s).
  assert (Hw : contains fence w = false).
  { apply (anchored_keeps_no_fence (bullet_line is_bullet) canonical_bullet
             (bullet_line_inside is_bullet) eq_refl (length s));
      [lia|exact H]. }
  apply (anchored_keeps_no_fence (bullet_line is_period) canonical_bullet
           (bullet_line_inside is_period) eq_refl (length w));
    [lia|exact Hw].
Qed.

Lemma or_sorry_bullets s :
  normalize_bullets (or_sorry (normalize_bullets s))
  = or_sorry (normalize_bullets s).
Proof.
  destruct (normalize_bullets s) as [|c t] eqn:E; [reflexivity|].
  cbn [or_sorry]. rewrite <- E. apply normalize_bullets_idempotent.
Qed.

Section Parse.

Variable unicode_alnum : char -> bool.

Local Abbreviation parse_code_proof := (parse_code_proof unicode_alnum).
Local Abbreviation strip_def_header := (strip_def_header unicode_alnum).

Lemma parsed_pair_no_fence response :
  contains fence (fst (parse_code_proof response)) = false /\
  contains fence (snd (parse_code_proof response)) = false.
Proof.
  unfold Parser.parse_code_proof. cbn [fst snd]. split.
  - apply or_sorry_no_fence. unfold Parser.strip_def_header, re_sub.
    apply (anchored_keeps_no_fence (def_header unicode_alnum) []
             (def_header_anchored unicode_alnum)
             eq_refl (length (strip_fences (code_section response))));
      [lia | apply strip_fences_no_fence].
  - apply or_sorry_no_fence, normalize_bullets_no_fence,
      strip_fences_no_fence.
Qed.

Lemma reparse_of_normal_pair_padded pad1 pad2 pad3 pad4 (c p : str) :
  forallb is_space pad1 = true -> forallb is_space pad2 = true ->
  forallb is_space pad3 = true -> forallb is_space pad4 = true ->
  c <> [] -> p <> [] ->
  strip c = c -> strip p = p ->
  contains_ci PROOF c = false ->
  contains fence c = false -> contains fence p = false ->
  strip_def_header c = c ->
  normalize_bullets p = p ->
  parse_code_proof (reassemble_with pad1 pad2 pad3 pad4 (c, p)) = (c, p).
Proof.
  intros H1 H2 H3 H4 Hc Hp Hsc Hsp Hproof Hfc Hfp Hdef Hbul.
  unfold Parser.parse_code_proof.
  destruct (sections_of_padded pad1 pad2 pad3 pad4 c p H1 H2 H3 H4 Hproof)
    as [-> ->].
  rewrite Hsc, Hsp, !strip_fences_fixed by assumption.
  rewrite Hdef, Hbul.
  destruct c; [congruence|]. destruct p; [congruence|]. reflexivity.
Qed.

(** C8, amended: the pair that the parser returns for a response is parsed
    back unchanged from the text reassembled from it (the CODE: marker, the
    code, the PROOF: marker, the proof, with any whitespace between the
    parts), provided that the code and the proof of the pair have no
    whitespace at either end, that the code contains no PROOF: marker and
    that the signature pattern of line 26 matches nowhere in the code. *)
Theorem reparse_stable :
  forall response pad1 pad2 pad3 pad4,
    let pair := parse_code_proof response in
    forallb is_space pad1 = true -> forallb is_space pad2 = true ->
    forallb is_space pad3 = true -> forallb is_space pad4 = true ->
    strip (fst pair) = fst pair ->
    strip (snd pair) = snd pair ->
    contains_ci PROOF (fst pair) = false ->
    strip_def_header (fst pair) = fst pair ->
    parse_code_proof (reassemble_with pad1 pad2 pad3 pad4 pair) = pair /\
    parse_code_proof (reassemble pair) = pair.
Proof.
  intros response pad1 pad2 pad3 pad4 pair H1 H2 H3 H4 Hsc Hsp Hproof Hdef.
  destruct (parsed_pair_no_fence response) as [Hfc Hfp].
  destruct (parsed_pair_nonempty unicode_alnum response) as [Hc Hp].
  fold pair in Hfc, Hfp, Hc, Hp.
  assert (Hbul : normalize_bullets (snd pair) = snd pair).
  { unfold pair, Parser.parse_code_proof. cbn [snd]. apply or_sorry_bullets. }
  destruct pair as [c p]. cbn [fst snd] in *.
  split.
  - now apply reparse_of_normal_pair_padded.
  - rewrite reassemble_plain.
    now apply (reparse_of_normal_pair_padded [] [] [] []).
Qed.

End Parse.

(** What the parser returns for a response with two signature lines, the
    second of them indented, and for a response with the code in a fence. *)
Example parse_two_headers :
  parse_code_proof Samples.ascii_only Samples.two_headers
  = (lit "def g (y) : Nat := y", lit "rfl") /\
  parse_code_proof Samples.ascii_only
    (reassemble (lit "def g (y) : Nat := y", lit "rfl"))
  = (lit "y", lit "rfl").
Proof. split; reflexivity. Qed.

Example parse_fenced :
  parse_code_proof Samples.ascii_only Samples.fenced
  = (lit "x
", lit "rfl") /\
  parse_code_proof Samples.ascii_only (reassemble (lit "x
", lit "rfl"))
  = (lit "x", lit "rfl").
Proof. split; reflexivity. Qed.

(** C8, as stated, fails.  For the first response the parser removes the
    first signature line and with it the indentation of the second, which a
    second parse then removes as well.  For the second response the parser
    leaves the line feed in front of the closing fence at the end of the
    code, and a second parse strips it. *)
Lemma reparse_changes_pair :
  parse_code_proof Samples.ascii_only
    (reassemble (parse_code_proof Samples.ascii_only Samples.two_headers))
  <> parse_code_proof Samples.ascii_only Samples.two_headers /\
  parse_code_proof Samples.ascii_only
    (reassemble (parse_code_proof Samples.ascii_only Samples.fenced))
  <> parse_code_proof Samples.ascii_only Samples.fenced.
Proof. split; vm_compute; discriminate. Qed.

(** The answer of the samples, reassembled with line feeds. *)
Lemma reparse_stable_witness :
  strip (fst (parse_code_proof Samples.ascii_only Samples.answer))
  = fst (parse_code_proof Samples.ascii_only Samples.answer) /\
  strip (snd (parse_code_proof Samples.ascii_only Samples.answer))
  = snd (parse_code_proof Samples.ascii_only Samples.answer) /\
  contains_ci PROOF (fst (parse_code_proof Samples.ascii_only Samples.answer))
  = false /\
  strip_def_header Samples.ascii_only
    (fst (parse_code_proof Samples.ascii_only Samples.answer))
  = fst (parse_code_proof Samples.ascii_only Samples.answer) /\
  parse_code_proof Samples.ascii_only
    (reassemble_with [newline] [newline] [newline] []
       (parse_code_proof Samples.ascii_only Samples.answer))
  = parse_code_proof Samples.ascii_only Samples.answer.
Proof.
  repeat (split; [vm_compute; reflexivity|]).
  exact (proj1 (reparse_stable Samples.ascii_only Samples.answer
                  [newline] [newline] [newline] []
                  eq_refl eq_refl eq_refl eq_refl
                  eq_refl eq_refl eq_refl eq_refl)).
Defined.

End ReparseFacts.

(* ===================================================================== *)
(** * More on the template binder *)
(* ===================================================================== *)

Module MoreBinderFacts.
Import Str StrFacts Binder BinderFacts.

Lemma contains_step sub c t :
  contains sub (c :: t) = false ->
  starts_with sub (c :: t) = false /\ contains sub t = false.
Proof. cbn [contains]. intros H. now apply orb_false_iff in H. Qed.

(** A text without an occurrence is returned as it is. *)
Lemma replace_absent old new s :
  contains old s = false -> replace old new s = s.
Proof.
  induction s as [|c t IH]; intros H.
  - destruct old; [discriminate|reflexivity].
  - apply contains_step in H as [Hs Ht].
    rewrite replace_miss by exact Hs. now rewrite IH.
Qed.

(** X1: a template that holds neither marker is bound to itself, whatever
    the candidates are (lines 171-172). *)
Theorem bind_without_markers :
  forall template code proof,
    contains code_marker template = false ->
    contains proof_marker template = false ->
    bind template code proof = template.
Proof.
  intros template code proof Hc Hp. unfold bind.
  now rewrite (replace_absent code_marker), (replace_absent proof_marker).
Qed.

Lemma bind_without_markers_witness :
  contains code_marker (lit "theorem t : True := trivial") = false /\
  contains proof_marker (lit "theorem t : True := trivial") = false /\
  bind (lit "theorem t : True := trivial") (lit "x") (lit "rfl")
  = lit "theorem t : True := trivial".
Proof.
  split; [reflexivity|]. split; [reflexivity|].
  exact (bind_without_markers (lit "theorem t : True := trivial")
           (lit "x") (lit "rfl") eq_refl eq_refl).
Defined.

(** X2: on a template with one occurrence of each marker, the code marker
    first, and a code candidate that brings no proof marker with it, bind
    puts the code in the place of the code marker and the proof in the
    place of the proof marker and leaves the rest as it is; the proof
    candidate may hold any text, markers included (lines 171-172). *)
Theorem bind_well_formed_template :
  forall a b d code proof,
    contains code_marker a = false ->
    contains code_marker (b ++ proof_marker ++ d) = false ->
    contains proof_marker (a ++ code ++ b) = false ->
    contains proof_marker d = false ->
    bind (a ++ code_marker ++ b ++ proof_marker ++ d) code proof
    = a ++ code ++ b ++ proof ++ d.
Proof.
  intros a b d code proof Ha Hb Hacb Hd. unfold bind.
  rewrite (replace_split code_marker code code_marker_nonempty
             code_marker_no_overlap).
  rewrite !(replace_absent code_marker) by assumption.
  replace (a ++ code ++ b ++ proof_marker ++ d)
    with ((a ++ code ++ b) ++ proof_marker ++ d)
    by now rewrite <- !app_assoc.
  rewrite (replace_split proof_marker proof proof_marker_nonempty
             proof_marker_no_overlap).
  rewrite !(replace_absent proof_marker) by assumption.
  now rewrite <- !app_assoc.
Qed.

Lemma bind_well_formed_template_witness :
  contains code_marker (lit "def f := ") = false /\
  contains code_marker (lit " theorem t := " ++ proof_marker ++ lit " end")
  = false /\
  contains proof_marker (lit "def f := " ++ lit "x+1" ++ lit " theorem t := ")
  = false /\
  contains proof_marker (lit " end") = false /\
  bind (lit "def f := " ++ code_marker ++ lit " theorem t := "
          ++ proof_marker ++ lit " end") (lit "x+1") (lit "{{code}}")
  = lit "def f := " ++ lit "x+1" ++ lit " theorem t := " ++ lit "{{code}}"
      ++ lit " end".
Proof.
  do 4 (split; [reflexivity|]).
  exact (bind_well_formed_template (lit "def f := ") (lit " theorem t := ")
           (lit " end") (lit "x+1") (lit "{{code}}")
           eq_refl eq_refl eq_refl eq_refl).
Defined.

End MoreBinderFacts.

(* ===================================================================== *)
(** * More on the retry loop *)
(* ===================================================================== *)

Module MoreWorkflowFacts.
Import Str StrFacts Parser ParserFacts Binder Workflow WorkflowFacts Conversation.


Lemma alternating_app l1 l2 :
  alternating l1 = true -> alternating (l1 ++ l2) = alternating l2.
Proof.
  induction l1 as [l1 IH] using (induction_ltof1 _ (@length role)).
  unfold ltof in IH. intros H.
  destruct l1 as [|r1 [|r2 t]]; [reflexivity|destruct r1; discriminate|].
  destruct r1; try discriminate. destruct r2; try discriminate.
  cbn [alternating app] in *. apply IH; [simpl; lia|exact H].
Qed.

Lemma conversation_shape_app msgs r f :
  conversation_shape msgs = true ->
  conversation_shape
    (msgs ++ [ {| msg_role := assistant; content := r |};
               {| msg_role := user; content := f |} ]) = true.
Proof.
  unfold conversation_shape. rewrite map_app.
  destruct (map msg_role msgs) as [|r1 [|r2 t]]; try discriminate.
  - destruct r1; discriminate.
  - destruct r1; try discriminate. destruct r2; try discriminate.
    cbn [app]. intros H. now rewrite alternating_app.
Qed.

Lemma classify_not_success vr c p :
  contains success_marker vr = false -> classify vr c p <> Success.
Proof.
  intros H. unfold classify. rewrite H.
  destruct (contains sorry c || contains sorry p); discriminate.
Qed.

Section Loop.

Variable unicode_alnum : char -> bool.
Variable get_response : nat -> list message -> str.
Variable execute_lean_code : nat -> str -> str.
Variable system_prompt : str.
Variable user_prompt : str -> str -> str.
Variable problem_description : str.
Variable task_lean_code : str.

Local Abbreviation attempt :=
  (attempt unicode_alnum get_response execute_lean_code task_lean_code).
Local Abbreviation while_loop :=
  (while_loop unicode_alnum get_response execute_lean_code task_lean_code).
Local Abbreviation response_of := (response_of get_response).
Local Abbreviation candidates_of := (candidates_of unicode_alnum get_response).
Local Abbreviation program_of :=
  (program_of unicode_alnum get_response task_lean_code).
Local Abbreviation verification_result_of :=
  (verification_result_of unicode_alnum get_response execute_lean_code
     task_lean_code).
Local Abbreviation branch_of :=
  (branch_of unicode_alnum get_response execute_lean_code task_lean_code).
Local Abbreviation feedback_of :=
  (feedback_of unicode_alnum get_response execute_lean_code task_lean_code).
Local Abbreviation after_attempt :=
  (after_attempt unicode_alnum get_response execute_lean_code task_lean_code).
Local Abbreviation initial_state :=
  (initial_state system_prompt user_prompt problem_description task_lean_code).
Local Abbreviation run :=
  (run unicode_alnum get_response execute_lean_code system_prompt user_prompt
     problem_description task_lean_code).
Local Abbreviation main_workflow :=
  (main_workflow unicode_alnum get_response execute_lean_code system_prompt
     user_prompt problem_description task_lean_code).
Local Abbreviation while_loop_step :=
  (while_loop_step unicode_alnum get_response execute_lean_code
     task_lean_code).
Local Abbreviation while_loop_exit :=
  (while_loop_exit unicode_alnum get_response execute_lean_code
     task_lean_code).
Local Abbreviation parse_code_proof := (parse_code_proof unicode_alnum).

(** A pass that does not succeed is counted and the loop goes on. *)
Lemma while_loop_retry fuel st :
  retries st < max_retries ->
  branch_of st <> Success ->
  while_loop (S fuel) st = while_loop fuel (after_attempt st) /\
  retries (after_attempt st) = S (retries st) /\
  messages (after_attempt st) =
    messages st ++
      [ {| msg_role := assistant; content := response_of st |};
        {| msg_role := user; content := feedback_of st |} ].
Proof.
  intros Hlt Hb. rewrite while_loop_step by exact Hlt.
  cbn [Workflow.after_attempt retries messages].
  destruct (branch_of st); [congruence| |]; repeat split.
Qed.

Lemma after_attempt_trace st :
  trace (after_attempt st)
  = trace st ++ [ModelCall (messages st); VerifierCall (program_of st)].
Proof. reflexivity. Qed.

Lemma after_attempt_model_calls st :
  model_calls (trace (after_attempt st)) = S (model_calls (trace st)) /\
  verifier_calls (trace (after_attempt st)) = S (verifier_calls (trace st)).
Proof.
  rewrite after_attempt_trace, model_calls_app, verifier_calls_app.
  cbn. lia.
Qed.

(** The shape of the conversation is kept by the loop, and every
    conversation sent to the model has it. *)
Lemma while_loop_shape fuel :
  forall st st',
    while_loop fuel st = Some st' ->
    conversation_shape (messages st) = true ->
    (forall sent, In (ModelCall sent) (trace st) ->
       conversation_shape sent = true) ->
    conversation_shape (messages st') = true /\
    (forall sent, In (ModelCall sent) (trace st') ->
       conversation_shape sent = true).
Proof.
  induction fuel as [|fuel IH]; intros st st' Hrun Hshape Htrace.
  - cbn [Workflow.while_loop] in Hrun.
    destruct (retries st <? max_retries); [discriminate|].
    injection Hrun as <-. now split.
  - destruct (Nat.lt_ge_cases (retries st) max_retries) as [Hlt|Hge].
    2:{ rewrite while_loop_exit in Hrun by exact Hge. injection Hrun as <-.
        now split. }
    rewrite while_loop_step in Hrun by exact Hlt.
    assert (Htr : forall sent, In (ModelCall sent) (trace (after_attempt st))
                    -> conversation_shape sent = true).
    { intros sent Hin. rewrite after_attempt_trace in Hin.
      apply in_app_or in Hin as [Hin|Hin]; [now apply Htrace|].
      destruct Hin as [Hin|[Hin|[]]]; [|discriminate].
      now injection Hin as <-. }
    assert (Hmsg : branch_of st <> Success ->
                   conversation_shape (messages (after_attempt st)) = true).
    { intros Hb. cbn [Workflow.after_attempt messages].
      destruct (branch_of st); [congruence| |];
        now apply conversation_shape_app. }
    destruct (branch_of st) eqn:Hb.
    + injection Hrun as <-. split; [|exact Htr].
      cbn [Workflow.after_attempt messages]. now rewrite Hb.
    + apply (IH _ _ Hrun); [apply Hmsg; discriminate|exact Htr].
    + apply (IH _ _ Hrun); [apply Hmsg; discriminate|exact Htr].
Qed.

Lemma run_total :
  exists st, run max_retries = Some st.
Proof.
  destruct (while_loop_invariant unicode_alnum get_response execute_lean_code
              task_lean_code max_retries initial_state)
    as (st & _ & Hrun & _); cbn [Workflow.initial_state retries]; try lia.
  now exists st.
Qed.

Lemma classify_success_iff vr c p :
  classify vr c p = Success <-> contains success_marker vr = true.
Proof.
  split; [|apply classify_success].
  unfold classify. destruct (contains success_marker vr); [reflexivity|].
  destruct (contains sorry c || contains sorry p); discriminate.
Qed.

(** The pass in which the loop ends: it succeeds, or it is the last one
    the budget allows. *)
Lemma while_loop_last fuel :
  forall st st',
    retries st < max_retries ->
    while_loop (S fuel) st = Some st' ->
    exists s0,
      st' = after_attempt s0 /\ retries s0 < max_retries /\
      (branch_of s0 = Success /\ retries st' = retries s0 \/
       branch_of s0 <> Success /\ retries st' = max_retries
       /\ S (retries s0) = max_retries).
Proof.
  induction fuel as [|fuel IH]; intros st st' Hlt Hrun;
    rewrite while_loop_step in Hrun by exact Hlt;
    destruct (branch_of st) eqn:Hb;
    try (injection Hrun as <-; exists st; split; [reflexivity|];
         split; [exact Hlt|]; left; split; [exact Hb|];
         cbn [Workflow.after_attempt retries]; now rewrite Hb).
  all: assert (Hr : retries (after_attempt st) = S (retries st))
         by (cbn [Workflow.after_attempt retries]; now rewrite Hb).
  all: destruct (Nat.lt_ge_cases (S (retries st)) max_retries) as [Hlt'|Hge].
  all: try (rewrite while_loop_exit in Hrun by (rewrite Hr; exact Hge);
            injection Hrun as <-; exists st; split; [reflexivity|];
            split; [exact Hlt|]; right;
            split; [rewrite Hb; discriminate|]; rewrite Hr; lia).
  - cbn [Workflow.while_loop] in Hrun. apply Nat.ltb_lt in Hlt'.
    rewrite Hr, Hlt' in Hrun. discriminate.
  - cbn [Workflow.while_loop] in Hrun. apply Nat.ltb_lt in Hlt'.
    rewrite Hr, Hlt' in Hrun. discriminate.
  - apply (IH _ _ ltac:(rewrite Hr; exact Hlt') Hrun).
  - apply (IH _ _ ltac:(rewrite Hr; exact Hlt') Hrun).
Qed.

(** The last pass again, with the count of the calls: up to the last pass
    every pass was counted, so the model had been called as often as the
    counter of retries tells. *)
Lemma while_loop_last_count fuel :
  forall st st',
    retries st < max_retries ->
    while_loop (S fuel) st = Some st' ->
    exists s0,
      st' = after_attempt s0 /\ retries s0 < max_retries /\
      model_calls (trace s0) + retries st
      = model_calls (trace st) + retries s0 /\
      (branch_of s0 = Success /\ retries st' = retries s0 \/
       branch_of s0 <> Success /\ retries st' = max_retries
       /\ S (retries s0) = max_retries).
Proof.
  induction fuel as [|fuel IH]; intros st st' Hlt Hrun;
    rewrite while_loop_step in Hrun by exact Hlt;
    destruct (branch_of st) eqn:Hb;
    try (injection Hrun as <-; exists st; split; [reflexivity|];
         split; [exact Hlt|]; split; [reflexivity|]; left;
         split; [exact Hb|];
         cbn [Workflow.after_attempt retries]; now rewrite Hb).
  all: assert (Hr : retries (after_attempt st) = S (retries st))
         by (cbn [Workflow.after_attempt retries]; now rewrite Hb).
  all: destruct (after_attempt_model_calls st) as [Hc _].
  all: destruct (Nat.lt_ge_cases (S (retries st)) max_retries) as [Hlt'|Hge].
  all: try (rewrite while_loop_exit in Hrun by (rewrite Hr; exact Hge);
            injection Hrun as <-; exists st; split; [reflexivity|];
            split; [exact Hlt|]; split; [reflexivity|]; right;
            split; [rewrite Hb; discriminate|]; rewrite Hr; lia).
  - cbn [Workflow.while_loop] in Hrun. apply Nat.ltb_lt in Hlt'.
    rewrite Hr, Hlt' in Hrun. discriminate.
  - cbn [Workflow.while_loop] in Hrun. apply Nat.ltb_lt in Hlt'.
    rewrite Hr, Hlt' in Hrun. discriminate.
  - destruct (IH _ _ ltac:(rewrite Hr; exact Hlt') Hrun)
      as (s0 & E & Hs0 & Hcount & Hcase).
    exists s0. repeat split; trivial. lia.
  - destruct (IH _ _ ltac:(rewrite Hr; exact Hlt') Hrun)
      as (s0 & E & Hs0 & Hcount & Hcase).
    exists s0. repeat split; trivial. lia.
Qed.

(** The last pass of the run. *)
Lemma run_last_pass :
  exists s0,
    run max_retries = Some (after_attempt s0) /\
    retries s0 < max_retries /\
    model_calls (trace s0) = retries s0 /\
    (branch_of s0 = Success /\ retries (after_attempt s0) = retries s0 \/
     branch_of s0 <> Success /\ retries (after_attempt s0) = max_retries
     /\ S (retries s0) = max_retries).
Proof.
  destruct run_total as [st Hrun].
  destruct (while_loop_last_count 2 initial_state st)
    as (s0 & -> & Hlt & Hcount & Hcase).
  { cbn [Workflow.initial_state retries]. unfold max_retries. lia. }
  { exact Hrun. }
  exists s0. split; [exact Hrun|]. split; [exact Hlt|].
  split; [|exact Hcase].
  cbn [Workflow.initial_state retries trace] in Hcount.
  change (model_calls []) with 0 in Hcount. lia.
Qed.

(** X3: whatever the model answers and the runner prints, the workflow
    returns after at least one call to the model, and the runner has then
    been called exactly as often as the model.  The last pass leaves
    through the success branch exactly when the output of the runner
    holds the success marker, and exactly then retries are left at the
    end; the number of calls is then one more than the counter of
    retries, and it is the counter of retries when the loop ends because
    none is left (lines 158-199). *)
Theorem calls_come_in_pairs :
  exists st s0,
    run max_retries = Some st /\
    main_workflow = Some (result_of st) /\
    1 <= model_calls (trace st) /\
    verifier_calls (trace st) = model_calls (trace st) /\
    retries st <= model_calls (trace st) <= S (retries st) /\
    model_calls (trace st)
    = (if retries st <? max_retries then S (retries st) else retries st) /\
    attempt s0 = (st, retries st <? max_retries) /\
    contains success_marker (verification_result_of s0)
    = (retries st <? max_retries).
Proof.
  destruct run_last_pass as (s0 & Hrun & Hlt & Hcount & Hcase).
  destruct (while_loop_invariant unicode_alnum get_response execute_lean_code
              task_lean_code max_retries initial_state)
    as (st & ext & Hrun' & _ & _ & Hv & _);
    cbn [Workflow.initial_state retries]; try lia.
  pose proof Hrun as Hrun2. unfold Workflow.run in Hrun2.
  rewrite Hrun2 in Hrun'. injection Hrun' as <-. clear Hrun2.
  cbn [Workflow.initial_state retries trace] in Hv.
  change (model_calls []) with 0 in Hv. change (verifier_calls []) with 0 in Hv.
  destruct (after_attempt_model_calls s0) as [Hc _].
  exists (after_attempt s0), s0.
  split; [exact Hrun|]. split.
  { unfold Workflow.main_workflow. now rewrite Hrun. }
  split; [lia|]. split; [lia|].
  rewrite (attempt_eq unicode_alnum get_response execute_lean_code
             task_lean_code).
  destruct Hcase as [[Hb Hr] | (Hb & Hr & Hn)].
  - assert (Hl : (retries (after_attempt s0) <? max_retries) = true)
      by (apply Nat.ltb_lt; lia).
    rewrite Hl, Hb. split; [lia|]. split; [lia|]. split; [reflexivity|].
    now apply classify_success_iff in Hb.
  - assert (Hl : (retries (after_attempt s0) <? max_retries) = false)
      by (apply Nat.ltb_ge; lia).
    rewrite Hl. split; [lia|]. split; [lia|]. split.
    + destruct (branch_of s0); [congruence|reflexivity|reflexivity].
    + destruct (contains success_marker (verification_result_of s0)) eqn:E;
        [|reflexivity].
      exfalso. apply Hb. now apply classify_success_iff.
Qed.

(** X4: the initial values of lines 53-54 are always overwritten.  The
    calls of the workflow end with a call to the model and a call to the
    runner, and the result of the workflow is the pair that the parser
    gives for the answer of the model in that last call; the program
    handed to the runner is the template bound to this pair.  So neither
    field of the result is empty and neither holds a fence
    (lines 161-175, 204-207). *)
Theorem result_is_parsed :
  exists st tr sent,
    run max_retries = Some st /\
    main_workflow = Some (result_of st) /\
    trace st =
      tr ++ [ ModelCall sent;
              VerifierCall (bind task_lean_code (code (result_of st))
                              (proof (result_of st))) ] /\
    let response := get_response (model_calls tr) sent in
    code (result_of st) = fst (parse_code_proof response) /\
    proof (result_of st) = snd (parse_code_proof response) /\
    code (result_of st) <> [] /\ proof (result_of st) <> [] /\
    contains Re.fence (code (result_of st)) = false /\
    contains Re.fence (proof (result_of st)) = false.
Proof.
  destruct run_last_pass as (s0 & Hrun & _ & Hcount & _).
  exists (after_attempt s0), (trace s0), (messages s0).
  split; [exact Hrun|]. split.
  { unfold Workflow.main_workflow. now rewrite Hrun. }
  split; [reflexivity|]. cbn zeta. rewrite Hcount.
  change (get_response (retries s0) (messages s0)) with (response_of s0).
  destruct (parsed_pair_nonempty unicode_alnum (response_of s0)) as [Hc1 Hp1].
  destruct (ReparseFacts.parsed_pair_no_fence unicode_alnum (response_of s0))
    as [Hc2 Hp2].
  repeat split; assumption.
Qed.

Lemma alternating_last l d :
  alternating l = true -> last (user :: l) d = user.
Proof.
  induction l as [l IH] using (induction_ltof1 _ (@length role)).
  unfold ltof in IH. intros H.
  destruct l as [|r1 [|r2 t]]; [reflexivity|destruct r1; discriminate|].
  destruct r1; try discriminate. destruct r2; try discriminate.
  cbn [alternating] in H.
  change (last (user :: assistant :: user :: t) d) with (last (user :: t) d).
  apply IH; [simpl; lia|exact H].
Qed.

Lemma conversation_shape_last msgs :
  conversation_shape msgs = true ->
  hd_error (map msg_role msgs) = Some system /\
  last (map msg_role msgs) system = user.
Proof.
  unfold conversation_shape.
  destruct (map msg_role msgs) as [|r1 [|r2 t]]; try discriminate.
  - destruct r1; discriminate.
  - destruct r1; try discriminate. destruct r2; try discriminate.
    intros H. split; [reflexivity|].
    change (last (system :: user :: t) system) with (last (user :: t) system).
    now apply alternating_last.
Qed.

(** X5: every conversation that is sent to the model, and the conversation
    at the end of the workflow, opens with the system prompt and the user
    prompt and goes on with answers of the assistant each followed by a
    user message; so it ends with a user message
    (lines 153-156, 183-197). *)
Theorem conversations_keep_their_shape :
  forall st sent,
    run max_retries = Some st ->
    In (ModelCall sent) (trace st) ->
    conversation_shape (messages st) = true /\
    conversation_shape sent = true /\
    hd_error (map msg_role sent) = Some system /\
    last (map msg_role sent) system = user.
Proof.
  intros st sent Hrun Hin.
  destruct (while_loop_shape _ _ _ Hrun) as [Hm Ht].
  - reflexivity.
  - intros sent' [].
  - split; [exact Hm|]. split; [now apply Ht|].
    now apply conversation_shape_last, Ht.
Qed.

(** X6: when the runner never prints the success marker, the loop makes
    exactly three passes, each with one call to the model and one to the
    runner, the conversation ends with eight messages, and the result is
    the pair parsed from the third response, verified or not
    (lines 158-207). *)
Theorem budget_exhausted :
  (forall n program,
     contains success_marker (execute_lean_code n program) = false) ->
  let st1 := after_attempt initial_state in
  let st2 := after_attempt st1 in
  let st3 := after_attempt st2 in
  run max_retries = Some st3 /\
  main_workflow =
    Some {| code := fst (candidates_of st2);
            proof := snd (candidates_of st2) |} /\
  retries st3 = max_retries /\
  model_calls (trace st3) = max_retries /\
  verifier_calls (trace st3) = max_retries /\
  length (messages st3) = 2 + 2 * max_retries.
Proof.
  intros Hfail st1 st2 st3.
  assert (Hb : forall st, branch_of st <> Success).
  { intros st. apply classify_not_success, Hfail. }
  destruct (while_loop_retry 2 initial_state) as (H1 & Hr1 & Hm1);
    [unfold max_retries; cbn; lia | apply Hb |].
  fold st1 in H1, Hr1, Hm1.
  destruct (while_loop_retry 1 st1) as (H2 & Hr2 & Hm2);
    [rewrite Hr1; unfold max_retries; cbn; lia | apply Hb |].
  fold st2 in H2, Hr2, Hm2.
  destruct (while_loop_retry 0 st2) as (H3 & Hr3 & Hm3);
    [rewrite Hr2, Hr1; unfold max_retries; cbn; lia | apply Hb |].
  fold st3 in H3, Hr3, Hm3.
  assert (Hret : retries st3 = max_retries).
  { rewrite Hr3, Hr2, Hr1. reflexivity. }
  assert (Hrun : run max_retries = Some st3).
  { unfold Workflow.run. change max_retries with 3 at 1.
    rewrite H1, H2, H3. apply while_loop_exit. rewrite Hret. lia. }
  split; [exact Hrun|]. split.
  { unfold Workflow.main_workflow. rewrite Hrun. reflexivity. }
  split; [exact Hret|].
  destruct (after_attempt_model_calls st2) as [Hc3 Hv3].
  destruct (after_attempt_model_calls st1) as [Hc2 Hv2].
  destruct (after_attempt_model_calls initial_state) as [Hc1 Hv1].
  fold st1 in Hc1, Hv1, Hc2, Hv2. fold st2 in Hc2, Hv2, Hc3, Hv3.
  fold st3 in Hc3, Hv3.
  split; [rewrite Hc3, Hc2, Hc1; reflexivity|].
  split; [rewrite Hv3, Hv2, Hv1; reflexivity|].
  rewrite Hm3, Hm2, Hm1, !length_app. reflexivity.
Qed.

(** X7: when the verification result lacks the success marker and neither
    candidate contains the word sorry, the pass takes the last branch: it
    is counted, and the response and a feedback message that carries the
    verification result word for word are appended to the conversation
    (lines 185-199). *)
Theorem hard_failure_feedback :
  forall st,
    contains success_marker (verification_result_of st) = false ->
    contains sorry (fst (candidates_of st)) = false ->
    contains sorry (snd (candidates_of st)) = false ->
    branch_of st = HardFailure /\
    attempt st = (after_attempt st, false) /\
    retries (after_attempt st) = S (retries st) /\
    messages (after_attempt st) =
      messages st ++
        [ {| msg_role := assistant; content := response_of st |};
          {| msg_role := user;
             content := failure_feedback (verification_result_of st) |} ] /\
    occurs (verification_result_of st)
      (failure_feedback (verification_result_of st)).
Proof.
  intros st Hvr Hc Hp.
  assert (Hb : branch_of st = HardFailure).
  { unfold Workflow.branch_of, classify. now rewrite Hvr, Hc, Hp. }
  split; [exact Hb|].
  rewrite (attempt_eq unicode_alnum get_response execute_lean_code
             task_lean_code).
  cbn [Workflow.after_attempt retries messages].
  unfold Workflow.feedback_of. rewrite Hb.
  repeat split. unfold failure_feedback. eexists _, _. reflexivity.
Qed.

(** X8: the test of line 181 is a substring test: when the verification
    result lacks the success marker and one candidate contains the word
    sorry anywhere, the stub branch is taken, and the feedback is the fixed
    message of line 184, in which the verification result has no part. *)
Theorem stub_on_containment :
  forall st,
    contains success_marker (verification_result_of st) = false ->
    contains sorry (fst (candidates_of st))
    || contains sorry (snd (candidates_of st)) = true ->
    branch_of st = StubDetected /\
    feedback_of st = stub_feedback /\
    messages (after_attempt st) =
      messages st ++
        [ {| msg_role := assistant; content := response_of st |};
          {| msg_role := user; content := stub_feedback |} ].
Proof.
  intros st Hvr Hs.
  assert (Hb : branch_of st = StubDetected).
  { unfold Workflow.branch_of, classify. now rewrite Hvr, Hs. }
  split; [exact Hb|].
  cbn [Workflow.after_attempt messages].
  unfold Workflow.feedback_of. rewrite Hb. now split.
Qed.

(** X9: the pair that is returned has been through the runner, in the
    last pass of the loop.  When retries are left at the end the runner
    printed the success marker for it; when none is left it did not, and
    the pair is returned all the same (lines 158-207). *)
Theorem returned_pair_was_run :
  exists st n,
    run max_retries = Some st /\
    main_workflow = Some (result_of st) /\
    n < max_retries /\
    let program :=
      bind task_lean_code (code (result_of st)) (proof (result_of st)) in
    In (VerifierCall program) (trace st) /\
    (contains success_marker (execute_lean_code n program) = true
     /\ retries st = n
     \/
     contains success_marker (execute_lean_code n program) = false
     /\ retries st = max_retries /\ S n = max_retries).
Proof.
  destruct run_total as [st Hrun].
  destruct (while_loop_last 2 initial_state st) as (s0 & -> & Hlt & Hcase).
  { cbn [Workflow.initial_state retries]. unfold max_retries. lia. }
  { exact Hrun. }
  exists (after_attempt s0), (retries s0).
  split; [exact Hrun|]. split.
  { unfold Workflow.main_workflow. now rewrite Hrun. }
  split; [exact Hlt|]. cbn zeta. split.
  - rewrite after_attempt_trace. apply in_or_app. right. right. now left.
  - destruct Hcase as [[Hb Hr] | (Hb & Hr & Hn)].
    + left. split; [|exact Hr]. now apply classify_success_iff in Hb.
    + right. split; [|now split].
      destruct (contains success_marker
                  (execute_lean_code (retries s0)
                     (bind task_lean_code
                        (code (result_of (after_attempt s0)))
                        (proof (result_of (after_attempt s0)))))) eqn:E;
        [|reflexivity].
      exfalso. apply Hb. now apply classify_success_iff.
Qed.

(** A field whose marker is missing is the sentinel. *)
Lemma unmarked_field response :
  (contains_ci Re.CODE response = false ->
   fst (parse_code_proof response) = sorry) /\
  (contains_ci Re.PROOF response = false ->
   snd (parse_code_proof response) = sorry).
Proof.
  unfold Parser.parse_code_proof. cbn [fst snd]. split; intros H.
  - now rewrite (code_section_absent _ H).
  - now rewrite (proof_section_absent _ H).
Qed.

(** X10: a response that lacks one of the two markers, in any case of the
    letters, never takes the pass into the last branch: unless the runner
    prints the success marker, the pass is counted and the feedback is the
    fixed message about the sentinel, not the output of the runner
    (lines 13-17, 34-37, 178-184). *)
Theorem unmarked_response_is_stub :
  forall st,
    contains_ci Re.CODE (response_of st) = false
    \/ contains_ci Re.PROOF (response_of st) = false ->
    branch_of st <> HardFailure /\
    (contains success_marker (verification_result_of st) = false ->
     branch_of st = StubDetected /\
     feedback_of st = stub_feedback /\
     retries (after_attempt st) = S (retries st)).
Proof.
  intros st Hmark.
  assert (Hs : contains sorry (fst (candidates_of st))
               || contains sorry (snd (candidates_of st)) = true).
  { destruct (unmarked_field (response_of st)) as [Hc Hp].
    unfold Workflow.candidates_of.
    destruct Hmark as [H|H]; [rewrite (Hc H)|rewrite (Hp H)];
      rewrite contains_self; [reflexivity|apply orb_true_r]. }
  assert (Hb : branch_of st <> HardFailure).
  { unfold Workflow.branch_of, classify.
    destruct (contains success_marker _); [discriminate|].
    rewrite Hs. discriminate. }
  split; [exact Hb|]. intros Hvr.
  assert (Hb' : branch_of st = StubDetected).
  { unfold Workflow.branch_of, classify. now rewrite Hvr, Hs. }
  split; [exact Hb'|]. unfold Workflow.feedback_of.
  cbn [Workflow.after_attempt retries]. now rewrite Hb'.
Qed.

End Loop.

Import Samples.

Lemma budget_exhausted_witness :
  (forall n program,
     contains success_marker (rejecting_runner n program) = false) /\
  main_workflow ascii_only partial_model rejecting_runner [] no_prompt []
    template
  = Some {| code := lit "x"; proof := sorry |}.
Proof.
  split; [reflexivity|].
  exact (proj1 (proj2
    (budget_exhausted ascii_only partial_model rejecting_runner [] no_prompt
       [] template (fun _ _ => eq_refl)))).
Defined.

Lemma conversations_keep_their_shape_witness :
  run ascii_only partial_model rejecting_runner [] no_prompt [] template 3
  = Some (after_attempt ascii_only partial_model rejecting_runner template
            (after_attempt ascii_only partial_model rejecting_runner template
               (after_attempt ascii_only partial_model rejecting_runner
                  template start))) /\
  In (ModelCall
        (messages (after_attempt ascii_only partial_model rejecting_runner
                     template start)))
     (trace
        (after_attempt ascii_only partial_model rejecting_runner template
           (after_attempt ascii_only partial_model rejecting_runner template
              (after_attempt ascii_only partial_model rejecting_runner
                 template start)))) /\
  conversation_shape
    (messages (after_attempt ascii_only partial_model rejecting_runner
                 template start)) = true.
Proof.
  split; [reflexivity|].
  split; [right; right; left; reflexivity|].
  exact (proj1 (proj2
    (conversations_keep_their_shape ascii_only partial_model
       rejecting_runner [] no_prompt [] template _ _ eq_refl
       (or_intror (or_intror (or_introl eq_refl)))))).
Defined.

Lemma hard_failure_feedback_witness :
  contains success_marker
    (verification_result_of ascii_only full_model rejecting_runner template
       start) = false /\
  contains sorry (fst (candidates_of ascii_only full_model start)) = false /\
  contains sorry (snd (candidates_of ascii_only full_model start)) = false /\
  branch_of ascii_only full_model rejecting_runner template start
  = HardFailure.
Proof.
  do 3 (split; [reflexivity|]).
  exact (proj1
    (hard_failure_feedback ascii_only full_model rejecting_runner template
       start eq_refl eq_refl eq_refl)).
Defined.

Lemma stub_on_containment_witness :
  contains success_marker
    (verification_result_of ascii_only (constant_model (lit "CODE: sorry_x PROOF: rfl"))
       rejecting_runner template start) = false /\
  contains sorry
    (fst (candidates_of ascii_only (constant_model (lit "CODE: sorry_x PROOF: rfl"))
            start))
  || contains sorry
       (snd (candidates_of ascii_only (constant_model (lit "CODE: sorry_x PROOF: rfl"))
               start)) = true /\
  branch_of ascii_only (constant_model (lit "CODE: sorry_x PROOF: rfl")) rejecting_runner
    template start = StubDetected.
Proof.
  do 2 (split; [reflexivity|]).
  exact (proj1
    (stub_on_containment ascii_only (constant_model (lit "CODE: sorry_x PROOF: rfl"))
       rejecting_runner template start eq_refl eq_refl)).
Defined.

Lemma unmarked_response_is_stub_witness :
  (contains_ci Re.CODE (response_of partial_model start) = false
   \/ contains_ci Re.PROOF (response_of partial_model start) = false) /\
  branch_of ascii_only partial_model rejecting_runner template start
  <> HardFailure.
Proof.
  split; [right; reflexivity|].
  exact (proj1
    (unmarked_response_is_stub ascii_only partial_model rejecting_runner
       template start (or_intror eq_refl))).
Defined.

End MoreWorkflowFacts.

(* ===================================================================== *)
(** * More on the parser *)
(* ===================================================================== *)

Module MoreParserFacts.
Import Str StrFacts Re ReFacts Parser ParserFacts BulletFacts ReparseFacts Shapes.

(** ** Texts that do not begin with whitespace *)

Lemma skipn_take_while f (s : str) :
  skipn (length (take_while f s)) s = drop_while f s.
Proof.
  induction s as [|c t IH]; [reflexivity|].
  cbn [take_while drop_while]. destruct (f c); [exact IH|reflexivity].
Qed.

Lemma rstrip_prefix y : exists z, y = rstrip y ++ z.
Proof.
  unfold rstrip. exists (rev (take_while is_space (rev y))).
  rewrite <- rev_app_distr, take_drop_while. now rewrite rev_involutive.
Qed.

Lemma strip_unindented s : lstrip (strip s) = strip s.
Proof.
  unfold strip, lstrip at 1.
  pose proof (drop_while_idem is_space s) as Hy. fold (lstrip s) in Hy.
  destruct (rstrip_prefix (lstrip s)) as [z Hz].
  destruct (rstrip (lstrip s)) as [|c t]; [reflexivity|].
  rewrite Hz in Hy. cbn [app] in Hy.
  apply drop_while_stop. exact (unindented_head _ _ _ Hy).
Qed.

(** The patterns that end in [\s*] settle. *)
Lemma settles_star_space :
  settles (star is_space done).
Proof.
  intros s n H. rewrite star_done in H. injection H as <-.
  rewrite skipn_take_while. apply drop_while_idem.
Qed.

Lemma skipn_add {A} n m (l : list A) : skipn (n + m) l = skipn m (skipn n l).
Proof.
  revert l. induction n as [|n IH]; intros l; [reflexivity|].
  destruct l as [|a l]; [now rewrite !skipn_nil|]. apply IH.
Qed.

Lemma settles_literal p k : settles k -> settles (literal p k).
Proof.
  intros Hk s n H. unfold literal in H.
  destruct (starts_with p s); [|discriminate].
  destruct (k (skipn (length p) s)) as [j|] eqn:E; [|discriminate].
  cbn [shift option_map] in H. injection H as <-. rewrite skipn_add. now apply Hk.
Qed.

Lemma settles_one cls k : settles k -> settles (one cls k).
Proof.
  intros Hk s n H. unfold one in H. destruct s as [|c t]; [discriminate|].
  destruct (cls c); [|discriminate]. unfold shift in H.
  destruct (k t) as [j|] eqn:E; [|discriminate].
  injection H as <-. exact (Hk t j E).
Qed.

Lemma settles_star cls k : settles k -> settles (star cls k).
Proof.
  intros Hk s. induction s as [|c t IH]; intros n H.
  - now apply Hk.
  - cbn [star] in H. destruct (cls c); [|now apply Hk].
    destruct (star cls k t) as [j|] eqn:E; [|now apply Hk].
    injection H as <-. now apply IH.
Qed.

Lemma settles_plus cls k : settles k -> settles (plus cls k).
Proof. intros Hk. now apply settles_one, settles_star. Qed.

Lemma settles_optional p k : settles k -> settles (optional p k).
Proof.
  intros Hk s n H. unfold optional in H.
  destruct (literal p k s) as [j|] eqn:E.
  - injection H as <-. now apply (settles_literal p k Hk s).
  - now apply Hk.
Qed.

Lemma settles_none : settles (fun _ => None).
Proof. intros s n H. discriminate. Qed.

Lemma fence_open_settles prev : settles (fence_open prev).
Proof.
  apply settles_literal, settles_optional, settles_star_space.
Qed.

Lemma def_header_settles ua prev : settles (def_header ua prev).
Proof.
  unfold def_header. destruct (at_line_start prev); [|apply settles_none].
  repeat first [ apply settles_star_space | apply settles_literal
               | apply settles_plus | apply settles_star ].
Qed.

(** Deleting the matches of a pattern that settles keeps the text from
    beginning with whitespace. *)
Lemma delete_unindented m :
  (forall prev, settles (m prev)) ->
  forall n s prev,
    length s <= n ->
    lstrip s = s -> lstrip (sub_from m [] 0 prev s) = sub_from m [] 0 prev s.
Proof.
  intros Hm. induction n as [|n IH]; intros s prev Hlen Hs.
  - destruct s; [|simpl in Hlen; lia].
    cbn [sub_from]. now destruct (m prev []).
  - destruct s as [|c t].
    + cbn [sub_from]. now destruct (m prev []).
    + pose proof (unindented_head _ _ _ Hs) as Hc.
      cbn [sub_from]. destruct (m prev (c :: t)) as [[|j]|] eqn:E.
      * cbn [app]. now apply drop_while_stop.
      * cbn [app].
        destruct (sub_from_drop m [] j (Some c) t) as [-> | [prev' ->]];
          [reflexivity|].
        apply IH.
        -- pose proof (length_skipn j t). simpl in Hlen. lia.
        -- exact (Hm prev (c :: t) (S j) E).
      * now apply drop_while_stop.
Qed.

Lemma strip_fences_unindented s :
  lstrip s = s -> lstrip (strip_fences s) = strip_fences s.
Proof.
  intros Hs. unfold strip_fences. rewrite fence_close_is_idle. unfold re_sub.
  now apply (delete_unindented fence_open fence_open_settles (length s)).
Qed.

Lemma or_sorry_unindented s : lstrip s = s -> lstrip (or_sorry s) = or_sorry s.
Proof. destruct s; [reflexivity|trivial]. Qed.

Lemma normalize_bullets_unindented s :
  lstrip s = s -> lstrip (normalize_bullets s) = normalize_bullets s.
Proof.
  intros Hs. unfold normalize_bullets, re_sub, lstrip.
  apply (pass_head is_period is_period_not_space).
  now apply (pass_head is_bullet is_bullet_not_space).
Qed.

Section Parse.

Variable unicode_alnum : char -> bool.

Local Abbreviation strip_def_header := (strip_def_header unicode_alnum).
Local Abbreviation parse_code_proof := (parse_code_proof unicode_alnum).

(** X11: whatever the text, nothing of it that is left by lines 20-23 holds
    a fence, and going through these lines a second time changes
    nothing. *)
Theorem fences_all_removed :
  forall s,
    contains fence (strip_fences s) = false /\
    strip_fences (strip_fences s) = strip_fences s.
Proof.
  intros s. pose proof (strip_fences_no_fence s) as H.
  split; [exact H|]. now apply strip_fences_fixed.
Qed.

(** X12: the closing pattern of lines 21 and 23 never finds a match: the
    opening pattern of lines 20 and 22 has removed every fence before, so
    the two lines change nothing. *)
Theorem closing_fence_pass_is_idle :
  forall s,
    strip_fences s = re_sub fence_open [] s /\
    forall prev x y,
      re_sub fence_open [] s = x ++ y -> fence_close prev y = None.
Proof.
  intros s. split; [apply fence_close_is_idle|].
  intros prev x y Hxy. apply fence_close_miss.
  pose proof (fence_open_leaves_no_fence (length s) s None (le_n _)) as H.
  fold (re_sub fence_open [] s) in H. rewrite Hxy in H.
  destruct (drop_while_suffix is_space y) as [w Hw].
  rewrite Hw, app_assoc in H.
  exact (contains_false _ _ H _ _ eq_refl).
Qed.

(** X13: the two bullet substitutions of lines 30-31 together are
    idempotent, on every text. *)
Theorem bullets_normalized_once :
  forall proof,
    normalize_bullets (normalize_bullets proof) = normalize_bullets proof.
Proof. exact normalize_bullets_idempotent. Qed.

(** X14: neither the code nor the proof that the parser returns begins
    with whitespace, whatever the response (lines 16-37). *)
Theorem parsed_fields_unindented :
  forall response,
    lstrip (fst (parse_code_proof response))
    = fst (parse_code_proof response) /\
    lstrip (snd (parse_code_proof response))
    = snd (parse_code_proof response).
Proof.
  intros response. unfold Parser.parse_code_proof. cbn [fst snd]. split.
  - apply or_sorry_unindented. unfold Parser.strip_def_header, re_sub.
    apply (delete_unindented (def_header unicode_alnum)
             (def_header_settles unicode_alnum)
             (length (strip_fences (code_section response)))); [lia|].
    apply strip_fences_unindented. unfold code_section.
    destruct (search code_pattern response); [apply strip_unindented|reflexivity].
  - apply or_sorry_unindented, normalize_bullets_unindented,
      strip_fences_unindented.
    unfold proof_section.
    destruct (search proof_pattern response); [apply strip_unindented|reflexivity].
Qed.

Lemma some_line_starts_unfold p prev s :
  some_line_starts p prev s =
  (at_line_start prev && starts_with p s) ||
  match s with
  | [] => false
  | c :: t => some_line_starts p (Some c) t
  end.
Proof. destruct s; reflexivity. Qed.

Lemma no_line_starts p :
  forall x prev y,
    some_line_starts p prev (x ++ y) = false ->
    at_line_start (prev_after prev x) = true ->
    starts_with p y = false.
Proof.
  induction x as [|c x IH]; intros prev y H Hat.
  - cbn [app] in H. rewrite some_line_starts_unfold in H.
    apply orb_false_iff in H as [H _]. cbn in Hat. rewrite Hat in H.
    exact H.
  - cbn [app] in H. rewrite some_line_starts_unfold in H.
    apply orb_false_iff in H as [_ H]. rewrite prev_after_cons in Hat.
    now apply (IH (Some c)).
Qed.

(** X15: the substitution of line 26 leaves a code text as it is when
    none of its lines begins with the letters def. *)
Theorem header_needs_a_def_line :
  forall code,
    some_line_starts (lit "def") None code = false ->
    strip_def_header code = code.
Proof.
  intros code H. unfold Parser.strip_def_header, re_sub.
  assert (Hm : forall x y, code = x ++ y ->
                 def_header unicode_alnum (prev_after None x) y = None).
  { intros x y Hxy. unfold def_header.
    destruct (at_line_start (prev_after None x)) eqn:E; [|reflexivity].
    apply literal_miss. subst code. now apply (no_line_starts _ x None y). }
  pose proof (sub_from_copy_run (def_header unicode_alnum) [] code None [])
    as Hrun.
  rewrite app_nil_r in Hrun. rewrite Hrun.
  - cbn [sub_from]. rewrite (Hm code []) by now rewrite app_nil_r.
    now rewrite app_nil_r.
  - intros x1 x2 Hxx _. rewrite app_nil_r. now apply Hm.
Qed.

End Parse.

Lemma closing_fence_pass_is_idle_witness :
  re_sub fence_open [] (lit "```lean
x
```") = [] ++ lit "x
" /\
  fence_close None (lit "x
") = None.
Proof.
  split; [reflexivity|].
  exact (proj2 (closing_fence_pass_is_idle (lit "```lean
x
```")) None [] (lit "x
") eq_refl).
Defined.

Lemma header_needs_a_def_line_witness :
  some_line_starts (lit "def") None (lit "let y := undef x
  y + 1") = false /\
  strip_def_header Samples.ascii_only (lit "let y := undef x
  y + 1") = lit "let y := undef x
  y + 1".
Proof.
  split; [reflexivity|].
  exact (header_needs_a_def_line Samples.ascii_only (lit "let y := undef x
  y + 1") eq_refl).
Defined.

End MoreParserFacts.

(* ===================================================================== *)
(** * The normal form of the bullets *)
(* ===================================================================== *)

Module BulletFormFacts.
Import Str StrFacts Re ReFacts Parser ParserFacts BulletFacts.

Local Abbreviation pass glyph prev s :=
  (sub_from (bullet_line glyph) canonical_bullet 0 prev s).

(** Two ways to cut a text at its first character that is no whitespace
    agree. *)
Lemma indentation_unique (ws1 ws2 : str) (d1 d2 : char) r1 r2 :
  forallb is_space ws1 = true -> forallb is_space ws2 = true ->
  is_space d1 = false -> is_space d2 = false ->
  ws1 ++ d1 :: r1 = ws2 ++ d2 :: r2 ->
  ws1 = ws2 /\ d1 = d2 /\ r1 = r2.
Proof.
  revert ws2. induction ws1 as [|a ws1 IH]; intros ws2 H1 H2 Hd1 Hd2 E.
  - destruct ws2 as [|b ws2].
    + injection E as -> ->. now repeat split.
    + injection E as -> _. cbn in H2. apply andb_true_iff in H2 as [H2 _].
      congruence.
  - cbn in H1. apply andb_true_iff in H1 as [Ha H1].
    destruct ws2 as [|b ws2].
    + injection E as -> _. congruence.
    + injection E as -> E. cbn in H2. apply andb_true_iff in H2 as [_ H2].
      destruct (IH ws2 H1 H2 Hd1 Hd2 E) as (-> & -> & ->). now repeat split.
Qed.

(** Where a line start in front of indented text can be, seen from the
    first character that is no whitespace. *)
Lemma cut_at_indentation (ws0 : str) (d : char) r0 x ws (g : char) r :
  forallb is_space ws0 = true -> is_space d = false ->
  forallb is_space ws = true -> is_space g = false ->
  ws0 ++ d :: r0 = x ++ ws ++ g :: r ->
  (ws0 = x ++ ws /\ d = g /\ r0 = r) \/
  (exists x', x = ws0 ++ d :: x' /\ r0 = x' ++ ws ++ g :: r).
Proof.
  intros H0 Hd Hws Hg E.
  apply app_eq_app in E as [l [[E1 E2] | [E1 E2]]].
  - left. subst ws0. rewrite forallb_app in H0.
    apply andb_true_iff in H0 as [_ Hl]. symmetry in E2.
    destruct (indentation_unique _ _ _ _ _ _ Hl Hws Hd Hg E2)
      as (-> & -> & ->).
    now repeat split.
  - destruct l as [|c l].
    + cbn [app] in E2. rewrite app_nil_r in E1. subst x.
      left. destruct ws as [|c ws].
      * cbn [app] in E2. injection E2 as -> ->. rewrite app_nil_r.
        now repeat split.
      * cbn [app] in E2. injection E2 as -> _. cbn in Hws.
        apply andb_true_iff in Hws as [Hc _]. congruence.
    + cbn [app] in E2. injection E2 as -> ->. right. now exists l.
Qed.

Lemma at_line_start_last prev x :
  at_line_start prev = false ->
  at_line_start (prev_after prev x) = true ->
  exists y, x = y ++ [newline].
Proof.
  intros Hprev Hat. destruct x as [|c x] using rev_ind.
  - cbn in Hat. congruence.
  - rewrite prev_after_app in Hat. cbn in Hat. apply N.eqb_eq in Hat.
    subst c. now exists x.
Qed.

Lemma drop_while_dot_newline y t :
  exists b, drop_while is_dot (y ++ newline :: t) = newline :: b.
Proof.
  induction y as [|c y [b IH]].
  - now exists t.
  - cbn [app drop_while]. destruct (is_dot c) eqn:E.
    + now exists b.
    + apply space_is_dot_or_newline in E. subst c. now exists (y ++ newline :: t).
Qed.

(** A line start inside the indentation is a place where the pattern is
    tried. *)
Lemma approach_some prev x ws :
  at_line_start (prev_after prev x) = true ->
  approach prev (x ++ ws) <> None.
Proof.
  intros Hat. unfold approach.
  destruct (at_line_start prev) eqn:Hprev; [discriminate|].
  destruct (at_line_start_last prev x Hprev Hat) as [y ->].
  rewrite <- app_assoc. cbn [app].
  destruct (drop_while_dot_newline y ws) as [b ->]. discriminate.
Qed.

Lemma take_while_dot_newline y t :
  forallb is_dot y = true ->
  take_while is_dot (y ++ newline :: t) = y.
Proof.
  intros Hy. rewrite take_while_app by exact Hy.
  cbn [take_while]. change (is_dot newline) with false.
  now rewrite app_nil_r.
Qed.

Lemma single_newline_last (tk y ws : str) :
  forallb is_dot tk = true ->
  tk ++ [newline] = y ++ newline :: ws -> ws = [].
Proof.
  revert y. induction tk as [|a tk IH]; intros y Htk E.
  - destruct y as [|b y]; [now injection E|].
    injection E as _ E. now destruct y.
  - cbn in Htk. apply andb_true_iff in Htk as [Ha Htk].
    destruct y as [|b y].
    + injection E as -> _. discriminate.
    + injection E as _ E. now apply (IH y).
Qed.

(** When the first line start of the indentation is at its end, no line
    start lies further in front. *)
Lemma approach_whole prev x ws :
  at_line_start (prev_after prev x) = true ->
  approach prev (x ++ ws) = Some (x ++ ws, []) ->
  ws = [].
Proof.
  intros Hat. unfold approach.
  destruct (at_line_start prev) eqn:Hprev.
  - intros H. injection H as H. symmetry in H.
    now apply app_eq_nil in H as [_ ->].
  - destruct (at_line_start_last prev x Hprev Hat) as [y ->].
    rewrite <- app_assoc. cbn [app].
    destruct (drop_while_dot_newline y ws) as [b Hb]. rewrite Hb.
    intros H. injection H as H1 _.
    apply (single_newline_last _ _ _ (take_while_all is_dot _) H1).
Qed.

Section Form.

Variable glyph : char -> bool.
Hypothesis glyph_not_space : forall c, glyph c = true -> is_space c = false.

(** In a text that a pass leaves as it is, a glyph that is the first
    character behind a line start and whitespace is a middle dot at the
    line start, with one space and no more behind it. *)
Lemma fixed_form n :
  forall s, length s <= n ->
  forall prev,
    pass glyph prev s = s ->
    forall x ws g r,
      s = x ++ ws ++ g :: r ->
      at_line_start (prev_after prev x) = true ->
      forallb is_space ws = true ->
      glyph g = true ->
      ws = [] /\ g = middle_dot /\
      exists X, r = 32%N :: X /\ drop_while is_space X = X.
Proof.
  induction n as [|n IH]; intros s Hlen prev Hfix x ws g r Hs Hat Hws Hg.
  { rewrite Hs, !length_app in Hlen. simpl in Hlen. lia. }
  pose proof (glyph_not_space g Hg) as Hgs.
  destruct (split_indentation s) as (ws0 & H0 & [Hall | (d & r0 & Hd & Hds)]).
  { exfalso. rewrite Hall in Hs. rewrite Hs, !forallb_app in H0.
    apply andb_true_iff in H0 as [_ H0]. apply andb_true_iff in H0 as [_ H0].
    cbn in H0. rewrite Hgs in H0. discriminate. }
  rewrite Hd in Hfix, Hs, Hlen. clear Hd s.
  destruct (cut_at_indentation _ _ _ _ _ _ _ H0 Hds Hws Hgs Hs)
    as [(E1 & -> & ->) | (x' & -> & E2)].
  - subst ws0.
    destruct (fixed_inv glyph glyph_not_space _ _ _ _ H0 Hds Hfix)
      as [(_ & [Hng | Hnone]) | (Hmid & Happ & X & HX & HXu & _)].
    + congruence.
    + exfalso. now apply (approach_some prev x ws).
    + split; [now apply (approach_whole prev x ws)|].
      split; [exact Hmid|]. now exists X.
  - rewrite <- prev_after_app2, prev_after_cons in Hat.
    rewrite length_app in Hlen. simpl in Hlen.
    destruct (fixed_inv glyph glyph_not_space _ _ _ _ H0 Hds Hfix)
      as [(Hr0 & _) | (Hmid & _ & X & HX & _ & HXfix)].
    + apply (IH r0) with (prev := Some d) (x := x'); try assumption. lia.
    + rewrite E2 in HX. destruct x' as [|c x''].
      * exfalso. cbn in Hat. subst d. discriminate.
      * cbn [app] in HX. injection HX as -> HX.
        rewrite prev_after_cons in Hat.
        apply (IH X) with (prev := Some 32%N) (x := x''); try assumption.
        -- rewrite E2 in Hlen. simpl in Hlen. rewrite HX in Hlen. lia.
        -- now symmetry.
Qed.

End Form.

Lemma normalize_bullets_fixed proof :
  pass is_bullet None (normalize_bullets proof) = normalize_bullets proof /\
  pass is_period None (normalize_bullets proof) = normalize_bullets proof.
Proof.
  unfold normalize_bullets, re_sub.
  set (w := pass is_bullet None proof).
  assert (Hw : pass is_bullet None w = w).
  { apply (pass_twice is_bullet is_bullet_not_space (length proof)); auto. }
  split.
  - apply (bullets_after_periods (length w) w (le_n _) None None None Hw);
      auto.
  - apply (pass_twice is_period is_period_not_space (length w)); auto.
Qed.

(** X16: the normal form of the bullets.  In the text that lines 30-31
    give, a period, middle dot or round bullet that is the first character
    behind a line start and whitespace is a middle dot, stands at the line
    start itself, and has exactly one space behind it before the text of
    the line or the end. *)
Theorem bullets_normal_form :
  forall proof x ws g r,
    normalize_bullets proof = x ++ ws ++ g :: r ->
    at_line_start (prev_after None x) = true ->
    forallb is_space ws = true ->
    is_glyph g = true ->
    ws = [] /\ g = middle_dot /\
    exists X, r = 32%N :: X /\ lstrip X = X.
Proof.
  intros proof x ws g r Hs Hat Hws Hg.
  destruct (normalize_bullets_fixed proof) as [Hb Hp].
  unfold is_glyph in Hg. apply orb_true_iff in Hg as [Hg|Hg].
  - exact (fixed_form is_bullet is_bullet_not_space _ _ (le_n _) None Hb
             x ws g r Hs Hat Hws Hg).
  - exact (fixed_form is_period is_period_not_space _ _ (le_n _) None Hp
             x ws g r Hs Hat Hws Hg).
Qed.

Lemma bullets_normal_form_witness :
  normalize_bullets (lit "intro h
  . simp") = lit "intro h
" ++ [] ++ middle_dot :: lit " simp" /\
  at_line_start (prev_after None (lit "intro h
")) = true /\
  forallb is_space [] = true /\
  is_glyph middle_dot = true /\
  exists X, lit " simp" = 32%N :: X /\ lstrip X = X.
Proof.
  do 4 (split; [reflexivity|]).
  exact (proj2 (proj2
    (bullets_normal_form (lit "intro h
  . simp") (lit "intro h
") [] middle_dot (lit " simp") eq_refl eq_refl eq_refl eq_refl))).
Defined.

End BulletFormFacts.

(* ===================================================================== *)
(** * The context taken from the template *)
(* ===================================================================== *)

Module PromptFacts.
Import Str StrFacts Re ReFacts Parser ParserFacts BinderFacts BulletFacts
  ReparseFacts Shapes Prompt.

(** No occurrence of a marker that cannot overlap itself begins in a text
    without the marker, whatever follows. *)
Lemma no_early_exact m pre t :
  no_overlap m -> contains m pre = false ->
  forall x1 x2, pre = x1 ++ x2 -> x2 <> [] ->
    starts_with m (x2 ++ m ++ t) = false.
Proof.
  intros Hno Hc x1 x2 Hpre Hx2.
  destruct (Nat.lt_ge_cases (length x2) (length m)) as [Hlt|Hge].
  - rewrite app_assoc, starts_with_long by (rewrite length_app; lia).
    now apply Hno.
  - rewrite starts_with_long by exact Hge.
    exact (contains_false _ _ Hc x1 x2 Hpre).
Qed.

Lemma literal_then_hit {A} p (k : str -> option A) t :
  literal_then p k (p ++ t) = k t.
Proof.
  unfold literal_then.
  now rewrite starts_with_app, skipn_app, skipn_all, Nat.sub_diag.
Qed.

Lemma literal_then_miss {A} p (k : str -> option A) s :
  starts_with p s = false -> literal_then p k s = None.
Proof. intros H. unfold literal_then. now rewrite H. Qed.

(** A greedy run takes all there is when the rest of the pattern agrees. *)
Lemma star_then_run {A} cls (k : str -> option A) ws t r :
  forallb cls ws = true -> drop_while cls t = t -> k t = Some r ->
  star_then cls k (ws ++ t) = Some r.
Proof.
  intros Hws Ht Hk. induction ws as [|a ws IH].
  - destruct t as [|c t]; [exact Hk|].
    cbn [app star_then]. now rewrite (unindented_head _ _ _ Ht).
  - cbn in Hws. apply andb_true_iff in Hws as [Ha Hws].
    cbn [app star_then]. now rewrite Ha, IH.
Qed.

Lemma capture_star_run {A} cls (k : str -> str -> option A) w t r :
  forall acc,
    forallb cls w = true -> drop_while cls t = t ->
    k (acc ++ w) t = Some r ->
    capture_star cls k acc (w ++ t) = Some r.
Proof.
  induction w as [|a w IH]; intros acc Hw Ht Hk.
  - rewrite app_nil_r in Hk. destruct t as [|c t]; [exact Hk|].
    cbn [app capture_star]. now rewrite (unindented_head _ _ _ Ht).
  - cbn in Hw. apply andb_true_iff in Hw as [Ha Hw].
    cbn [app capture_star]. rewrite Ha, (IH (acc ++ [a])); trivial.
    now rewrite <- app_assoc.
Qed.

(** A lazy group grows as long as the rest of the pattern refuses. *)
Lemma capture_lazy_run {A} (k : str -> str -> option A) g t :
  forall acc,
    (forall g1 g2, g = g1 ++ g2 -> g2 <> [] ->
       k (acc ++ g1) (g2 ++ t) = None) ->
    capture_lazy k acc (g ++ t) = capture_lazy k (acc ++ g) t.
Proof.
  induction g as [|a g IH]; intros acc H.
  - now rewrite app_nil_r.
  - cbn [app capture_lazy].
    pose proof (H [] (a :: g) eq_refl) as H0. rewrite app_nil_r in H0.
    cbn [app] in H0. rewrite H0 by discriminate.
    rewrite (IH (acc ++ [a])); [now rewrite <- app_assoc|].
    intros g1 g2 -> Hg2. rewrite <- app_assoc. now apply (H (a :: g1) g2).
Qed.

Lemma capture_lazy_here {A} (k : str -> str -> option A) acc t r :
  k acc t = Some r -> capture_lazy k acc t = Some r.
Proof. intros H. destruct t; cbn [capture_lazy]; now rewrite H. Qed.

Lemma capture_lazy_none {A} (k : str -> str -> option A) s :
  forall acc,
    (forall x y, s = x ++ y -> k (acc ++ x) y = None) ->
    capture_lazy k acc s = None.
Proof.
  induction s as [|c s IH]; intros acc H.
  - cbn [capture_lazy]. pose proof (H [] [] eq_refl) as H0.
    rewrite app_nil_r in H0. now rewrite H0.
  - cbn [capture_lazy]. pose proof (H [] (c :: s) eq_refl) as H0.
    rewrite app_nil_r in H0. rewrite H0. apply IH.
    intros x y ->. rewrite <- app_assoc. now apply (H (c :: x) y).
Qed.

Lemma def_no_overlap : no_overlap (lit "def").
Proof.
  intros u Hne Hl. cbn in Hl.
  do 3 (overlap_case u). simpl in Hl. lia.
Qed.

Lemma gets_no_overlap : no_overlap (lit ":=").
Proof.
  intros u Hne Hl. cbn in Hl.
  do 2 (overlap_case u). simpl in Hl. lia.
Qed.

Lemma SPEC_START_no_overlap : no_overlap SPEC_START.
Proof.
  intros u Hne Hl. cbn in Hl.
  do 19 (overlap_case u). simpl in Hl. lia.
Qed.

Lemma SPEC_END_no_overlap : no_overlap SPEC_END.
Proof.
  intros u Hne Hl. cbn in Hl.
  do 17 (overlap_case u). simpl in Hl. lia.
Qed.

(** Word characters and whitespace, for an alphanumeric table that holds
    no whitespace. *)
Lemma word_not_space ua c :
  (forall w, is_space w = true -> ua w = false) ->
  is_word ua c = true -> is_space c = false.
Proof.
  intros Hu Hw. destruct (is_space c) eqn:Hs; [|reflexivity].
  unfold is_word in Hw. rewrite (Hu c Hs), andb_false_r, orb_false_r in Hw.
  unfold is_space in Hs.
  repeat rewrite ?orb_true_iff, ?andb_true_iff, ?N.leb_le, ?N.eqb_eq in Hw.
  repeat rewrite ?orb_true_iff, ?andb_true_iff, ?N.leb_le, ?N.eqb_eq in Hs.
  lia.
Qed.

Lemma space_not_word ua c :
  (forall w, is_space w = true -> ua w = false) ->
  is_space c = true -> is_word ua c = false.
Proof.
  intros Hu Hs. destruct (is_word ua c) eqn:Hw; [|reflexivity].
  rewrite (word_not_space ua c Hu Hw) in Hs. discriminate.
Qed.

Lemma star_then_none {A} cls (k : str -> option A) t :
  (forall y1 y2, take_while cls t = y1 ++ y2 ->
     k (y2 ++ drop_while cls t) = None) ->
  star_then cls k t = None.
Proof.
  induction t as [|c t IH]; intros H.
  - exact (H [] [] eq_refl).
  - cbn [star_then]. cbn [take_while drop_while] in H.
    destruct (cls c) eqn:E.
    + rewrite IH.
      * pose proof (H [] (c :: take_while cls t) eq_refl) as H0.
        cbn [app] in H0. now rewrite take_drop_while in H0.
      * intros y1 y2 Hy. apply (H (c :: y1) y2). cbn [app]. now rewrite Hy.
    + exact (H [] [] eq_refl).
Qed.

Lemma drop_while_space_before (a : str) (c : char) t :
  is_space c = false ->
  drop_while is_space (a ++ c :: t) = drop_while is_space a ++ c :: t.
Proof.
  intros Hc. induction a as [|x a IH].
  - cbn [app drop_while]. now rewrite Hc.
  - cbn [app drop_while]. destruct (is_space x); [exact IH|reflexivity].
Qed.

Lemma colon_behind_bracket_false g1 g2 :
  colon_behind_bracket (g1 ++ 41%N :: g2) = false ->
  starts_with (lit ":") (drop_while is_space g2) = false.
Proof.
  induction g1 as [|c g1 IH]; cbn [app colon_behind_bracket]; intros H;
    apply orb_false_iff in H as [H1 H2].
  - now rewrite N.eqb_refl in H1.
  - now apply IH.
Qed.

(** Behind a closing bracket that has no colon as its next character but
    whitespace, the rest of the function pattern finds no match. *)
Lemma no_colon_no_match {A} (k : str -> option A) g2 rest :
  starts_with (lit ":") (drop_while is_space g2) = false ->
  star_then is_space (literal_then (lit ":") k) (g2 ++ 41%N :: rest) = None.
Proof.
  intros H. apply star_then_none. intros y1 y2 Hy. apply literal_then_miss.
  destruct y2 as [|c y2].
  - cbn [app]. rewrite drop_while_space_before by reflexivity.
    destruct (drop_while is_space g2) as [|d t]; [reflexivity|].
    cbn [app]. cbn in H |- *. exact H.
  - assert (Hc : is_space c = true).
    { pose proof (take_while_all is_space (g2 ++ 41%N :: rest)) as Hall.
      rewrite Hy, forallb_app in Hall.
      apply andb_true_iff in Hall as [_ Hall]. cbn in Hall.
      now apply andb_true_iff in Hall as [Hall _]. }
    cbn [app]. change (lit ":") with [58%N]. cbn [starts_with].
    destruct (58 =? c)%N eqn:E; [|reflexivity].
    apply N.eqb_eq in E. subst c. discriminate.
Qed.

Section Signature.

Variable unicode_alnum : char -> bool.

Local Abbreviation is_word := (is_word unicode_alnum).
Local Abbreviation function_pattern := (function_pattern unicode_alnum).
Local Abbreviation function_match := (function_match unicode_alnum).
Local Abbreviation function_name := (function_name unicode_alnum).
Local Abbreviation function_args := (function_args unicode_alnum).
Local Abbreviation function_return := (function_return unicode_alnum).

Lemma function_pattern_here ws1 name ws2 args ws3 ret post :
  (forall w, is_space w = true -> unicode_alnum w = false) ->
  ws1 <> [] -> forallb is_space ws1 = true ->
  name <> [] -> forallb is_word name = true ->
  forallb is_space ws2 = true ->
  colon_behind_bracket args = false ->
  forallb is_space ws3 = true ->
  contains (lit ":=") ret = false ->
  function_pattern
    (lit "def" ++ ws1 ++ name ++ ws2 ++ lit "(" ++ args ++ lit ")" ++ ws3
       ++ lit ":" ++ ret ++ lit ":=" ++ post)
  = Some (name, args, ret).
Proof.
  intros Hu Hne1 Hws1 Hne Hname Hws2 Hargs Hws3 Hret.
  unfold Prompt.function_pattern. rewrite literal_then_hit.
  destruct ws1 as [|a ws1]; [congruence|].
  cbn in Hws1. apply andb_true_iff in Hws1 as [Ha Hws1].
  destruct name as [|b name]; [congruence|].
  cbn in Hname. apply andb_true_iff in Hname as [Hb Hname].
  cbn [app plus_then]. rewrite Ha.
  apply star_then_run; [exact Hws1| |].
  { apply drop_while_stop. now apply (word_not_space unicode_alnum). }
  cbn [capture_plus]. rewrite Hb.
  apply capture_star_run; [exact Hname| |].
  { destruct ws2 as [|c ws2]; [reflexivity|].
    cbn in Hws2. apply andb_true_iff in Hws2 as [Hc _].
    apply drop_while_stop. now apply space_not_word. }
  apply star_then_run; [exact Hws2|reflexivity|].
  rewrite literal_then_hit, capture_lazy_run.
  2:{ intros g1 g2 Hg Hg2. destruct g2 as [|c g2]; [congruence|].
      destruct (41 =? c)%N eqn:Ec.
      - apply N.eqb_eq in Ec. subst c args.
        change ((41%N :: g2) ++ lit ")" ++ ws3 ++ lit ":" ++ ret ++ lit ":="
                  ++ post)
          with (lit ")" ++ g2 ++ 41%N :: ws3 ++ lit ":" ++ ret ++ lit ":="
                  ++ post).
        rewrite literal_then_hit. apply no_colon_no_match.
        now apply (colon_behind_bracket_false g1 g2).
      - apply literal_then_miss. change (lit ")") with [41%N].
        cbn [app starts_with]. now rewrite Ec. }
  apply capture_lazy_here. cbn [app]. rewrite literal_then_hit.
  apply star_then_run; [exact Hws3|reflexivity|].
  rewrite literal_then_hit, capture_lazy_run.
  2:{ intros g1 g2 Hg Hg2. apply literal_then_miss.
      now apply (no_early_exact _ ret post gets_no_overlap Hret g1 g2). }
  apply capture_lazy_here. cbn [app]. now rewrite literal_then_hit.
Qed.

(** X17: the function pattern of line 62 on a template with a signature.
    When the letters def first occur in front of a signature made of
    whitespace, a name of word characters, an argument text in round
    brackets, a colon, a return text without the sign of definition
    inside, and that sign, the three groups are the name, the argument
    text and the return text as they stand, the return text with its
    whitespace.  The argument text may hold closing brackets, as it does
    when the signature has several groups of arguments, as long as none of
    them has a colon as the next character behind it (lines 62-65). *)
Theorem signature_extraction :
  (forall w, is_space w = true -> unicode_alnum w = false) ->
  forall pre ws1 name ws2 args ws3 ret post,
    contains (lit "def") pre = false ->
    ws1 <> [] -> forallb is_space ws1 = true ->
    name <> [] -> forallb is_word name = true ->
    forallb is_space ws2 = true ->
    colon_behind_bracket args = false ->
    forallb is_space ws3 = true ->
    contains (lit ":=") ret = false ->
    let task_lean_code :=
      pre ++ lit "def" ++ ws1 ++ name ++ ws2 ++ lit "(" ++ args ++ lit ")"
        ++ ws3 ++ lit ":" ++ ret ++ lit ":=" ++ post in
    function_name task_lean_code = name /\
    function_args task_lean_code = args /\
    function_return task_lean_code = ret.
Proof.
  intros Hu pre ws1 name ws2 args ws3 ret post Hpre Hne1 Hws1 Hne Hname
    Hws2 Hargs Hws3 Hret task_lean_code.
  assert (Hm : function_match task_lean_code = Some (name, args, ret)).
  { unfold Prompt.function_match, task_lean_code. rewrite search_skip.
    - rewrite search_unfold. now rewrite function_pattern_here.
    - intros x1 x2 Hx Hx2. unfold Prompt.function_pattern.
      apply literal_then_miss.
      now apply (no_early_exact _ pre _ def_no_overlap Hpre x1 x2). }
  unfold Prompt.function_name, Prompt.function_args, Prompt.function_return.
  now rewrite Hm.
Qed.

(** X18: the defaults of the context, each on its own.  A template
    without the letters def gives the three default texts of lines 63-65,
    whatever markers it holds; and a template that lacks one of the two
    specification markers gives the empty specification of line 69,
    whether it holds a signature or not. *)
Theorem context_defaults :
  forall task_lean_code,
    (contains (lit "def") task_lean_code = false ->
     function_name task_lean_code = lit "function" /\
     function_args task_lean_code = lit "args" /\
     function_return task_lean_code = lit "return_type") /\
    (contains SPEC_START task_lean_code = false
     \/ contains SPEC_END task_lean_code = false ->
     specification task_lean_code = []).
Proof.
  intros t. split.
  - intros Hdef.
    assert (Hm : function_match t = None).
    { apply search_none. intros x y Hxy. apply literal_then_miss.
      exact (contains_false _ _ Hdef x y Hxy). }
    unfold Prompt.function_name, Prompt.function_args,
      Prompt.function_return.
    rewrite Hm. now repeat split.
  - intros Hspec.
    unfold specification, spec_match. rewrite search_none; [reflexivity|].
    intros x y Hxy. unfold spec_pattern, literal_then.
    destruct (starts_with SPEC_START y) eqn:E; [|reflexivity].
    destruct Hspec as [Hs|He].
    + rewrite (contains_false _ _ Hs x y Hxy) in E. discriminate.
    + apply capture_lazy_none. intros x' y' Hxy'.
      destruct (starts_with SPEC_END y') eqn:E'; [|reflexivity].
      apply starts_with_skipn in E. rewrite E, Hxy' in Hxy.
      rewrite !app_assoc in Hxy.
      rewrite (contains_false _ _ He _ _ Hxy) in E'. discriminate.
Qed.

End Signature.

(** X19: the specification is the text between the first start marker
    and the first end marker behind it, stripped of the whitespace around
    it (lines 68-69). *)
Theorem specification_extraction :
  forall pre body post,
    contains SPEC_START pre = false ->
    contains SPEC_END body = false ->
    specification (pre ++ SPEC_START ++ body ++ SPEC_END ++ post)
    = strip body.
Proof.
  intros pre body post Hpre Hbody.
  unfold specification, spec_match. rewrite search_skip.
  - rewrite search_unfold. unfold spec_pattern at 1.
    rewrite literal_then_hit, capture_lazy_run.
    + rewrite (capture_lazy_here _ _ _ body); [reflexivity|].
      cbn [app]. now rewrite literal_then_hit.
    + intros g1 g2 Hg Hg2. apply literal_then_miss.
      now apply (no_early_exact _ body post SPEC_END_no_overlap Hbody g1 g2).
  - intros x1 x2 Hx Hx2. apply literal_then_miss.
    now apply (no_early_exact _ pre _ SPEC_START_no_overlap Hpre x1 x2).
Qed.

Lemma signature_extraction_witness :
  (forall w, is_space w = true -> Samples.ascii_only w = false) /\
  contains (lit "def") (lit "import Mathlib
") = false /\
  forallb is_space (lit " ") = true /\
  forallb (is_word Samples.ascii_only) (lit "add") = true /\
  colon_behind_bracket (lit "a : Int) (b : Int") = false /\
  contains (lit ":=") (lit " Int ") = false /\
  function_name Samples.ascii_only (lit "import Mathlib
def add (a : Int) (b : Int) : Int :=
  {{code}}") = lit "add" /\
  function_args Samples.ascii_only (lit "import Mathlib
def add (a : Int) (b : Int) : Int :=
  {{code}}") = lit "a : Int) (b : Int" /\
  function_return Samples.ascii_only (lit "import Mathlib
def add (a : Int) (b : Int) : Int :=
  {{code}}") = lit " Int ".
Proof.
  split; [reflexivity|]. do 5 (split; [reflexivity|]).
  exact (signature_extraction Samples.ascii_only (fun _ _ => eq_refl)
           (lit "import Mathlib
") (lit " ") (lit "add") (lit " ") (lit "a : Int) (b : Int") (lit " ")
           (lit " Int ") (lit "
  {{code}}")
           eq_refl ltac:(discriminate) eq_refl ltac:(discriminate) eq_refl
           eq_refl eq_refl eq_refl eq_refl).
Defined.

Lemma context_defaults_witness :
  contains (lit "def") (lit "-- << SPEC START >>
x = 1
-- << SPEC END >>") = false /\
  specification (lit "-- << SPEC START >>
x = 1
-- << SPEC END >>") = lit "x = 1" /\
  function_name Samples.ascii_only (lit "-- << SPEC START >>
x = 1
-- << SPEC END >>") = lit "function" /\
  contains SPEC_START (lit "def f (x : Nat) : Nat := {{code}}") = false /\
  function_name Samples.ascii_only (lit "def f (x : Nat) : Nat := {{code}}")
  = lit "f" /\
  specification (lit "def f (x : Nat) : Nat := {{code}}") = [].
Proof.
  do 2 (split; [reflexivity|]). split.
  { exact (proj1 (proj1 (context_defaults Samples.ascii_only
             (lit "-- << SPEC START >>
x = 1
-- << SPEC END >>")) eq_refl)). }
  do 2 (split; [reflexivity|]).
  exact (proj2 (context_defaults Samples.ascii_only
           (lit "def f (x : Nat) : Nat := {{code}}")) (or_introl eq_refl)).
Defined.

Lemma specification_extraction_witness :
  contains SPEC_START (lit "def f (x : Nat) : Nat := {{code}}
") = false /\
  contains SPEC_END (lit "
result = x
") = false /\
  specification (lit "def f (x : Nat) : Nat := {{code}}
-- << SPEC START >>
result = x
-- << SPEC END >>
theorem t : True := {{proof}}") = lit "result = x".
Proof.
  do 2 (split; [reflexivity|]).
  exact (specification_extraction (lit "def f (x : Nat) : Nat := {{code}}
") (lit "
result = x
") (lit "
theorem t : True := {{proof}}") eq_refl eq_refl).
Defined.

End PromptFacts.

(* ===================================================================== *)
(** * The signature pattern of line 26 *)
(* ===================================================================== *)

Module HeaderFacts.
Import Str StrFacts Re ReFacts Parser ParserFacts BulletFacts ReparseFacts
  Shapes MoreParserFacts PromptFacts.

(** ** Greedy runs with something to give back *)

Lemma star_none cls k t :
  (forall y1 y2, take_while cls t = y1 ++ y2 ->
     k (y2 ++ drop_while cls t) = None) ->
  star cls k t = None.
Proof.
  induction t as [|c t IH]; intros H.
  - exact (H [] [] eq_refl).
  - cbn [star]. cbn [take_while drop_while] in H.
    destruct (cls c) eqn:E.
    + rewrite IH.
      * pose proof (H [] (c :: take_while cls t) eq_refl) as H0.
        cbn [app] in H0. now rewrite take_drop_while in H0.
      * intros y1 y2 Hy. apply (H (c :: y1) y2). cbn [app]. now rewrite Hy.
    + exact (H [] [] eq_refl).
Qed.

Lemma star_first cls k t :
  (forall y1 y2, take_while cls t = y1 ++ y2 -> y1 <> [] ->
     k (y2 ++ drop_while cls t) = None) ->
  star cls k t = k t.
Proof.
  destruct t as [|c t]; intros H; [reflexivity|].
  cbn [star]. cbn [take_while drop_while] in H.
  destruct (cls c) eqn:E; [|reflexivity].
  rewrite star_none; [reflexivity|].
  intros y1 y2 Hy. apply (H (c :: y1) y2); [|discriminate].
  cbn [app]. now rewrite Hy.
Qed.

(** The engine gives back what a greedy run took until the rest of the
    pattern matches: the last place at which it does decides. *)
Lemma star_last cls k x t n :
  forallb cls x = true -> k t = Some n ->
  (forall y1 y2, take_while cls t = y1 ++ y2 -> y1 <> [] ->
     k (y2 ++ drop_while cls t) = None) ->
  star cls k (x ++ t) = Some (length x + n).
Proof.
  intros Hx Hk Hlater. induction x as [|a x IH].
  - cbn [app length Nat.add]. now rewrite star_first.
  - cbn in Hx. apply andb_true_iff in Hx as [Ha Hx].
    cbn [app star length]. now rewrite Ha, IH.
Qed.

Lemma star_run cls k ws t n :
  forallb cls ws = true -> drop_while cls t = t -> k t = Some n ->
  star cls k (ws ++ t) = Some (length ws + n).
Proof.
  intros Hws Ht Hk. apply star_last; trivial.
  intros y1 y2 Hy Hne. rewrite (take_while_unindented _ _ Ht) in Hy.
  symmetry in Hy. apply app_eq_nil in Hy as [-> _]. congruence.
Qed.

Lemma plus_run cls k a ws t n :
  cls a = true -> forallb cls ws = true -> drop_while cls t = t ->
  k t = Some n ->
  plus cls k ((a :: ws) ++ t) = Some (length (a :: ws) + n).
Proof.
  intros Ha Hws Ht Hk. unfold plus, one. cbn [app]. rewrite Ha.
  now rewrite (star_run cls k ws t n).
Qed.

Lemma literal_some p k t n :
  k t = Some n -> literal p k (p ++ t) = Some (length p + n).
Proof. intros H. now rewrite literal_hit, H. Qed.

(** ** Characters of a line *)

Lemma in_take_while f (a b : str) c :
  In c (take_while f (a ++ b)) -> In c a \/ In c (take_while f b).
Proof.
  induction a as [|x a IH]; [now right|].
  cbn [app take_while]. destruct (f x); [|intros []].
  intros [->|H]; [left; now left|].
  destruct (IH H) as [H1|H1]; [left; now right|now right].
Qed.

Lemma contains_single c s : contains [c] s = false -> ~ In c s.
Proof.
  induction s as [|d s IH]; intros H; [intros []|].
  rewrite contains_unfold in H. apply orb_false_iff in H as [H1 H2].
  cbn in H1. rewrite andb_true_r in H1. apply N.eqb_neq in H1.
  intros [E|E]; [congruence|now apply IH].
Qed.

Lemma starts_with_single c d t :
  starts_with [c] (d :: t) = true -> d = c.
Proof.
  cbn. rewrite andb_true_r. intros H. apply N.eqb_eq in H. now symmetry.
Qed.

Lemma drop_while_dot_head s :
  drop_while is_dot s = [] \/ exists b, drop_while is_dot s = newline :: b.
Proof.
  destruct (drop_while is_dot s) as [|c b] eqn:E; [now left|right].
  apply drop_while_head in E. apply space_is_dot_or_newline in E.
  subst c. now exists b.
Qed.

(** ** The signature pattern on a signature line *)

(** From the sign of definition on: the sign, the whitespace behind it,
    and the text that follows. *)
Lemma after_last_gets ty ws4 body :
  forallb is_dot ty = true ->
  forallb is_space ws4 = true -> lstrip body = body ->
  contains (lit ":=") (take_while is_dot (ws4 ++ body)) = false ->
  star is_dot (literal (lit ":=") (star is_space done))
    (ty ++ lit ":=" ++ ws4 ++ body)
  = Some (length ty + (length (lit ":=") + length ws4)).
Proof.
  intros Hty Hws4 Hbody Hrest. apply star_last; [exact Hty| |].
  - apply (literal_some (lit ":=")). rewrite star_done.
    rewrite take_while_app by exact Hws4.
    now rewrite (take_while_unindented _ _ Hbody), app_nil_r.
  - intros y1 y2 Hy Hne. apply literal_miss.
    change (lit ":=" ++ ws4 ++ body)
      with (58%N :: 61%N :: (ws4 ++ body)) in *.
    cbn [take_while drop_while] in Hy |- *.
    change (is_dot 58%N) with true in *. change (is_dot 61%N) with true in *.
    cbn iota in Hy |- *.
    destruct y1 as [|a [|b y1]]; [congruence| |].
    + injection Hy as _ <-. reflexivity.
    + injection Hy as _ _ Hy.
      destruct (drop_while_dot_head (ws4 ++ body)) as [HD | [d HD]];
        rewrite HD.
      * rewrite app_nil_r. exact (contains_false _ _ Hrest y1 y2 Hy).
      * destruct y2 as [|c [|c' y2]].
        -- reflexivity.
        -- cbn. now rewrite andb_false_r.
        -- rewrite starts_with_long by (simpl; lia).
           exact (contains_false _ _ Hrest y1 _ Hy).
Qed.

(** Behind the closing bracket of the arguments no other one follows on
    the line. *)
Lemma no_close_later tl y1 y2 :
  (forall c, In c (take_while is_dot tl) -> c <> 41%N) ->
  take_while is_dot (lit ")" ++ tl) = y1 ++ y2 -> y1 <> [] ->
  starts_with (lit ")") (y2 ++ drop_while is_dot (lit ")" ++ tl)) = false.
Proof.
  intros Hin Hy Hne.
  change (lit ")" ++ tl) with (41%N :: tl) in *.
  cbn [take_while drop_while] in Hy |- *.
  change (is_dot 41%N) with true in *. cbn iota in Hy |- *.
  destruct y1 as [|a y1]; [congruence|]. injection Hy as _ Hy.
  destruct (y2 ++ drop_while is_dot tl) as [|d rest] eqn:E; [reflexivity|].
  destruct (starts_with (lit ")") (d :: rest)) eqn:Es; [|reflexivity].
  exfalso. apply starts_with_single in Es. subst d.
  destruct y2 as [|c y2].
  - cbn [app] in E.
    destruct (drop_while_dot_head tl) as [HD | [d HD]];
      rewrite HD in E; discriminate.
  - injection E as -> _. apply (Hin 41%N); [|reflexivity].
    rewrite Hy. apply in_or_app. right. now left.
Qed.

Lemma tail_has_no_close ws3 ty ws4 body :
  forallb is_space ws3 = true ->
  contains (lit ")") ty = false ->
  contains (lit ")") (take_while is_dot (ws4 ++ body)) = false ->
  forall c,
    In c (take_while is_dot (ws3 ++ lit ":" ++ ty ++ lit ":=" ++ ws4 ++ body))
    -> c <> 41%N.
Proof.
  intros Hws3 Hclose Hrest c Hin ->.
  apply in_take_while in Hin as [Hin|Hin].
  { apply (proj1 (forallb_forall _ _) Hws3) in Hin. discriminate. }
  apply in_take_while in Hin as [Hin|Hin].
  { destruct Hin as [Hin|[]]. discriminate. }
  apply in_take_while in Hin as [Hin|Hin].
  { now apply (contains_single _ _ Hclose). }
  apply in_take_while in Hin as [Hin|Hin].
  { destruct Hin as [Hin|[Hin|[]]]; discriminate. }
  now apply (contains_single _ _ Hrest).
Qed.

Section Header.

Variable unicode_alnum : char -> bool.
Hypothesis no_space_alnum :
  forall w, is_space w = true -> unicode_alnum w = false.

Local Abbreviation is_word := (is_word unicode_alnum).
Local Abbreviation def_header := (def_header unicode_alnum).
Local Abbreviation strip_def_header := (strip_def_header unicode_alnum).

Lemma def_header_here ws1 name ws2 args ws3 ty ws4 body :
  ws1 <> [] -> forallb is_space ws1 = true ->
  name <> [] -> forallb is_word name = true ->
  forallb is_space ws2 = true ->
  forallb is_dot args = true ->
  forallb is_space ws3 = true ->
  forallb is_dot ty = true -> contains (lit ")") ty = false ->
  forallb is_space ws4 = true -> lstrip body = body ->
  contains (lit ":=") (take_while is_dot (ws4 ++ body)) = false ->
  contains (lit ")") (take_while is_dot (ws4 ++ body)) = false ->
  def_header None
    (lit "def" ++ ws1 ++ name ++ ws2 ++ lit "(" ++ args ++ lit ")" ++ ws3
       ++ lit ":" ++ ty ++ lit ":=" ++ ws4 ++ body)
  = Some (length (lit "def" ++ ws1 ++ name ++ ws2 ++ lit "(" ++ args
                    ++ lit ")" ++ ws3 ++ lit ":" ++ ty ++ lit ":=" ++ ws4)).
Proof.
  intros Hne1 Hws1 Hne Hname Hws2 Hargs Hws3 Hty Hclose Hws4 Hbody Hgets
    Hrest.
  rewrite !length_app. unfold Re.def_header. cbn [at_line_start].
  apply (literal_some (lit "def")).
  destruct ws1 as [|a ws1]; [congruence|].
  cbn in Hws1. apply andb_true_iff in Hws1 as [Ha Hws1].
  destruct name as [|b name]; [congruence|].
  cbn in Hname. apply andb_true_iff in Hname as [Hb Hname].
  apply plus_run; [exact Ha|exact Hws1| |].
  { apply drop_while_stop. now apply (word_not_space unicode_alnum). }
  apply plus_run; [exact Hb|exact Hname| |].
  { destruct ws2 as [|c ws2]; [reflexivity|].
    cbn in Hws2. apply andb_true_iff in Hws2 as [Hc _].
    apply drop_while_stop. now apply space_not_word. }
  apply star_run; [exact Hws2|reflexivity|].
  apply (literal_some (lit "(")).
  apply star_last; [exact Hargs| |].
  - apply (literal_some (lit ")")).
    apply star_run; [exact Hws3|reflexivity|].
    apply (literal_some (lit ":")).
    now apply after_last_gets.
  - intros y1 y2 Hy Hne'. apply literal_miss.
    apply (no_close_later (ws3 ++ lit ":" ++ ty ++ lit ":=" ++ ws4 ++ body)
             y1 y2); trivial.
    now apply tail_has_no_close.
Qed.

Lemma prev_after_nonempty p q (x : str) :
  x <> [] -> prev_after p x = prev_after q x.
Proof.
  intros Hx. destruct x as [|c x] using rev_ind; [congruence|].
  now rewrite !prev_after_app.
Qed.

(** Code no line of which begins with the letters def is left as it is,
    wherever the scan comes from. *)
Lemma header_idle prev code :
  some_line_starts (lit "def") None code = false ->
  sub_from def_header [] 0 prev code = code.
Proof.
  intros H.
  assert (Hm : forall x y, code = x ++ y ->
                 def_header (prev_after prev x) y = None).
  { intros x y Hxy. unfold Re.def_header.
    destruct (at_line_start (prev_after prev x)) eqn:E; [|reflexivity].
    apply literal_miss. subst code.
    destruct x as [|c x].
    - cbn [app] in H. rewrite some_line_starts_unfold in H.
      now apply orb_false_iff in H as [H _].
    - rewrite (prev_after_nonempty prev None) in E by discriminate.
      now apply (no_line_starts _ (c :: x) None y). }
  pose proof (sub_from_copy_run def_header [] code prev []) as Hrun.
  rewrite app_nil_r in Hrun. rewrite Hrun.
  - cbn [sub_from]. rewrite (Hm code []) by now rewrite app_nil_r.
    now rewrite app_nil_r.
  - intros x1 x2 Hxx _. rewrite app_nil_r. now apply Hm.
Qed.

(** X20: what line 26 is there for.  A code text that begins with a
    signature (the letters def, whitespace, a name, an argument text in
    round brackets, a colon, a type without a closing bracket, the sign of
    definition, all on one line but for the whitespace between them) loses
    the signature and the whitespace behind it, and nothing else, when the
    rest of the signature line holds neither a sign of definition nor a
    closing bracket and no later line begins with the letters def. *)
Theorem signature_line_removed :
  forall ws1 name ws2 args ws3 ty ws4 body,
    ws1 <> [] -> forallb is_space ws1 = true ->
    name <> [] -> forallb is_word name = true ->
    forallb is_space ws2 = true ->
    forallb is_dot args = true ->
    forallb is_space ws3 = true ->
    forallb is_dot ty = true -> contains (lit ")") ty = false ->
    forallb is_space ws4 = true -> lstrip body = body ->
    contains (lit ":=") (take_while is_dot (ws4 ++ body)) = false ->
    contains (lit ")") (take_while is_dot (ws4 ++ body)) = false ->
    some_line_starts (lit "def") None body = false ->
    strip_def_header
      (lit "def" ++ ws1 ++ name ++ ws2 ++ lit "(" ++ args ++ lit ")" ++ ws3
         ++ lit ":" ++ ty ++ lit ":=" ++ ws4 ++ body)
    = body.
Proof.
  intros ws1 name ws2 args ws3 ty ws4 body Hne1 Hws1 Hne Hname Hws2 Hargs
    Hws3 Hty Hclose Hws4 Hbody Hgets Hrest Hdef.
  pose proof (def_header_here ws1 name ws2 args ws3 ty ws4 body Hne1 Hws1
                Hne Hname Hws2 Hargs Hws3 Hty Hclose Hws4 Hbody Hgets Hrest)
    as Hm.
  set (header := lit "def" ++ ws1 ++ name ++ ws2 ++ lit "(" ++ args
                   ++ lit ")" ++ ws3 ++ lit ":" ++ ty ++ lit ":=" ++ ws4)
    in *.
  assert (Hsplit : lit "def" ++ ws1 ++ name ++ ws2 ++ lit "(" ++ args
                     ++ lit ")" ++ ws3 ++ lit ":" ++ ty ++ lit ":=" ++ ws4
                     ++ body = header ++ body).
  { unfold header. now rewrite <- !app_assoc. }
  rewrite Hsplit in Hm |- *.
  unfold Parser.strip_def_header, re_sub.
  destruct (length header) as [|n] eqn:En; [discriminate|].
  rewrite (sub_from_hit def_header [] None header body n); trivial.
  - cbn [app]. now apply header_idle.
  - intros ->. discriminate.
Qed.

End Header.

Lemma signature_line_removed_witness :
  (forall w, is_space w = true -> Samples.ascii_only w = false) /\
  forallb is_space (lit " ") = true /\
  forallb (is_word Samples.ascii_only) (lit "ident") = true /\
  forallb is_dot (lit "x : Nat") = true /\
  forallb is_dot (lit " Nat ") = true /\
  contains (lit ")") (lit " Nat ") = false /\
  forallb is_space (lit "
  ") = true /\
  lstrip (lit "x + 1") = lit "x + 1" /\
  contains (lit ":=") (take_while is_dot (lit "
  " ++ lit "x + 1")) = false /\
  contains (lit ")") (take_while is_dot (lit "
  " ++ lit "x + 1")) = false /\
  some_line_starts (lit "def") None (lit "x + 1") = false /\
  strip_def_header Samples.ascii_only (lit "def ident (x : Nat) : Nat :=
  x + 1") = lit "x + 1".
Proof.
  split; [reflexivity|]. do 10 (split; [reflexivity|]).
  exact (signature_line_removed Samples.ascii_only (fun _ _ => eq_refl)
           (lit " ") (lit "ident") (lit " ") (lit "x : Nat") (lit " ")
           (lit " Nat ") (lit "
  ") (lit "x + 1")
           ltac:(discriminate) eq_refl ltac:(discriminate) eq_refl eq_refl
           eq_refl eq_refl eq_refl eq_refl eq_refl eq_refl eq_refl eq_refl
           eq_refl).
Defined.

End HeaderFacts.

(* ===================================================================== *)
(** * From the answer format back to the candidates *)
(* ===================================================================== *)

Module RoundTripFacts.
Import Str StrFacts Re ReFacts Parser ParserFacts BulletFacts ReparseFacts
  Shapes MoreParserFacts HeaderFacts.

Lemma some_line_bulleted_unfold prev s :
  some_line_bulleted prev s =
  (at_line_start prev &&
   match drop_while is_space s with
   | g :: _ => is_glyph g
   | [] => false
   end) ||
  match s with
  | [] => false
  | c :: t => some_line_bulleted (Some c) t
  end.
Proof. destruct s; reflexivity. Qed.

Lemma no_line_bulleted :
  forall x prev y,
    some_line_bulleted prev (x ++ y) = false ->
    at_line_start (prev_after prev x) = true ->
    match drop_while is_space y with
    | g :: _ => is_glyph g
    | [] => false
    end = false.
Proof.
  induction x as [|c x IH]; intros prev y H Hat.
  - cbn [app] in H. rewrite some_line_bulleted_unfold in H.
    apply orb_false_iff in H as [H _]. cbn in Hat. now rewrite Hat in H.
  - cbn [app] in H. rewrite some_line_bulleted_unfold in H.
    apply orb_false_iff in H as [_ H]. rewrite prev_after_cons in Hat.
    now apply (IH (Some c)).
Qed.

(** A pass over a text without bulleted lines changes nothing. *)
Lemma pass_idle glyph :
  (forall c, glyph c = true -> is_space c = false) ->
  (forall c, glyph c = true -> is_glyph c = true) ->
  forall proof,
    some_line_bulleted None proof = false ->
    re_sub (bullet_line glyph) canonical_bullet proof = proof.
Proof.
  intros Hns Hgl proof H. unfold re_sub.
  assert (Hm : forall x y, proof = x ++ y ->
                 bullet_line glyph (prev_after None x) y = None).
  { intros x y Hxy. rewrite (bullet_line_spec glyph Hns).
    destruct (at_line_start (prev_after None x)) eqn:E; [|reflexivity].
    subst proof. pose proof (no_line_bulleted x None y H E) as Hno.
    destruct (drop_while is_space y) as [|g t]; [reflexivity|].
    destruct (glyph g) eqn:Eg; [|reflexivity].
    rewrite (Hgl g Eg) in Hno. discriminate. }
  pose proof (sub_from_copy_run (bullet_line glyph) canonical_bullet proof
                None []) as Hrun.
  rewrite app_nil_r in Hrun. rewrite Hrun.
  - cbn [sub_from]. rewrite (Hm proof []) by now rewrite app_nil_r.
    now rewrite app_nil_r.
  - intros x1 x2 Hxx _. rewrite app_nil_r. now apply Hm.
Qed.

Lemma bullets_idle proof :
  some_line_bulleted None proof = false -> normalize_bullets proof = proof.
Proof.
  intros H. unfold normalize_bullets.
  rewrite (pass_idle is_bullet is_bullet_not_space) by
    (trivial; intros c Hc; unfold is_glyph; now rewrite Hc).
  apply (pass_idle is_period is_period_not_space); trivial.
  intros c Hc. unfold is_glyph. rewrite Hc. apply orb_true_r.
Qed.

Section Parse.

Variable unicode_alnum : char -> bool.

Local Abbreviation parse_code_proof := (parse_code_proof unicode_alnum).

(** X21: the parser undoes the answer format.  A response made of the
    marker CODE:, a code text, the marker PROOF: and a proof text, with any
    whitespace around the two texts, is parsed into just these two texts,
    when both are not empty and carry no whitespace at their ends and no
    fence, the code holds no marker PROOF: and no line that begins with
    the letters def, and no line of the proof is bulleted. *)
Theorem plain_answer_round_trip :
  forall pad1 pad2 pad3 pad4 (c p : str),
    forallb is_space pad1 = true -> forallb is_space pad2 = true ->
    forallb is_space pad3 = true -> forallb is_space pad4 = true ->
    c <> [] -> p <> [] ->
    strip c = c -> strip p = p ->
    contains_ci PROOF c = false ->
    contains fence c = false -> contains fence p = false ->
    some_line_starts (lit "def") None c = false ->
    some_line_bulleted None p = false ->
    parse_code_proof (reassemble_with pad1 pad2 pad3 pad4 (c, p)) = (c, p).
Proof.
  intros pad1 pad2 pad3 pad4 c p H1 H2 H3 H4 Hc Hp Hsc Hsp Hpr Hfc Hfp
    Hdef Hbul.
  apply reparse_of_normal_pair_padded; trivial.
  - unfold Parser.strip_def_header, re_sub. now apply header_idle.
  - now apply bullets_idle.
Qed.

End Parse.

Lemma plain_answer_round_trip_witness :
  forallb is_space [newline] = true /\
  lit "x + 1" <> [] /\ lit "intro h
simp" <> [] /\
  strip (lit "x + 1") = lit "x + 1" /\
  strip (lit "intro h
simp") = lit "intro h
simp" /\
  contains_ci PROOF (lit "x + 1") = false /\
  contains fence (lit "x + 1") = false /\
  contains fence (lit "intro h
simp") = false /\
  some_line_starts (lit "def") None (lit "x + 1") = false /\
  some_line_bulleted None (lit "intro h
simp") = false /\
  parse_code_proof Samples.ascii_only (lit "CODE:
x + 1
PROOF:
intro h
simp
") = (lit "x + 1", lit "intro h
simp").
Proof.
  split; [reflexivity|]. split; [discriminate|]. split; [discriminate|].
  do 7 (split; [reflexivity|]).
  exact (plain_answer_round_trip Samples.ascii_only
           [newline] [newline] [newline] [newline] (lit "x + 1")
           (lit "intro h
simp")
           eq_refl eq_refl eq_refl eq_refl
           ltac:(discriminate) ltac:(discriminate)
           eq_refl eq_refl eq_refl eq_refl eq_refl eq_refl eq_refl).
Defined.

End RoundTripFacts.

(* ===================================================================== *)
(** * Fenced blocks *)
(* ===================================================================== *)

Module FenceBlockFacts.
Import Str StrFacts Re ReFacts Parser ParserFacts BulletFacts ReparseFacts
  Shapes MoreParserFacts HeaderFacts.

Lemma take_while_before f (a : str) (c : char) t :
  f c = false -> take_while f (a ++ c :: t) = take_while f a.
Proof.
  intros Hc. induction a as [|x a IH].
  - cbn [app take_while]. now rewrite Hc.
  - cbn [app take_while]. destruct (f x); [now rewrite IH|reflexivity].
Qed.

Lemma drop_while_before f (a : str) (c : char) t :
  f c = false -> drop_while f (a ++ c :: t) = drop_while f a ++ c :: t.
Proof.
  intros Hc. induction a as [|x a IH].
  - cbn [app drop_while]. now rewrite Hc.
  - cbn [app drop_while]. destruct (f x); [exact IH|reflexivity].
Qed.

Lemma optional_hit p k t n :
  k t = Some n -> optional p k (p ++ t) = Some (length p + n).
Proof. intros H. unfold optional. now rewrite (literal_some p k t n H). Qed.

Lemma optional_miss p k s :
  starts_with p s = false -> optional p k s = k s.
Proof. intros H. unfold optional. now rewrite literal_miss. Qed.

Lemma space_has_no_tag pad :
  forallb is_space pad = true -> starts_with (lit "lean") pad = false.
Proof.
  destruct pad as [|c pad]; [reflexivity|]. cbn [forallb]. intros H.
  apply andb_true_iff in H as [Hc _].
  change (lit "lean") with (108%N :: lit "ean"). cbn [starts_with].
  destruct (108 =? c)%N eqn:E; [|reflexivity].
  apply N.eqb_eq in E. subst c. discriminate.
Qed.

(** The opening pattern on a block with the tag lean: fence, tag and the
    whitespace in front of the content. *)
Lemma fence_open_tagged prev body t :
  fence_open prev (fence ++ lit "lean" ++ body ++ fence ++ t)
  = Some (length (fence ++ lit "lean" ++ take_while is_space body)).
Proof.
  unfold fence_open. rewrite !length_app.
  apply (literal_some fence), optional_hit.
  rewrite star_done. change (fence ++ t) with (96%N :: 96%N :: 96%N :: t).
  now rewrite take_while_before.
Qed.

(** The opening pattern on a closing fence: the fence and the whitespace
    behind it. *)
Lemma fence_open_closing prev pad :
  forallb is_space pad = true ->
  fence_open prev (fence ++ pad) = Some (length (fence ++ pad)).
Proof.
  intros Hpad. unfold fence_open. rewrite length_app.
  apply (literal_some fence).
  rewrite optional_miss by now apply space_has_no_tag.
  rewrite star_done. pose proof (take_while_app is_space pad [] Hpad) as H.
  rewrite app_nil_r in H. cbn [take_while] in H. rewrite app_nil_r in H.
  now rewrite H.
Qed.

Lemma fence_open_leaves_tail prev pad :
  forallb is_space pad = true ->
  sub_from fence_open [] 0 prev (fence ++ pad) = [].
Proof.
  intros Hpad. pose proof (fence_open_closing prev pad Hpad) as Hm.
  destruct (length (fence ++ pad)) as [|n] eqn:En; [discriminate|].
  pose proof (sub_from_hit fence_open [] prev (fence ++ pad) [] n) as Hhit.
  rewrite app_nil_r in Hhit. rewrite Hhit; trivial. discriminate.
Qed.

(** X22: a fenced block with the tag lean.  The opening pattern removes
    the opening fence with the tag and the whitespace in front of the
    content, and the closing fence with the whitespace behind it; the
    whitespace between the content and the closing fence stays, as the
    closing pattern never gets to it (lines 20-23). *)
Theorem fenced_block_content :
  forall body pad,
    contains fence (body ++ lit "``") = false ->
    forallb is_space pad = true ->
    strip_fences (fence ++ lit "lean" ++ body ++ fence ++ pad) = lstrip body.
Proof.
  intros body pad Hbody Hpad. unfold strip_fences.
  rewrite fence_close_is_idle. unfold re_sub.
  set (b := drop_while is_space body).
  assert (Hsplit : fence ++ lit "lean" ++ body ++ fence ++ pad
                   = (fence ++ lit "lean" ++ take_while is_space body)
                     ++ b ++ fence ++ pad).
  { unfold b. rewrite <- (take_drop_while is_space body) at 1.
    now rewrite <- !app_assoc. }
  pose proof (fence_open_tagged None body pad) as Hm.
  rewrite Hsplit in Hm |- *.
  destruct (length (fence ++ lit "lean" ++ take_while is_space body))
    as [|n] eqn:En; [discriminate|].
  rewrite (sub_from_hit fence_open [] None _ _ n); trivial;
    [|intros E; rewrite E in En; discriminate].
  cbn [app]. rewrite sub_from_copy_run.
  - rewrite (fence_open_leaves_tail _ pad Hpad). unfold lstrip, b.
    now rewrite app_nil_r.
  - intros x1 x2 Hx Hx2. apply fence_open_miss.
    assert (Hs : starts_with fence (x2 ++ lit "``") = false).
    { destruct (drop_while_suffix is_space body) as [w Hw].
      fold b in Hw. rewrite Hw, Hx, <- !app_assoc in Hbody.
      rewrite app_assoc in Hbody.
      exact (contains_false _ _ Hbody _ _ eq_refl). }
    change (fence ++ pad) with (lit "``" ++ 96%N :: pad).
    rewrite app_assoc, starts_with_long; [exact Hs|].
    rewrite length_app. destruct x2; [congruence|simpl; lia].
Qed.

Lemma fenced_block_content_witness :
  contains fence (lit "
x + 1
" ++ lit "``") = false /\
  forallb is_space [newline] = true /\
  strip_fences (lit "```lean
x + 1
```
") = lit "x + 1
".
Proof.
  do 2 (split; [reflexivity|]).
  exact (fenced_block_content (lit "
x + 1
") [newline] eq_refl eq_refl).
Defined.

End FenceBlockFacts.
